(** * M.E.L.I. live-comms panel: streaming audio I/O core

    A shallow embedding of the audio pipeline of
    [src/components/LiveComms.tsx]: the playback scheduler ([onmessage]),
    the session handlers ([toggleConnection], [onopen], [onclose],
    [onerror], [cleanup]), the capture callback ([onaudioprocess]) and the
    metering part of the visualizer's [render] loop, together with the PCM
    codec of [services/geminiUtils].

    Conventions.
    - A JavaScript [number] holding a time in seconds, a sample or a level
      is a rational [Q]; comparisons of such numbers are computed with
      [Qle_bool], equalities between them are stated with [==].
    - A [useRef] cell holding an object is an [option] of the object's
      identity (a [nat]); the objects themselves (audio contexts, buffer
      sources, media streams, promises, sessions) live in a [Platform]
      store indexed by identity, so that what happened to an object is
      still visible after the ref that pointed to it was cleared.
    - [onmessage] is split at its [await]: the part before and the part
      after are separate functions, and the atomic handler is their
      composition.  [toggleConnection] is modelled run to completion,
      what its awaited calls answer being given as an [Env].
    - A function that catches what it may throw returns a [result]; a
      callback that can throw returns an [Exit], which keeps the state
      reached when it threw.
    - Canvas drawing, particle bookkeeping, the meter DOM nodes and the
      [addLog] calls have no influence on the audio state and are left
      out. *)

From Stdlib Require Import ZArith QArith Qabs Lqa Lia.
From stdpp Require Import gmap list.

Open Scope Z_scope.

(** ** Numbers *)

(** [x < y] on JavaScript numbers, as a boolean. *)
Definition Qltb (x y : Q) : bool := negb (Qle_bool y x).

(** Conversion of a number to an integer by dropping its fractional part
    (rounding toward zero), the first step of every typed-array store. *)
Definition Qtrunc (q : Q) : Z := Z.quot (Qnum q) (Z.pos (Qden q)).

(** Sum of a list of numbers. *)
Definition Qsum (l : list Q) : Q := foldr Qplus 0%Q l.

(** Results of fallible operations. *)
Inductive result (E A : Type) : Type :=
| Ok (a : A)
| Err (e : E).
Arguments Ok {E A} a.
Arguments Err {E A} e.

#[global] Instance result_ret {E} : MRet (result E) := fun _ a => Ok a.
#[global] Instance result_bind {E} : MBind (result E) :=
  fun _ _ f m => match m with Ok a => f a | Err e => Err e end.

(** [try { body } catch (e) { handler }] *)
Definition catch {E A} (body : result E A) (handler : E -> result E A)
  : result E A :=
  match body with
  | Ok a => Ok a
  | Err e => handler e
  end.

(** A loop whose body may throw: the first exception ends it. *)
Fixpoint forEach {E X A} (xs : list X) (body : X -> A -> result E A) (a : A)
  : result E A :=
  match xs with
  | [] => Ok a
  | x :: xs' => a' ← body x a; forEach xs' body a'
  end.

(** ** PCM codec *)

Module Codec.

Inductive CodecError := InputConstraintError | DecodeError.

(** Modelled from the spec: the clamping step of [createPcmBlob], defined
    in [services/geminiUtils], which is not part of the sources at hand.
    Spec 4.1: "each sample is clamped to [-1, 1]". *)
Definition clamp (x : Q) : Q :=
  if Qltb x (-1) then (-1)%Q else if Qltb 1 x then 1%Q else x.

(** Modelled from the spec: the scale factor of [createPcmBlob], which
    the spec leaves open ("scaled to a signed 16-bit integer range");
    32767 is the largest factor that keeps a clamped sample inside the
    signed 16-bit range [-32768, 32767]. *)
Definition int16_scale : Z := 32767.

(** Modelled from the spec: the "16-bit quantization" step of spec 8,
    one unit of the scaled integer range. *)
Definition quantum : Q := 1 # 32767.

(** Modelled from the spec: the store of a scaled sample into a signed
    16-bit slot inside [createPcmBlob]: truncation, then wrap-around
    modulo 2^16 into [-32768, 32767]. *)
Definition toInt16 (v : Q) : Z :=
  let u := Qtrunc v mod 65536 in
  if 32768 <=? u then u - 65536 else u.

(** Modelled from the spec: "written little-endian", the two bytes of
    a signed 16-bit integer, low byte first, inside [createPcmBlob]. *)
Definition int16_bytes (n : Z) : list Z :=
  let u := n mod 65536 in [u mod 256; u / 256].

(** Modelled from the spec: the signed 16-bit integer held by two
    bytes, low byte first, as [decodeAudioData] reads it. *)
Definition int16_of_bytes (lo hi : Z) : Z :=
  let u := lo + 256 * hi in
  if 32768 <=? u then u - 65536 else u.

(** Modelled from the spec: [createPcmBlob] of [services/geminiUtils],
    which is not part of the sources at hand.  Spec 4.1: "each sample is
    clamped to [-1, 1], scaled to a signed 16-bit integer range, and
    written little-endian ... no error cases beyond malformed input
    length (must be non-empty)"; spec 8: "encode on an empty frame fails
    with an input-constraint error".  The spec names neither the scale
    factor nor the rounding: the factor is [int16_scale] and the rounding
    is the truncation of a 16-bit typed-array store. *)
Definition encode (frame : list Q) : result CodecError (list Z) :=
  match frame with
  | [] => Err InputConstraintError
  | _ =>
      Ok (flat_map
            (fun x => int16_bytes (toInt16 (clamp x * inject_Z int16_scale)))
            frame)
  end.

(** Modelled from the spec: the sample loop of [decodeAudioData] over
    a whole number of little-endian 16-bit words; an odd byte is left
    over exactly when the length is not a multiple of 2. *)
Fixpoint samples (bytes : list Z) : option (list Q) :=
  match bytes with
  | [] => Some []
  | [_] => None
  | lo :: hi :: rest =>
      match samples rest with
      | Some out => Some (Qmake (int16_of_bytes lo hi) 32767 :: out)
      | None => None
      end
  end.

(** Modelled from the spec: [decodeAudioData] of [services/geminiUtils]
    applied to the raw bytes of a mono payload; the module is not part of
    the sources at hand.  Spec 4.1: "reconstitute into a playable audio
    buffer ... Fails with DecodeError if byte length is not a multiple
    of 2".  Each 16-bit sample is scaled back by the factor the encoder
    used. *)
Definition decode (bytes : list Z) : result CodecError (list Q) :=
  match samples bytes with
  | Some out => Ok out
  | None => Err DecodeError
  end.

(** A sample within the nominal range. *)
Definition in_range (x : Q) : Prop := (-1 <= x /\ x <= 1)%Q.

End Codec.

(** ** The live-comms component *)

Module LiveComms.

(** *** Platform objects *)

Inductive SignalState := OFFLINE | SEARCHING | WEAK | STABLE | OPTIMAL.

Inductive Exn := InvalidStateError | SendError | TypeError.

(** [AudioContext]: whether it still runs, and its playback clock. *)
Inductive ContextState := Running | Closed.
Record AudioContext := {
  ctxState : ContextState;
  currentTime : Q
}.

(** A decoded segment: only its length matters to the scheduler. *)
Record AudioBuffer := { duration : Q }.

(** [AudioBufferSourceNode]: created unstarted by a context, connected
    to the output analyser or straight to the destination, then
    [start(when)], then possibly [stop()]. *)
Inductive PlayState := Unstarted | Started (when : Q) | Stopped.
Record BufferSource := {
  buffer : AudioBuffer;
  playState : PlayState;
  context : nat;           (* the context whose createBufferSource made it *)
  throughAnalyser : bool   (* connected to the output analyser *)
}.

(** [AnalyserNode], as the byte frequency data it currently reports
    ([frequencyBinCount] values). *)
Record Analyser := { bins : list Z }.

(** An encoded capture frame, as handed to [sendRealtimeInput]. *)
Definition Chunk : Type := list Z.

(** The promise returned by [ai.live.connect]; while it is pending, the
    [then] callbacks registered on it wait in order. *)
Inductive Promise :=
| Pending (waiting : list Chunk)
| Fulfilled (session : nat)
| Rejected.

Record Platform := {
  contexts : gmap nat AudioContext;
  sources : gmap nat BufferSource;
  streams : gmap nat bool;      (* media stream: are its tracks live? *)
  pendingFrame : option nat;    (* requested animation frame, if any *)
  promises : gmap nat Promise;
  sessions : gmap nat bool;     (* live session: is its socket open? *)
  uplink : list Chunk;          (* chunks accepted by the transport *)
  processors : list nat;        (* contexts a script processor is wired to *)
  nextId : nat                  (* identity of the next object created *)
}.

(** *** Component state: [useState] values and [useRef] cells *)

Record Ui := {
  connected : bool;
  micActive : bool;
  signalQuality : SignalState
}.

Record Refs := {
  sessionPromiseRef : option nat;
  inputContextRef : option nat;
  outputContextRef : option nat;
  nextStartTimeRef : Q;
  sourcesRef : gset nat;
  streamRef : option nat;
  animationFrameRef : nat;
  inputAnalyserRef : option Analyser;
  outputAnalyserRef : option Analyser
}.

Record State := {
  ui : Ui;
  refs : Refs;
  platform : Platform
}.

(** Field updates. *)
Definition with_ui (f : Ui -> Ui) (st : State) : State :=
  {| ui := f (ui st); refs := refs st; platform := platform st |}.
Definition with_refs (f : Refs -> Refs) (st : State) : State :=
  {| ui := ui st; refs := f (refs st); platform := platform st |}.
Definition with_platform (f : Platform -> Platform) (st : State) : State :=
  {| ui := ui st; refs := refs st; platform := f (platform st) |}.

Definition setConnected (b : bool) (u : Ui) : Ui :=
  {| connected := b; micActive := micActive u;
     signalQuality := signalQuality u |}.
Definition setMicActive (b : bool) (u : Ui) : Ui :=
  {| connected := connected u; micActive := b;
     signalQuality := signalQuality u |}.
Definition setSignalQuality (q : SignalState) (u : Ui) : Ui :=
  {| connected := connected u; micActive := micActive u;
     signalQuality := q |}.

Definition set_nextStartTime (t : Q) (r : Refs) : Refs :=
  {| sessionPromiseRef := sessionPromiseRef r;
     inputContextRef := inputContextRef r;
     outputContextRef := outputContextRef r;
     nextStartTimeRef := t;
     sourcesRef := sourcesRef r;
     streamRef := streamRef r;
     animationFrameRef := animationFrameRef r;
     inputAnalyserRef := inputAnalyserRef r;
     outputAnalyserRef := outputAnalyserRef r |}.
Definition set_sourcesRef (s : gset nat) (r : Refs) : Refs :=
  {| sessionPromiseRef := sessionPromiseRef r;
     inputContextRef := inputContextRef r;
     outputContextRef := outputContextRef r;
     nextStartTimeRef := nextStartTimeRef r;
     sourcesRef := s;
     streamRef := streamRef r;
     animationFrameRef := animationFrameRef r;
     inputAnalyserRef := inputAnalyserRef r;
     outputAnalyserRef := outputAnalyserRef r |}.
Definition set_sessionPromiseRef (o : option nat) (r : Refs) : Refs :=
  {| sessionPromiseRef := o;
     inputContextRef := inputContextRef r;
     outputContextRef := outputContextRef r;
     nextStartTimeRef := nextStartTimeRef r;
     sourcesRef := sourcesRef r;
     streamRef := streamRef r;
     animationFrameRef := animationFrameRef r;
     inputAnalyserRef := inputAnalyserRef r;
     outputAnalyserRef := outputAnalyserRef r |}.
Definition set_inputContextRef (o : option nat) (r : Refs) : Refs :=
  {| sessionPromiseRef := sessionPromiseRef r;
     inputContextRef := o;
     outputContextRef := outputContextRef r;
     nextStartTimeRef := nextStartTimeRef r;
     sourcesRef := sourcesRef r;
     streamRef := streamRef r;
     animationFrameRef := animationFrameRef r;
     inputAnalyserRef := inputAnalyserRef r;
     outputAnalyserRef := outputAnalyserRef r |}.
Definition set_outputContextRef (o : option nat) (r : Refs) : Refs :=
  {| sessionPromiseRef := sessionPromiseRef r;
     inputContextRef := inputContextRef r;
     outputContextRef := o;
     nextStartTimeRef := nextStartTimeRef r;
     sourcesRef := sourcesRef r;
     streamRef := streamRef r;
     animationFrameRef := animationFrameRef r;
     inputAnalyserRef := inputAnalyserRef r;
     outputAnalyserRef := outputAnalyserRef r |}.
Definition set_streamRef (o : option nat) (r : Refs) : Refs :=
  {| sessionPromiseRef := sessionPromiseRef r;
     inputContextRef := inputContextRef r;
     outputContextRef := outputContextRef r;
     nextStartTimeRef := nextStartTimeRef r;
     sourcesRef := sourcesRef r;
     streamRef := o;
     animationFrameRef := animationFrameRef r;
     inputAnalyserRef := inputAnalyserRef r;
     outputAnalyserRef := outputAnalyserRef r |}.
Definition set_animationFrameRef (h : nat) (r : Refs) : Refs :=
  {| sessionPromiseRef := sessionPromiseRef r;
     inputContextRef := inputContextRef r;
     outputContextRef := outputContextRef r;
     nextStartTimeRef := nextStartTimeRef r;
     sourcesRef := sourcesRef r;
     streamRef := streamRef r;
     animationFrameRef := h;
     inputAnalyserRef := inputAnalyserRef r;
     outputAnalyserRef := outputAnalyserRef r |}.
Definition set_inputAnalyserRef (a : option Analyser) (r : Refs) : Refs :=
  {| sessionPromiseRef := sessionPromiseRef r;
     inputContextRef := inputContextRef r;
     outputContextRef := outputContextRef r;
     nextStartTimeRef := nextStartTimeRef r;
     sourcesRef := sourcesRef r;
     streamRef := streamRef r;
     animationFrameRef := animationFrameRef r;
     inputAnalyserRef := a;
     outputAnalyserRef := outputAnalyserRef r |}.
Definition set_outputAnalyserRef (a : option Analyser) (r : Refs) : Refs :=
  {| sessionPromiseRef := sessionPromiseRef r;
     inputContextRef := inputContextRef r;
     outputContextRef := outputContextRef r;
     nextStartTimeRef := nextStartTimeRef r;
     sourcesRef := sourcesRef r;
     streamRef := streamRef r;
     animationFrameRef := animationFrameRef r;
     inputAnalyserRef := inputAnalyserRef r;
     outputAnalyserRef := a |}.
Definition set_contexts (c : gmap nat AudioContext) (p : Platform) : Platform :=
  {| contexts := c; sources := sources p; streams := streams p;
     pendingFrame := pendingFrame p; promises := promises p;
     sessions := sessions p; uplink := uplink p;
     processors := processors p; nextId := nextId p |}.
Definition set_sources (s : gmap nat BufferSource) (p : Platform) : Platform :=
  {| contexts := contexts p; sources := s; streams := streams p;
     pendingFrame := pendingFrame p; promises := promises p;
     sessions := sessions p; uplink := uplink p;
     processors := processors p; nextId := nextId p |}.
Definition set_promises (m : gmap nat Promise) (p : Platform) : Platform :=
  {| contexts := contexts p; sources := sources p; streams := streams p;
     pendingFrame := pendingFrame p; promises := m;
     sessions := sessions p; uplink := uplink p;
     processors := processors p; nextId := nextId p |}.
Definition set_sessions (m : gmap nat bool) (p : Platform) : Platform :=
  {| contexts := contexts p; sources := sources p; streams := streams p;
     pendingFrame := pendingFrame p; promises := promises p;
     sessions := m; uplink := uplink p;
     processors := processors p; nextId := nextId p |}.
Definition set_uplink (l : list Chunk) (p : Platform) : Platform :=
  {| contexts := contexts p; sources := sources p; streams := streams p;
     pendingFrame := pendingFrame p; promises := promises p;
     sessions := sessions p; uplink := l;
     processors := processors p; nextId := nextId p |}.
Definition set_nextId (n : nat) (p : Platform) : Platform :=
  {| contexts := contexts p; sources := sources p; streams := streams p;
     pendingFrame := pendingFrame p; promises := promises p;
     sessions := sessions p; uplink := uplink p;
     processors := processors p; nextId := n |}.
Definition set_streams (m : gmap nat bool) (p : Platform) : Platform :=
  {| contexts := contexts p; sources := sources p; streams := m;
     pendingFrame := pendingFrame p; promises := promises p;
     sessions := sessions p; uplink := uplink p;
     processors := processors p; nextId := nextId p |}.
Definition set_pendingFrame (o : option nat) (p : Platform) : Platform :=
  {| contexts := contexts p; sources := sources p; streams := streams p;
     pendingFrame := o; promises := promises p;
     sessions := sessions p; uplink := uplink p;
     processors := processors p; nextId := nextId p |}.
Definition set_processors (l : list nat) (p : Platform) : Platform :=
  {| contexts := contexts p; sources := sources p; streams := streams p;
     pendingFrame := pendingFrame p; promises := promises p;
     sessions := sessions p; uplink := uplink p;
     processors := l; nextId := nextId p |}.

(** *** Platform operations *)

(** [source.stop()]: throws on a node that was never started. *)
Definition source_stop (id : nat) (srcs : gmap nat BufferSource)
  : result Exn (gmap nat BufferSource) :=
  match srcs !! id with
  | Some s =>
      match playState s with
      | Unstarted => Err InvalidStateError
      | _ => Ok (<[id := {| buffer := buffer s; playState := Stopped;
                             context := context s;
                             throughAnalyser := throughAnalyser s |}]> srcs)
      end
  | None => Err InvalidStateError
  end.

(** What [stop()] leaves of a node when the call is wrapped in [try]:
    a node that was never started stays as it is. *)
Definition silenced (s : BufferSource) : BufferSource :=
  match playState s with
  | Unstarted => s
  | _ => {| buffer := buffer s; playState := Stopped;
            context := context s; throughAnalyser := throughAnalyser s |}
  end.

(** [try { source.stop(); } catch (e) {}] *)
Definition try_stop (id : nat) (srcs : gmap nat BufferSource)
  : result Exn (gmap nat BufferSource) :=
  catch (source_stop id srcs) (fun _ => Ok srcs).

(** [sourcesRef.current.forEach(source => { try { source.stop(); } catch (e) {} })] *)
Definition stop_each (live : gset nat) (srcs : gmap nat BufferSource)
  : result Exn (gmap nat BufferSource) :=
  forEach (elements live) try_stop srcs.

(** [context.close()] *)
Definition context_close (id : nat) (ctxs : gmap nat AudioContext)
  : gmap nat AudioContext :=
  match ctxs !! id with
  | Some c => <[id := {| ctxState := Closed; currentTime := currentTime c |}]> ctxs
  | None => ctxs
  end.

(** [stream.getTracks().forEach(t => t.stop())] *)
Definition stream_stop (id : nat) (strs : gmap nat bool) : gmap nat bool :=
  match strs !! id with
  | Some _ => <[id := false]> strs
  | None => strs
  end.

(** [cancelAnimationFrame(handle)] *)
Definition cancelAnimationFrame (h : nat) (pending : option nat) : option nat :=
  match pending with
  | Some h' => if decide (h = h') then None else pending
  | None => None
  end.

(** The playback clock advances by [dt] on every running context. *)
Definition tick (dt : Q) (st : State) : State :=
  with_platform
    (fun p =>
       set_contexts
         ((fun c =>
             match ctxState c with
             | Running => {| ctxState := Running;
                             currentTime := (currentTime c + dt)%Q |}
             | Closed => c
             end) <$> contexts p) p)
    st.

(** *** Teardown: [cleanup] *)

Definition cleanup (st : State) : result Exn State :=
  let r := refs st in
  let p := platform st in
  (* if (animationFrameRef.current) cancelAnimationFrame(...) *)
  let frame :=
    if decide (animationFrameRef r = 0%nat) then pendingFrame p
    else cancelAnimationFrame (animationFrameRef r) (pendingFrame p) in
  (* sourcesRef.current.forEach(...); sourcesRef.current.clear() *)
  srcs ← stop_each (sourcesRef r) (sources p);
  (* if (inputContextRef.current) inputContextRef.current.close() *)
  let ctxs :=
    match inputContextRef r with
    | Some c => context_close c (contexts p)
    | None => contexts p
    end in
  (* if (outputContextRef.current) outputContextRef.current.close() *)
  let ctxs :=
    match outputContextRef r with
    | Some c => context_close c ctxs
    | None => ctxs
    end in
  (* if (streamRef.current) streamRef.current.getTracks().forEach(...) *)
  let strs :=
    match streamRef r with
    | Some s => stream_stop s (streams p)
    | None => streams p
    end in
  Ok {| ui := {| connected := false; micActive := false;
                 signalQuality := OFFLINE |};
        refs := {| sessionPromiseRef := None;
                   inputContextRef := None;
                   outputContextRef := None;
                   nextStartTimeRef := nextStartTimeRef r;
                   sourcesRef := ∅;
                   streamRef := None;
                   animationFrameRef := animationFrameRef r;
                   inputAnalyserRef := None;
                   outputAnalyserRef := None |};
        platform := {| contexts := ctxs; sources := srcs; streams := strs;
                       pendingFrame := frame; promises := promises p;
                       sessions := sessions p; uplink := uplink p;
                       processors := processors p;
                       nextId := nextId p |} |}.

(** What it means for [after] to hold nothing of the session that
    [before] held: flags down, refs cleared, live set empty, no tracked
    node left scheduled or playing, both contexts closed, no live
    microphone track, no animation frame of the component pending. *)
Definition released (before after : State) : Prop :=
  ui after = {| connected := false; micActive := false;
                signalQuality := OFFLINE |}
  ∧ sourcesRef (refs after) = ∅
  ∧ sessionPromiseRef (refs after) = None
  ∧ inputContextRef (refs after) = None
  ∧ outputContextRef (refs after) = None
  ∧ streamRef (refs after) = None
  ∧ inputAnalyserRef (refs after) = None
  ∧ outputAnalyserRef (refs after) = None
  ∧ (∀ id s, id ∈ sourcesRef (refs before) →
       sources (platform after) !! id = Some s →
       ∀ t, playState s ≠ Started t)
  ∧ (∀ c x, inputContextRef (refs before) = Some c
            ∨ outputContextRef (refs before) = Some c →
       contexts (platform after) !! c = Some x → ctxState x = Closed)
  ∧ (∀ m, streamRef (refs before) = Some m →
       streams (platform after) !! m ≠ Some true)
  ∧ (animationFrameRef (refs before) ≠ 0%nat →
       pendingFrame (platform after)
         ≠ Some (animationFrameRef (refs before))).

(** *** Playback scheduler: the [onmessage] callback *)

(** The two fields of a [LiveServerMessage] the handler reads:
    [serverContent?.interrupted] and the base64 audio of
    [serverContent?.modelTurn?.parts?.[0]?.inlineData?.data], here as the
    bytes it stands for (an empty string is falsy). *)
Record LiveServerMessage := {
  interrupted : bool;
  inlineData : option (list Z)
}.

(** Where the handler stands when it first yields: finished, or waiting
    for [decodeAudioData] with the context it captured. *)
Inductive Outcome :=
| Done (st : State)
| AwaitDecode (ctx : nat) (payload : list Z) (st : State).

(** [onmessage] up to its [await]. *)
Definition onmessage_begin (msg : LiveServerMessage) (st : State)
  : result Exn Outcome :=
  let r := refs st in
  let p := platform st in
  if interrupted msg then
    srcs ← stop_each (sourcesRef r) (sources p);
    Ok (Done (with_refs (set_nextStartTime 0%Q)
               (with_refs (set_sourcesRef ∅)
                  (with_platform (set_sources srcs) st))))
  else
    match inlineData msg with
    | Some (b :: bs) =>
        match outputContextRef r with
        | None => Ok (Done st)
        | Some ctx =>
            match contexts p !! ctx with
            | None => Ok (Done st)
            | Some c =>
                let st' :=
                  if Qltb (nextStartTimeRef r) (currentTime c)
                  then with_refs (set_nextStartTime (currentTime c)) st
                  else st in
                Ok (AwaitDecode ctx (b :: bs) st')
            end
        end
    | _ => Ok (Done st)
    end.

(** [onmessage] after its [await]: [audioBuffer] is what
    [decodeAudioData] returned and [ctx] the context read before the
    [await].  The new node is made by [ctx], connected to the output
    analyser if the ref holds one at this moment, started at the cursor
    as it stands at this moment, the cursor moves by the buffer's
    duration, and the node joins the live set. *)
Definition onmessage_resume (ctx : nat) (audioBuffer : AudioBuffer)
    (st : State) : State :=
  let r := refs st in
  let p := platform st in
  let source := nextId p in
  let when := nextStartTimeRef r in
  let analysed :=
    match outputAnalyserRef r with
    | Some _ => true
    | None => false
    end in
  with_refs (set_sourcesRef ({[source]} ∪ sourcesRef r))
    (with_refs (set_nextStartTime (when + duration audioBuffer)%Q)
       (with_platform
          (fun p => set_nextId (S source)
             (set_sources
                (<[source := {| buffer := audioBuffer;
                                playState := Started when;
                                context := ctx;
                                throughAnalyser := analysed |}]> (sources p))
                p))
          st)).

(** The handler run to completion with no other event between its two
    halves; [decoded] is the buffer [decodeAudioData] yields for the
    message's payload. *)
Definition onmessage (decoded : AudioBuffer) (msg : LiveServerMessage)
    (st : State) : result Exn State :=
  o ← onmessage_begin msg st;
  match o with
  | Done st' => Ok st'
  | AwaitDecode ctx _ st' => Ok (onmessage_resume ctx decoded st')
  end.

(** The ['ended'] listener of a node: it leaves the live set. *)
Definition on_ended (source : nat) (st : State) : State :=
  with_refs (fun r => set_sourcesRef (sourcesRef r ∖ {[source]}) r) st.

(** The start time given to a node, if it was started and not stopped. *)
Definition startTime (source : nat) (st : State) : option Q :=
  match sources (platform st) !! source with
  | Some s =>
      match playState s with
      | Started when => Some when
      | _ => None
      end
  | None => None
  end.

(** The playback clock the scheduler reads, [ctx.currentTime]. *)
Definition playbackClock (st : State) : option Q :=
  match outputContextRef (refs st) with
  | Some ctx => currentTime <$> contexts (platform st) !! ctx
  | None => None
  end.

(** A message that only carries audio. *)
Definition audioMessage (payload : list Z) : LiveServerMessage :=
  {| interrupted := false; inlineData := Some payload |}.

(** One arrival of audio: the clock has advanced by [delay] since the
    previous event, the message carries [payload], and decoding it
    yields [decoded]. *)
Record Arrival := {
  delay : Q;
  payload : list Z;
  decoded : AudioBuffer
}.

(** A run of audio messages with nothing else in between. *)
Fixpoint enqueue_all (arrivals : list Arrival) (st : State)
  : result Exn State :=
  match arrivals with
  | [] => Ok st
  | a :: rest =>
      st' ← onmessage (decoded a) (audioMessage (payload a))
              (tick (delay a) st);
      enqueue_all rest st'
  end.


(** The output context is running and its clock reads [c]. *)
Definition clockRunsAt (st : State) (c : Q) : Prop :=
  ∃ ctx, outputContextRef (refs st) = Some ctx
    ∧ contexts (platform st) !! ctx
      = Some {| ctxState := Running; currentTime := c |}.


(** *** Session handlers *)

(** [onclose]: [setConnected(false); setSignalQuality('OFFLINE')]. *)
Definition onclose (st : State) : State :=
  with_ui (setSignalQuality OFFLINE) (with_ui (setConnected false) st).

(** [onerror]: [setConnected(false); setSignalQuality('OFFLINE')]. *)
Definition onerror (st : State) : State :=
  with_ui (setSignalQuality OFFLINE) (with_ui (setConnected false) st).

(** How a callback ends: it returns, or it throws; either way it
    leaves a state behind. *)
Inductive Exit :=
| Returns (st : State)
| Throws (e : Exn) (st : State).

Definition after (x : Exit) : State :=
  match x with
  | Returns st => st
  | Throws _ st => st
  end.

(** [onopen], with the [inputCtx] its closure captured when
    [toggleConnection] ran: [setConnected(true)],
    [setSignalQuality('OPTIMAL')], then
    [inputCtx.createMediaStreamSource(streamRef.current!)], which throws
    a [TypeError] when the ref was cleared in the meantime; otherwise a
    script processor is created and wired between the microphone and
    [inputCtx.destination], and calls [onaudioprocess] for as long as
    [inputCtx] runs. *)
Definition onopen (inputCtx : nat) (st : State) : Exit :=
  let st :=
    with_ui (setSignalQuality OPTIMAL) (with_ui (setConnected true) st) in
  match streamRef (refs st) with
  | None => Throws TypeError st
  | Some _ =>
      Returns
        (with_platform
           (fun p => set_processors (processors p ++ [inputCtx]) p) st)
  end.

(** An analyser created with [fftSize = 512] reports 256 bins. *)
Definition newAnalyser : Analyser := {| bins := replicate 256 0 |}.

(** The statements of [initializeLocalAudio]'s [try] that can throw once
    [getUserMedia] has resolved. *)
Inductive SetupStep :=
| NewAudioContext
| CreateAnalyser
| CreateMediaStreamSource.

(** The two [resume()] calls [toggleConnection] awaits. *)
Inductive ResumeCall := InputResume | OutputResume.

(** What the surroundings answer during one connection attempt. *)
Record Env := {
  apiKey : bool;                    (* process.env.API_KEY is set *)
  micGranted : bool;                (* getUserMedia resolves *)
  setupThrows : option SetupStep;   (* a later statement of that try throws *)
  resumeRejects : bool;             (* an awaited resume() rejects *)
  rejectedResume : ResumeCall       (* which one, when one does *)
}.

Definition throwsAt (env : Env) (step : SetupStep) : bool :=
  match setupThrows env, step with
  | Some NewAudioContext, NewAudioContext => true
  | Some CreateAnalyser, CreateAnalyser => true
  | Some CreateMediaStreamSource, CreateMediaStreamSource => true
  | _, _ => false
  end.

(** [new AudioContext(...)]: a running context whose clock reads 0. *)
Definition newAudioContext (st : State) : State :=
  with_platform
    (fun p =>
       set_nextId (S (nextId p))
         (set_contexts
            (<[nextId p := {| ctxState := Running; currentTime := 0%Q |}]>
               (contexts p)) p))
    st.

(** [drawVisualizer]: the arrays are allocated and [render] runs once,
    ending in [animationFrameRef.current = requestAnimationFrame(render)]. *)
Definition drawVisualizer (st : State) : State :=
  let frame := nextId (platform st) in
  with_refs (set_animationFrameRef frame)
    (with_platform
       (fun p => set_nextId (S frame) (set_pendingFrame (Some frame) p)) st).

(** [initializeLocalAudio].  Each ref is assigned as soon as its object
    exists, so a statement that throws later in the [try] leaves the
    earlier refs set; the [catch] only clears the two flags. *)
Definition initializeLocalAudio (env : Env) (st : State) : State :=
  let failed st :=
    with_ui (setMicActive false) (with_ui (setConnected false) st) in
  if micGranted env then
    (* streamRef.current = stream *)
    let stream := nextId (platform st) in
    let st :=
      with_refs (set_streamRef (Some stream))
        (with_platform
           (fun p => set_nextId (S stream)
                       (set_streams (<[stream := true]> (streams p)) p))
           st) in
    if throwsAt env NewAudioContext then failed st
    else
      (* inputContextRef.current = inputCtx *)
      let inputCtx := nextId (platform st) in
      let st :=
        with_refs (set_inputContextRef (Some inputCtx)) (newAudioContext st) in
      if throwsAt env CreateAnalyser then failed st
      else
        (* inputAnalyserRef.current = analyzer *)
        let st := with_refs (set_inputAnalyserRef (Some newAnalyser)) st in
        if throwsAt env CreateMediaStreamSource then failed st
        else
          (* setMicActive(true); drawVisualizer() *)
          drawVisualizer (with_ui (setMicActive true) st)
  else
    failed st.

(** The tail of the connect branch of [toggleConnection], once
    [outputCtx.resume()] has resolved: the output context is stored with
    its analyser, the cursor is reset, and the promise of
    [ai.live.connect] is stored without being awaited. *)
Definition openSession (outputCtx : nat) (st : State) : State :=
  let sessionPromise := nextId (platform st) in
  with_refs (set_sessionPromiseRef (Some sessionPromise))
    (with_platform
       (fun p => set_nextId (S sessionPromise)
                   (set_promises
                      (<[sessionPromise := Pending []]> (promises p)) p))
       (with_refs (set_nextStartTime 0%Q)
          (with_refs (set_outputAnalyserRef (Some newAnalyser))
             (with_refs (set_outputContextRef (Some outputCtx)) st)))).

(** The same from [new AudioContext] on, both [resume()] calls
    resolving. *)
Definition establish (st : State) : State :=
  openSession (nextId (platform st)) (newAudioContext st).

(** What the [catch] of [toggleConnection] does before [cleanup]. *)
Definition handshakeFailed (st : State) : State :=
  with_ui (setSignalQuality OFFLINE) (with_ui (setConnected false) st).

(** [toggleConnection], the handler of the panel's only button, run to
    completion with no other event between its awaits.  On a connected
    session it disconnects.  Otherwise it tries to connect; a rejected
    [resume()] lands in the [catch], which clears the flags and runs
    [cleanup]: for [outputCtx.resume()] that is after the output context
    was made and before it is stored in its ref.  (The key-selection
    dialog, which only exists inside the hosting page that defines
    [window.aistudio], is left out.) *)
Definition toggleConnection (env : Env) (st : State) : result Exn State :=
  if connected (ui st) then
    cleanup st
  else
    let st := with_ui (setSignalQuality SEARCHING) st in
    if negb (apiKey env) then
      Ok (with_ui (setSignalQuality OFFLINE) (with_ui (setConnected false) st))
    else
      let st :=
        match inputContextRef (refs st) with
        | None => initializeLocalAudio env st
        | Some _ => st
        end in
      match inputContextRef (refs st) with
      | None => Ok (with_ui (setSignalQuality OFFLINE) st)
      | Some _ =>
          if resumeRejects env then
            let st :=
              match rejectedResume env with
              | InputResume => st
              | OutputResume => newAudioContext st
              end in
            cleanup (handshakeFailed st)
          else Ok (establish st)
      end.

(** [toggleConnection] await by await.  Where the handler stands when
    it yields: it has returned, or it waits for [getUserMedia] inside
    [initializeLocalAudio], for [inputCtx.resume()], or for
    [outputCtx.resume()] with the output context it has just made. *)
Inductive Pause :=
| Returned (st : State)
| AwaitGetUserMedia (st : State)
| AwaitInputResume (st : State)
| AwaitOutputResume (outputCtx : nat) (st : State).

Definition paused (p : Pause) : State :=
  match p with
  | Returned st => st
  | AwaitGetUserMedia st => st
  | AwaitInputResume st => st
  | AwaitOutputResume _ st => st
  end.

(** Up to the first [await]. *)
Definition toggleConnection_begin (hasKey : bool) (st : State)
  : result Exn Pause :=
  if connected (ui st) then
    st' ← cleanup st; Ok (Returned st')
  else
    let st := with_ui (setSignalQuality SEARCHING) st in
    if negb hasKey then
      Ok (Returned (with_ui (setSignalQuality OFFLINE)
                      (with_ui (setConnected false) st)))
    else
      match inputContextRef (refs st) with
      | None => Ok (AwaitGetUserMedia st)
      | Some _ => Ok (AwaitInputResume st)
      end.

(** [getUserMedia] has settled: the rest of [initializeLocalAudio],
    then the second test of the input context ref. *)
Definition toggleConnection_microphone (env : Env) (st : State) : Pause :=
  let st := initializeLocalAudio env st in
  match inputContextRef (refs st) with
  | None => Returned (with_ui (setSignalQuality OFFLINE) st)
  | Some _ => AwaitInputResume st
  end.

(** [inputCtx.resume()] has settled. *)
Definition toggleConnection_inputResumed (resolved : bool) (st : State)
  : result Exn Pause :=
  if resolved then
    Ok (AwaitOutputResume (nextId (platform st)) (newAudioContext st))
  else
    st' ← cleanup (handshakeFailed st); Ok (Returned st').

(** [outputCtx.resume()] has settled. *)
Definition toggleConnection_outputResumed (outputCtx : nat) (resolved : bool)
    (st : State) : result Exn State :=
  if resolved then Ok (openSession outputCtx st)
  else cleanup (handshakeFailed st).

(** The four parts one after the other, with nothing in between. *)
Definition toggleConnection_parts (env : Env) (st : State)
  : result Exn State :=
  p ← toggleConnection_begin (apiKey env) st;
  let p :=
    match p with
    | AwaitGetUserMedia st => toggleConnection_microphone env st
    | _ => p
    end in
  p ← match p with
      | AwaitInputResume st =>
          toggleConnection_inputResumed
            (match rejectedResume env with
             | InputResume => negb (resumeRejects env)
             | OutputResume => true
             end) st
      | _ => Ok p
      end;
  match p with
  | AwaitOutputResume outputCtx st =>
      toggleConnection_outputResumed outputCtx (negb (resumeRejects env)) st
  | _ => Ok (paused p)
  end.

(** *** Capture: the [onaudioprocess] callback *)

(** [session.sendRealtimeInput({ media })]: fails on a session whose
    socket is not open. *)
Definition sendRealtimeInput (session : nat) (media : Chunk) (p : Platform)
  : result Exn Platform :=
  match sessions p !! session with
  | Some true => Ok (set_uplink (uplink p ++ [media]) p)
  | _ => Err SendError
  end.

(** [promise.then(session => session.sendRealtimeInput(...)).catch(() => {})]:
    on a pending promise the callback waits; on a fulfilled one it runs
    and whatever it throws is swallowed; on a rejected one only the
    empty [catch] runs. *)
Definition then_send (media : Chunk) (promise : nat) (p : Platform)
  : result Exn Platform :=
  match promises p !! promise with
  | Some (Pending waiting) =>
      Ok (set_promises (<[promise := Pending (waiting ++ [media])]> (promises p)) p)
  | Some (Fulfilled session) =>
      catch (sendRealtimeInput session media p) (fun _ => Ok p)
  | Some Rejected => Ok p
  | None => Ok p
  end.

Section Capture.

(** [createPcmBlob] is imported from [services/geminiUtils]. *)
Variable createPcmBlob : list Q -> Chunk.

(** [scriptProcessor.onaudioprocess]; [sessionPromiseRef.current?.then]
    does nothing when the ref is null. *)
Definition onaudioprocess (inputData : list Q) (st : State)
  : result Exn State :=
  let pcmBlob := createPcmBlob inputData in
  match sessionPromiseRef (refs st) with
  | None => Ok st
  | Some promise =>
      p ← then_send pcmBlob promise (platform st);
      Ok (with_platform (fun _ => p) st)
  end.

(** The script processor calling back once per captured frame. *)
Definition capture (frames : list (list Q)) (st : State)
  : result Exn State :=
  forEach frames onaudioprocess st.

End Capture.

(** How the transport stands for the capture callback. *)
Inductive Transport :=
| NoSession                              (* the ref is null *)
| Handshaking (promise : nat) (waiting : list Chunk)
| Open (session : nat)
| Failed.                                (* rejected, or socket closed *)

Definition transport (st : State) : Transport :=
  match sessionPromiseRef (refs st) with
  | None => NoSession
  | Some promise =>
      match promises (platform st) !! promise with
      | Some (Pending waiting) => Handshaking promise waiting
      | Some (Fulfilled session) =>
          match sessions (platform st) !! session with
          | Some true => Open session
          | _ => Failed
          end
      | Some Rejected => Failed
      | None => Failed
      end
  end.

(** The handshake completes: the promise is fulfilled with a new open
    session and the callbacks that waited on it run in order. *)
Definition session_resolved (promise : nat) (st : State) : result Exn State :=
  let p := platform st in
  match promises p !! promise with
  | Some (Pending waiting) =>
      let session := nextId p in
      let p' :=
        set_nextId (S session)
          (set_sessions (<[session := true]> (sessions p))
             (set_promises (<[promise := Fulfilled session]> (promises p)) p)) in
      p'' ← forEach waiting
              (fun media q => catch (sendRealtimeInput session media q)
                                (fun _ => Ok q)) p';
      Ok (with_platform (fun _ => p'') st)
  | _ => Ok st
  end.

(** The handshake fails after the promise was handed out. *)
Definition session_rejected (promise : nat) (st : State) : State :=
  match promises (platform st) !! promise with
  | Some (Pending _) =>
      with_platform
        (fun p => set_promises (<[promise := Rejected]> (promises p)) p) st
  | _ => st
  end.

(** The socket of a session closes. *)
Definition socket_closed (session : nat) (st : State) : State :=
  with_platform
    (fun p => set_sessions (<[session := false]> (sessions p)) p) st.

(** *** Live metrics: the metering part of [render] *)

(** The three arrays [drawVisualizer] allocates once and [render]
    refills on every frame. *)
Record Arrays := {
  inputDataArray : list Z;
  outputDataArray : list Z;
  visualizerDataArray : list Z
}.

Definition newArrays : Arrays :=
  {| inputDataArray := replicate 32 0;
     outputDataArray := replicate 32 0;
     visualizerDataArray := replicate 256 0 |}.

(** [analyser.getByteFrequencyData(array)]: the array's length decides
    how many bins are copied; elements beyond the analyser's bins keep
    their value. *)
Definition getByteFrequencyData (a : Analyser) (array : list Z) : list Z :=
  take (length array) (bins a) ++ drop (length (bins a)) array.

(** [for (i = 0; i < array.length; i++) sum += array[i]] *)
Definition sumBytes (array : list Z) : Z := foldr Z.add 0 array.

(** [sum / array.length / 255] *)
Definition level (array : list Z) : Q :=
  (inject_Z (sumBytes array) / inject_Z (Z.of_nat (length array)) / 255)%Q.

(** [outputVol > 0.05] *)
Definition isOutput (outputVol : Q) : bool := Qltb (5 # 100) outputVol.

(** [isOutput ? outputAnalyserRef.current : inputAnalyserRef.current] *)
Definition activeAnalyser (outputVol : Q) (r : Refs) : option Analyser :=
  if isOutput outputVol then outputAnalyserRef r else inputAnalyserRef r.

Record Metrics := {
  inputVol : Q;
  outputVol : Q;
  bassVol : Q;
  totalVol : Q
}.

(** Sections 1 and 2 of [render] and the metrics computed from them. *)
Definition render (r : Refs) (arrays : Arrays) : Arrays * Metrics :=
  let inputData :=
    match inputAnalyserRef r with
    | Some a => getByteFrequencyData a (inputDataArray arrays)
    | None => inputDataArray arrays
    end in
  let inputVol :=
    match inputAnalyserRef r with
    | Some _ => level inputData
    | None => 0%Q
    end in
  let outputData :=
    match outputAnalyserRef r with
    | Some a => getByteFrequencyData a (outputDataArray arrays)
    | None => outputDataArray arrays
    end in
  let outputVol :=
    match outputAnalyserRef r with
    | Some _ => level outputData
    | None => 0%Q
    end in
  let visualizerData :=
    match activeAnalyser outputVol r with
    | Some a => getByteFrequencyData a (visualizerDataArray arrays)
    | None => (fun _ => 0) <$> visualizerDataArray arrays
    end in
  let bassCount := 30%nat in
  let bassVol :=
    (inject_Z (sumBytes (take bassCount visualizerData))
     / inject_Z (Z.of_nat bassCount) / 255)%Q in
  let totalVol := level visualizerData in
  ({| inputDataArray := inputData;
      outputDataArray := outputData;
      visualizerDataArray := visualizerData |},
   {| inputVol := inputVol; outputVol := outputVol;
      bassVol := bassVol; totalVol := totalVol |}).

(** *** Reference states *)

(** The component as mounted: every ref at its [useRef] initial value. *)
Definition mounted : State :=
  {| ui := {| connected := false; micActive := false;
              signalQuality := OFFLINE |};
     refs := {| sessionPromiseRef := None;
                inputContextRef := None;
                outputContextRef := None;
                nextStartTimeRef := 0%Q;
                sourcesRef := ∅;
                streamRef := None;
                animationFrameRef := 0%nat;
                inputAnalyserRef := None;
                outputAnalyserRef := None |};
     platform := {| contexts := ∅; sources := ∅; streams := ∅;
                    pendingFrame := None; promises := ∅; sessions := ∅;
                    uplink := []; processors := []; nextId := 1%nat |} |}.

(** Surroundings in which a connection attempt goes through. *)
Definition granted : Env :=
  {| apiKey := true; micGranted := true; setupThrows := None;
     resumeRejects := false; rejectedResume := InputResume |}.

(** The state a [result] holds, [mounted] standing in for a throw. *)
Definition settled (r : result Exn State) : State :=
  match r with
  | Ok st => st
  | Err _ => mounted
  end.

(** The button was pressed and the attempt is under way. *)
Definition connecting : State := settled (toggleConnection granted mounted).

(** The handshake completed and [onopen] ran, with the input context
    of [connecting] in its closure: the session is active. *)
Definition active : State :=
  after
    (onopen 2%nat
       (settled
          (match sessionPromiseRef (refs connecting) with
           | Some promise => session_resolved promise connecting
           | None => Ok connecting
           end))).

(** A segment of one second is playing; five seconds later it is over
    and the session sits idle. *)
Definition playing : State :=
  settled (onmessage {| duration := 1%Q |} (audioMessage [0; 0]) active).

Definition idle : State := tick 5%Q playing.

(** The remote end closed the active session: its socket is closed and
    [onclose] ran.  The script processor installed by [onopen] is still
    attached to the input context and keeps calling [onaudioprocess]. *)
Definition remote_closed : State := onclose (socket_closed 6 active).

(** The button was pressed again: a new attempt is under way and the
    session promise ref points to its pending promise. *)
Definition reconnecting : State :=
  settled (toggleConnection granted remote_closed).

(** A state no run of the handlers produces: the live set tracks a
    node on which [start] was never called, so that its [stop()] throws. *)
Definition unstarted_tracked : State :=
  with_refs (set_sourcesRef {[7%nat]})
    (with_platform
       (set_sources
          {[7%nat := {| buffer := {| duration := 1%Q |};
                        playState := Unstarted;
                        context := 4%nat; throughAnalyser := true |}]})
       active).

(** Segments of 1.0 s, 0.5 s and 2.0 s arriving at clock time 0. *)
Definition three_segments : list Arrival :=
  [ {| delay := 0%Q; payload := [0; 0];
       decoded := {| duration := 1%Q |} |};
    {| delay := 0%Q; payload := [0; 0];
       decoded := {| duration := (1 # 2)%Q |} |};
    {| delay := 0%Q; payload := [0; 0];
       decoded := {| duration := 2%Q |} |} ].

(** A stand-in for [createPcmBlob]: the codec's bytes, none for a
    frame it rejects. *)
Definition pcmBlob (frame : list Q) : Chunk :=
  match Codec.encode frame with
  | Ok bytes => bytes
  | Err _ => []
  end.

(** Refs of a session in which the model speaks: the first 32 output
    bins sum to 816, an output level of 0.10; the first 32 input bins
    sum to 163, an input level just under 0.02. *)
Definition speaking : Refs :=
  {| sessionPromiseRef := sessionPromiseRef (refs active);
     inputContextRef := inputContextRef (refs active);
     outputContextRef := outputContextRef (refs active);
     nextStartTimeRef := nextStartTimeRef (refs active);
     sourcesRef := sourcesRef (refs active);
     streamRef := streamRef (refs active);
     animationFrameRef := animationFrameRef (refs active);
     inputAnalyserRef := Some {| bins := replicate 3 6 ++ replicate 253 5 |};
     outputAnalyserRef :=
       Some {| bins := replicate 16 26 ++ replicate 240 25 |} |}.

(** An interruption that also carries audio. *)
Definition interruption (audio : option (list Z)) : LiveServerMessage :=
  {| interrupted := true; inlineData := audio |}.

End LiveComms.

From Stdlib Require Import Qround.

(** ** Event traces of the live-comms component *)

Module Trace.
Import LiveComms.

(** What can happen to the mounted component: the button, with
    [toggleConnection] run to completion or await by await, the
    callbacks handed to [ai.live.connect], the two halves of [onmessage]
    or its first half and a failing decode, the ['ended'] listener of a
    node, the audio clock, the script processor, the settling of the
    session promise, the socket, and the unmount effect.  An event
    carries what the closure of its callback captured.  The part of a
    handler that follows an [await] is an event of its own and may come
    at any point: the orders that can really occur are among those
    allowed here. *)
Inductive Event :=
| Press (env : Env)
| PressBegins (hasKey : bool)
| GetUserMediaSettles (env : Env)
| InputResumeSettles (resolved : bool)
| OutputResumeSettles (outputCtx : nat) (resolved : bool)
| Unmount
| SessionOpens (inputCtx : nat)
| SessionCloses
| SessionErrors
| Message (msg : LiveServerMessage)
| Decoded (ctx : nat) (audioBuffer : AudioBuffer)
| DecodeFails
| SourceEnded (source : nat)
| ClockAdvances (dt : Q)
| AudioProcess (inputData : list Q)
| HandshakeDone (promise : nat)
| HandshakeFails (promise : nat)
| SocketCloses (session : nat).

Section Step.

Variable createPcmBlob : list Q -> Chunk.

(** A script processor runs while the context it is wired to does. *)
Definition capturing (st : State) : bool :=
  existsb
    (fun c =>
       match contexts (platform st) !! c with
       | Some {| ctxState := Running |} => true
       | _ => false
       end)
    (processors (platform st)).

(** The state each event leaves.  A message stops at its [await]; the
    decode it waits for comes back as a [Decoded] event, or as
    [DecodeFails], which rejects the handler where it stands.  A callback
    that throws leaves the state it had reached, and the component goes
    on from there.  The output context a connection attempt waits on is
    one that runs, the script processor only calls back while it runs,
    and a socket can only close on a session that exists. *)
Definition step (e : Event) (st : State) : result Exn State :=
  match e with
  | Press env => toggleConnection env st
  | PressBegins hasKey =>
      p ← toggleConnection_begin hasKey st; Ok (paused p)
  | GetUserMediaSettles env => Ok (paused (toggleConnection_microphone env st))
  | InputResumeSettles resolved =>
      p ← toggleConnection_inputResumed resolved st; Ok (paused p)
  | OutputResumeSettles outputCtx resolved =>
      match contexts (platform st) !! outputCtx with
      | Some {| ctxState := Running |} =>
          toggleConnection_outputResumed outputCtx resolved st
      | _ => Ok st
      end
  | Unmount => cleanup st
  | SessionOpens inputCtx => Ok (after (onopen inputCtx st))
  | SessionCloses => Ok (onclose st)
  | SessionErrors => Ok (onerror st)
  | Message msg =>
      o ← onmessage_begin msg st;
      match o with
      | Done st' => Ok st'
      | AwaitDecode _ _ st' => Ok st'
      end
  | Decoded ctx audioBuffer => Ok (onmessage_resume ctx audioBuffer st)
  | DecodeFails => Ok st
  | SourceEnded source => Ok (on_ended source st)
  | ClockAdvances dt => Ok (tick dt st)
  | AudioProcess inputData =>
      if capturing st then onaudioprocess createPcmBlob inputData st
      else Ok st
  | HandshakeDone promise => session_resolved promise st
  | HandshakeFails promise => Ok (session_rejected promise st)
  | SocketCloses session =>
      match sessions (platform st) !! session with
      | Some _ => Ok (socket_closed session st)
      | None => Ok st
      end
  end.

(** A sequence of events, from the first to the last. *)
Definition run (events : list Event) (st : State) : result Exn State :=
  forEach events step st.

End Step.

(** Time does not run backwards and a decoded buffer has no negative
    length. *)
Definition plausible (e : Event) : Prop :=
  match e with
  | ClockAdvances dt => (0 <= dt)%Q
  | Decoded _ audioBuffer => (0 <= duration audioBuffer)%Q
  | _ => True
  end.

(** Every tracked node was started. *)
Definition tracked_started (st : State) : Prop :=
  ∀ id, id ∈ sourcesRef (refs st) →
    ∃ s, sources (platform st) !! id = Some s ∧ playState s ≠ Unstarted.

(** A context ref points to a running context, the stream ref to a
    stream whose tracks are live. *)
Definition refs_live (st : State) : Prop :=
  (∀ c, inputContextRef (refs st) = Some c →
     ∃ x, contexts (platform st) !! c = Some x ∧ ctxState x = Running)
  ∧ (∀ c, outputContextRef (refs st) = Some c →
       ∃ x, contexts (platform st) !! c = Some x ∧ ctxState x = Running)
  ∧ (∀ m, streamRef (refs st) = Some m →
       streams (platform st) !! m = Some true).

(** No clock and no cursor is negative. *)
Definition times_nonneg (st : State) : Prop :=
  (∀ c x, contexts (platform st) !! c = Some x → (0 <= currentTime x)%Q)
  ∧ (0 <= nextStartTimeRef (refs st))%Q.

(** Every node ever given a start time was given a non-negative one. *)
Definition starts_nonneg (st : State) : Prop :=
  ∀ id s t, sources (platform st) !! id = Some s →
    playState s = Started t → (0 <= t)%Q.

(** Identities below [nextId] are the only ones in use. *)
Definition ids_fresh (st : State) : Prop :=
  let n := nextId (platform st) in
  (∀ k, is_Some (contexts (platform st) !! k) → (k < n)%nat)
  ∧ (∀ k, is_Some (sources (platform st) !! k) → (k < n)%nat)
  ∧ (∀ k, is_Some (streams (platform st) !! k) → (k < n)%nat)
  ∧ (∀ k, is_Some (promises (platform st) !! k) → (k < n)%nat)
  ∧ (∀ k, is_Some (sessions (platform st) !! k) → (k < n)%nat).

(** All of the above. *)
Definition consistent (st : State) : Prop :=
  tracked_started st ∧ refs_live st
  ∧ times_nonneg st ∧ starts_nonneg st ∧ ids_fresh st.

(** Each ref is assigned once the object it builds on is there, and
    [cleanup] clears them together: an input analyser comes with an input
    context, an input context with a stream, the output analyser with the
    output context, a session promise with an output context. *)
Definition refs_in_order (st : State) : Prop :=
  (inputAnalyserRef (refs st) ≠ None → inputContextRef (refs st) ≠ None)
  ∧ (inputContextRef (refs st) ≠ None → streamRef (refs st) ≠ None)
  ∧ (outputContextRef (refs st) = None ↔ outputAnalyserRef (refs st) = None)
  ∧ (sessionPromiseRef (refs st) ≠ None → outputContextRef (refs st) ≠ None).

(** Surroundings in which the microphone is granted and the input
    context then fails to come up. *)
Definition no_input_context : Env :=
  {| apiKey := true; micGranted := true;
     setupThrows := Some NewAudioContext;
     resumeRejects := false; rejectedResume := InputResume |}.

(** The start times and the final cursor of a run of arrivals, from the
    cursor and the clock alone: each segment starts at the cursor, raised
    to the clock if it lags. *)
Fixpoint schedule (cursor clock : Q) (arrivals : list Arrival)
  : list Q * Q :=
  match arrivals with
  | [] => ([], cursor)
  | a :: rest =>
      let now := (clock + delay a)%Q in
      let when := if Qltb cursor now then now else cursor in
      let next := schedule (when + duration (decoded a))%Q now rest in
      (when :: fst next, snd next)
  end.

Definition delays (arrivals : list Arrival) : list Q :=
  delay <$> arrivals.

(** The clock time at which arrival [i] of a run is handled, the run
    starting at clock time [c]. *)
Definition arrivalClock (c : Q) (arrivals : list Arrival) (i : nat) : Q :=
  (c + Qsum (delays (take (S i) arrivals)))%Q.

(** A session from the press of the button to the first interruption. *)
Definition sample_trace : list Event :=
  [ Press granted; HandshakeDone 5; SessionOpens 2;
    AudioProcess [1%Q]; Message (audioMessage [0; 0]);
    Decoded 4 {| duration := 1%Q |}; ClockAdvances (1 # 2)%Q;
    Message (audioMessage [0; 0]); Decoded 4 {| duration := 2%Q |};
    Message (interruption None); SourceEnded 7;
    SessionCloses; SocketCloses 6; Press granted;
    AudioProcess [0%Q]; HandshakeDone 10; SessionOpens 2; Press granted ].

End Trace.

(** ** Meters, signal bars and ring of the visualizer *)

Module Visualizer.
Import LiveComms.

(** [Math.min(100, vol * 150)], the meter's width in percent. *)
Definition meterWidth (vol : Q) : Q :=
  if Qltb (vol * 150) 100 then (vol * 150)%Q else 100%Q.

(** [0.3 + (vol * 0.7)], the meter's opacity. *)
Definition meterOpacity (vol : Q) : Q := ((3 # 10) + vol * (7 # 10))%Q.

(** [Math.floor((i / bars) * (visualizerDataArray.length / 2))] with
    [bars = 180]: the bin shown by bar [i] of the frequency ring. *)
Definition bars : Z := 180.
Definition dataIndex (i : Z) (length : nat) : Z :=
  Qfloor ((inject_Z i / inject_Z bars)
          * (inject_Z (Z.of_nat length) / 2))%Q.

(** The bytes an analyser or a [Uint8Array] can hold. *)
Definition byte_data (array : list Z) : Prop :=
  Forall (λ b, 0 <= b <= 255) array.

(** The network simulation of the [connected] effect: one draw of
    [Math.random()] while connected, offline otherwise. *)
Definition simulatedSignal (connected : bool) (rand : Q) : SignalState :=
  if connected then
    if Qltb (7 # 10) rand then OPTIMAL
    else if Qltb (2 # 10) rand then STABLE
    else WEAK
  else OFFLINE.

(** [getSignalBars]: how many of the four bars the signal lights, and
    whether the bars pulse instead. *)
Definition activeBars (q : SignalState) : nat :=
  match q with
  | WEAK => 2
  | STABLE => 3
  | OPTIMAL => 4
  | SEARCHING => 0
  | OFFLINE => 0
  end.

Definition animate (q : SignalState) : bool :=
  match q with
  | SEARCHING => true
  | _ => false
  end.

Inductive BarStyle := Pulsing | Lit | Dim.

(** The class of bar [bar] of [[1, 2, 3, 4]]. *)
Definition barStyle (q : SignalState) (bar : nat) : BarStyle :=
  if animate q then Pulsing
  else if (bar <=? activeBars q)%nat then Lit else Dim.

Definition signalBars (q : SignalState) : list BarStyle :=
  barStyle q <$> [1; 2; 3; 4]%nat.

End Visualizer.

(** ** The log of the application shell *)

Module App.

Section Log.

Variable LogEntry : Type.

(** [addLog]: [setLogs(prev => [...prev.slice(-49), newLog])]. *)
Definition addLog (newLog : LogEntry) (prev : list LogEntry)
  : list LogEntry :=
  drop (length prev - 49) prev ++ [newLog].

(** The log after a series of [addLog] calls, oldest call first. *)
Definition addLogs (entries : list LogEntry) (prev : list LogEntry)
  : list LogEntry :=
  foldl (λ logs e, addLog e logs) prev entries.

End Log.

End App.

(** * Properties *)

Import LiveComms.

(** ** Stopping the tracked segments *)

Lemma silenced_idem s : silenced (silenced s) = silenced s.
Proof. destruct s as [b []]; reflexivity. Qed.

Lemma silenced_not_started s t : playState (silenced s) ≠ Started t.
Proof. destruct s as [b []]; discriminate. Qed.

Lemma try_stop_ok id (srcs : gmap nat BufferSource) :
  ∃ srcs', try_stop id srcs = Ok srcs' ∧
    ∀ j, srcs' !! j =
         if decide (j = id) then silenced <$> srcs !! j else srcs !! j.
Proof.
  unfold try_stop, source_stop.
  destruct (srcs !! id) as [s|] eqn:E.
  - destruct s as [b ps]; destruct ps; simpl;
      eexists; (split; [reflexivity|]); intros j;
      destruct (decide (j = id)) as [->|Hne];
      rewrite ?lookup_insert_eq, ?lookup_insert_ne, ?E by congruence;
      reflexivity.
  - simpl. eexists; split; [reflexivity|]. intros j.
    destruct (decide (j = id)) as [->|]; [rewrite E|]; reflexivity.
Qed.

Lemma forEach_try_stop (l : list nat) :
  ∀ srcs : gmap nat BufferSource,
  ∃ srcs', forEach l try_stop srcs = Ok srcs' ∧
    ∀ j, srcs' !! j =
         if decide (j ∈ l) then silenced <$> srcs !! j else srcs !! j.
Proof.
  induction l as [|x xs IH]; intros srcs; cbn [forEach].
  - exists srcs. split; [reflexivity|]. intros j.
    rewrite decide_False by apply not_elem_of_nil. reflexivity.
  - destruct (try_stop_ok x srcs) as (s1 & E1 & L1). rewrite E1.
    cbn [mbind result_bind].
    destruct (IH s1) as (s2 & E2 & L2). exists s2. split; [exact E2|].
    intros j. rewrite L2, L1.
    destruct (decide (j ∈ xs)) as [Hin|Hnin], (decide (j = x)) as [Heq|Hne].
    + rewrite decide_True by (apply elem_of_cons; auto).
      destruct (srcs !! j) as [s|]; [|reflexivity].
      change (Some (silenced (silenced s)) = Some (silenced s)).
      rewrite silenced_idem. reflexivity.
    + rewrite decide_True by (apply elem_of_cons; auto). reflexivity.
    + rewrite decide_True by (apply elem_of_cons; auto). reflexivity.
    + rewrite decide_False by (rewrite elem_of_cons; tauto). reflexivity.
Qed.

(** The stop loop never throws, whatever the live set holds, and it
    touches the tracked nodes only. *)
Lemma stop_each_ok (live : gset nat) (srcs : gmap nat BufferSource) :
  ∃ srcs', stop_each live srcs = Ok srcs' ∧
    ∀ j, srcs' !! j =
         if decide (j ∈ live) then silenced <$> srcs !! j else srcs !! j.
Proof.
  unfold stop_each.
  destruct (forEach_try_stop (elements live) srcs) as (s' & E & L).
  exists s'. split; [exact E|]. intros j. rewrite L.
  destruct (decide (j ∈ live)) as [H|H].
  - rewrite decide_True by (apply elem_of_elements; exact H). reflexivity.
  - rewrite decide_False by (rewrite elem_of_elements; exact H). reflexivity.
Qed.

Lemma stop_each_empty (srcs : gmap nat BufferSource) :
  stop_each ∅ srcs = Ok srcs.
Proof. unfold stop_each. rewrite elements_empty. reflexivity. Qed.

(** ** Teardown *)

Lemma context_close_lookup c (ctxs : gmap nat AudioContext) j :
  context_close c ctxs !! j =
  if decide (j = c)
  then (λ x, {| ctxState := Closed; currentTime := currentTime x |}) <$> ctxs !! j
  else ctxs !! j.
Proof.
  unfold context_close. destruct (decide (j = c)) as [->|Hne].
  - destruct (ctxs !! c) as [x|] eqn:E.
    + rewrite lookup_insert_eq. reflexivity.
    + rewrite E. reflexivity.
  - destruct (ctxs !! c); [rewrite lookup_insert_ne by congruence|]; reflexivity.
Qed.

Lemma context_close_closed c (ctxs : gmap nat AudioContext) x :
  context_close c ctxs !! c = Some x → ctxState x = Closed.
Proof.
  rewrite context_close_lookup, decide_True by reflexivity.
  destruct (ctxs !! c); intros [= <-]; reflexivity.
Qed.

Lemma context_close_keeps_closed c d (ctxs : gmap nat AudioContext) :
  (∀ x, ctxs !! d = Some x → ctxState x = Closed) →
  ∀ x, context_close c ctxs !! d = Some x → ctxState x = Closed.
Proof.
  intros H x. rewrite context_close_lookup.
  destruct (decide (d = c)); [|apply H].
  destruct (ctxs !! d); intros [= <-]; reflexivity.
Qed.

Lemma stream_stop_stopped m (strs : gmap nat bool) :
  stream_stop m strs !! m ≠ Some true.
Proof.
  unfold stream_stop. destruct (strs !! m) eqn:E.
  - rewrite lookup_insert_eq. discriminate.
  - rewrite E. discriminate.
Qed.

Lemma cancelAnimationFrame_cancels h pending :
  cancelAnimationFrame h pending ≠ Some h.
Proof.
  unfold cancelAnimationFrame. destruct pending as [h'|]; [|discriminate].
  destruct (decide (h = h')); [discriminate|congruence].
Qed.

Lemma cancelAnimationFrame_idem h pending :
  cancelAnimationFrame h (cancelAnimationFrame h pending)
  = cancelAnimationFrame h pending.
Proof.
  unfold cancelAnimationFrame. destruct pending as [h'|]; [|reflexivity].
  destruct (decide (h = h')) as [|Hne]; [reflexivity|].
  rewrite decide_False by exact Hne. reflexivity.
Qed.

(** [cleanup] returns normally from every state; what it returns holds
    nothing of the session, keeps the cursor, and is a fixed point. *)
Lemma cleanup_releases st :
  ∃ st', cleanup st = Ok st'
    ∧ released st st'
    ∧ nextStartTimeRef (refs st') = nextStartTimeRef (refs st)
    ∧ promises (platform st') = promises (platform st)
    ∧ sessions (platform st') = sessions (platform st)
    ∧ cleanup st' = Ok st'.
Proof.
  destruct st as [u r p]. unfold cleanup. cbn [refs platform ui].
  destruct (stop_each_ok (sourcesRef r) (sources p)) as (srcs & E & L).
  rewrite E. cbn [mbind result_bind].
  eexists. split; [reflexivity|].
  cbn [refs platform ui sourcesRef sessionPromiseRef inputContextRef
       outputContextRef streamRef inputAnalyserRef outputAnalyserRef
       animationFrameRef nextStartTimeRef contexts sources streams
       pendingFrame promises sessions uplink nextId].
  split; [|split; [reflexivity|split; [reflexivity|split; [reflexivity|]]]].
  - unfold released.
    cbn [refs platform ui sourcesRef sessionPromiseRef inputContextRef
         outputContextRef streamRef inputAnalyserRef outputAnalyserRef
         animationFrameRef nextStartTimeRef contexts sources streams
         pendingFrame promises sessions uplink nextId].
    repeat (split; [reflexivity|]).
    split; [|split; [|split]].
    + intros id s Hin Hs t. rewrite L, decide_True in Hs by exact Hin.
      destruct (sources p !! id) as [s0|]; [|discriminate].
      injection Hs as <-. apply silenced_not_started.
    + intros c x [Hc|Hc]; rewrite Hc.
      * destruct (outputContextRef r) as [o|].
        -- apply context_close_keeps_closed. apply context_close_closed.
        -- apply context_close_closed.
      * destruct (inputContextRef r) as [i|]; apply context_close_closed.
    + intros m ->. apply stream_stop_stopped.
    + intros Hne. rewrite decide_False by exact Hne.
      apply cancelAnimationFrame_cancels.
  - rewrite stop_each_empty. cbn [mbind result_bind].
    destruct (decide (animationFrameRef r = 0%nat)) as [H0|H0].
    + reflexivity.
    + rewrite cancelAnimationFrame_idem. reflexivity.
Qed.

(** The guard around [stop()] at work: the call throws, the teardown
    does not. *)
Example failing_stop_is_swallowed :
  source_stop 7 (sources (platform unstarted_tracked)) = Err InvalidStateError
  ∧ ∃ st', cleanup unstarted_tracked = Ok st' ∧ sourcesRef (refs st') = ∅.
Proof.
  split; [reflexivity|].
  destruct (cleanup_releases unstarted_tracked) as (st' & E & (_ & Hs & _) & _).
  eauto.
Qed.



(** ** Ways a session ends *)

(** C3, as stated: a remote close or a stream error runs the full
    teardown.  They do not: after [onclose] or [onerror] on a session
    that is playing, the live set, the contexts and the stream are still
    held. *)
Lemma remote_end_keeps_resources :
  ¬ released playing (onclose playing) ∧ ¬ released playing (onerror playing)
  ∧ elements (sourcesRef (refs (onclose playing))) = [7%nat]
  ∧ outputContextRef (refs (onerror playing)) = Some 4%nat.
Proof.
  split; [|split; [|split]].
  - intros (_ & _ & _ & H & _). vm_compute in H. discriminate.
  - intros (_ & _ & _ & H & _). vm_compute in H. discriminate.
  - vm_compute. reflexivity.
  - reflexivity.
Qed.

(** C3 (amended): an explicit disconnect, that is [toggleConnection] on a
    connected session, runs [cleanup] and releases every owned resource;
    [onclose] and [onerror] only mark the session as not connected and
    the signal as offline, and leave refs and platform objects alone. *)
Theorem teardown_on_disconnect_only (env : Env) (st : State) :
  connected (ui st) = true →
  (∃ st', toggleConnection env st = Ok st' ∧ cleanup st = Ok st'
          ∧ released st st')
  ∧ (refs (onclose st) = refs st ∧ platform (onclose st) = platform st
     ∧ connected (ui (onclose st)) = false
     ∧ signalQuality (ui (onclose st)) = OFFLINE)
  ∧ (refs (onerror st) = refs st ∧ platform (onerror st) = platform st
     ∧ connected (ui (onerror st)) = false
     ∧ signalQuality (ui (onerror st)) = OFFLINE).
Proof.
  intros Hc. split; [|split].
  - destruct (cleanup_releases st) as (st' & E & Hr & _).
    exists st'. unfold toggleConnection. rewrite Hc. auto.
  - repeat split.
  - repeat split.
Qed.

Lemma teardown_on_disconnect_only_witness :
  connected (ui playing) = true
  ∧ (∃ st', toggleConnection granted playing = Ok st'
            ∧ cleanup playing = Ok st' ∧ released playing st')
  ∧ refs (onclose playing) = refs playing.
Proof.
  split; [reflexivity|].
  destruct (teardown_on_disconnect_only granted playing eq_refl)
    as (H1 & (H2 & _) & _).
  split; [exact H1 | exact H2].
Defined.

(** C5, as stated: [connect()] on an active session is a no-op.  The
    only entry point is the toggle, and on the active session it tears
    the session down. *)
Lemma toggle_on_active_not_noop :
  connected (ui active) = true
  ∧ toggleConnection granted active ≠ Ok active
  ∧ connected (ui (settled (toggleConnection granted active))) = false.
Proof.
  split; [reflexivity|]. split; [|reflexivity].
  intros H. apply (f_equal (λ r, connected (ui (settled r)))) in H.
  vm_compute in H. discriminate.
Qed.

(** C5 (amended): [toggleConnection] on an active (connected) session
    creates no session: promises and sessions of the platform are the
    ones there were.  It is not ignored, though: it runs [cleanup], which
    tears the existing session down. *)
Theorem toggle_on_active_no_duplicate (env : Env) (st : State) :
  connected (ui st) = true →
  ∃ st', toggleConnection env st = Ok st'
    ∧ promises (platform st') = promises (platform st)
    ∧ sessions (platform st') = sessions (platform st)
    ∧ released st st'.
Proof.
  intros Hc. destruct (cleanup_releases st) as (st' & E & Hr & _ & Hp & Hs & _).
  exists st'. unfold toggleConnection. rewrite Hc. auto.
Qed.

Lemma toggle_on_active_no_duplicate_witness :
  connected (ui active) = true
  ∧ ∃ st', toggleConnection granted active = Ok st'
      ∧ promises (platform st') = promises (platform active)
      ∧ sessions (platform st') = sessions (platform active)
      ∧ released active st'.
Proof.
  split; [reflexivity|].
  exact (toggle_on_active_no_duplicate granted active eq_refl).
Defined.

(** ** Playback scheduler *)

(** The interruption branch of [onmessage]: it never throws and never
    awaits; it empties the live set, zeroes the cursor, silences the
    tracked nodes and creates nothing. *)
Lemma interruption_flush msg st :
  interrupted msg = true →
  ∃ st', onmessage_begin msg st = Ok (Done st')
    ∧ sourcesRef (refs st') = ∅
    ∧ nextStartTimeRef (refs st') = 0%Q
    ∧ outputContextRef (refs st') = outputContextRef (refs st)
    ∧ contexts (platform st') = contexts (platform st)
    ∧ nextId (platform st') = nextId (platform st)
    ∧ ∀ j, sources (platform st') !! j =
           if decide (j ∈ sourcesRef (refs st))
           then silenced <$> sources (platform st) !! j
           else sources (platform st) !! j.
Proof.
  intros Hi. unfold onmessage_begin. rewrite Hi.
  destruct (stop_each_ok (sourcesRef (refs st)) (sources (platform st)))
    as (srcs & E & L).
  rewrite E. cbn [mbind result_bind]. eexists. split; [reflexivity|].
  repeat split. exact L.
Qed.

(** The first half of [onmessage] on an audio message, on a state with
    an output context: the handler reads the clock, raises the cursor to
    it if the cursor lags, touches nothing else and awaits the decode. *)
Lemma arrival_catches_up bytes st ctx c :
  bytes ≠ [] →
  outputContextRef (refs st) = Some ctx →
  contexts (platform st) !! ctx = Some c →
  let when := if Qltb (nextStartTimeRef (refs st)) (currentTime c)
              then currentTime c else nextStartTimeRef (refs st) in
  ∃ st1, onmessage_begin (audioMessage bytes) st = Ok (AwaitDecode ctx bytes st1)
    ∧ nextStartTimeRef (refs st1) = when
    ∧ platform st1 = platform st
    ∧ sourcesRef (refs st1) = sourcesRef (refs st)
    ∧ outputContextRef (refs st1) = Some ctx.
Proof.
  intros Hb Hctx Hc when. unfold onmessage_begin.
  cbn [interrupted inlineData audioMessage].
  destruct bytes as [|b bs]; [congruence|].
  rewrite Hctx, Hc. subst when.
  destruct (Qltb (nextStartTimeRef (refs st)) (currentTime c));
    eexists; (split; [reflexivity|]); repeat split; assumption.
Qed.

(** The second half of [onmessage]: the node gets the next identity,
    it is made by the captured context, it holds the decoded buffer and
    it starts at the cursor as the second half finds it. *)
Lemma resume_schedules ctx buf st :
  ∃ s, sources (platform (onmessage_resume ctx buf st))
       = <[nextId (platform st) := s]> (sources (platform st))
    ∧ buffer s = buf
    ∧ playState s = Started (nextStartTimeRef (refs st))
    ∧ context s = ctx.
Proof. eexists. split; [reflexivity|]. repeat split. Qed.

(** An audio message on a state with an output context: the node gets
    the next identity, starts at the larger of cursor and clock, and the
    cursor ends one duration later. *)
Lemma enqueue_step buf bytes st ctx c :
  bytes ≠ [] →
  outputContextRef (refs st) = Some ctx →
  contexts (platform st) !! ctx = Some c →
  let when := if Qltb (nextStartTimeRef (refs st)) (currentTime c)
              then currentTime c else nextStartTimeRef (refs st) in
  ∃ st', onmessage buf (audioMessage bytes) st = Ok st'
    ∧ nextStartTimeRef (refs st') = (when + duration buf)%Q
    ∧ sourcesRef (refs st') = {[nextId (platform st)]} ∪ sourcesRef (refs st)
    ∧ outputContextRef (refs st') = Some ctx
    ∧ contexts (platform st') = contexts (platform st)
    ∧ nextId (platform st') = S (nextId (platform st))
    ∧ ∃ s, sources (platform st')
           = <[nextId (platform st) := s]> (sources (platform st))
        ∧ buffer s = buf ∧ playState s = Started when.
Proof.
  intros Hb Hctx Hc when.
  destruct (arrival_catches_up bytes st ctx c Hb Hctx Hc)
    as (st1 & E & Hn & Hp & Hl & Ho).
  fold when in Hn. unfold onmessage. rewrite E. cbn [mbind result_bind].
  eexists. split; [reflexivity|].
  cbn [onmessage_resume with_refs with_platform refs platform
       set_sourcesRef set_nextStartTime set_nextId set_sources
       nextStartTimeRef sourcesRef outputContextRef contexts nextId sources].
  rewrite Hn, Hp, Hl, Ho.
  repeat (split; [reflexivity|]).
  eexists. split; [reflexivity|]. split; reflexivity.
Qed.

Lemma Qltb_false x y : Qltb x y = false → (y <= x)%Q.
Proof.
  unfold Qltb. intros H. apply negb_false_iff in H.
  apply Qle_bool_iff. exact H.
Qed.

Lemma Qltb_true x y : Qltb x y = true → (x < y)%Q.
Proof.
  unfold Qltb. intros H. apply negb_true_iff in H.
  apply Qnot_le_lt. intros Hle. apply Qle_bool_iff in Hle. congruence.
Qed.

Lemma startTime_inserted st st' id s when :
  sources (platform st') = <[id := s]> (sources (platform st)) →
  playState s = Started when →
  startTime id st' = Some when.
Proof.
  unfold startTime. intros -> Hs. rewrite lookup_insert_eq, Hs. reflexivity.
Qed.

(** A node made by the second half of [onmessage] starts at the cursor
    the second half finds. *)
Lemma startTime_resume ctx buf st :
  startTime (nextId (platform st)) (onmessage_resume ctx buf st)
  = Some (nextStartTimeRef (refs st)).
Proof.
  destruct (resume_schedules ctx buf st) as (s & Hs & _ & Hp & _).
  eapply startTime_inserted; eassumption.
Qed.



(** C10: a message that carries both the interrupted flag and audio is
    handled as an interruption only.  The handler finishes without
    awaiting a decode, its result is the one of the flush alone, no node
    is created and the live set is empty. *)
Theorem interrupted_audio_dropped (audio : list Z) (buf : AudioBuffer)
    (st : State) :
  ∃ st', onmessage_begin (interruption (Some audio)) st = Ok (Done st')
    ∧ onmessage buf (interruption (Some audio)) st = Ok st'
    ∧ onmessage_begin (interruption None) st = Ok (Done st')
    ∧ sourcesRef (refs st') = ∅
    ∧ nextStartTimeRef (refs st') = 0%Q
    ∧ nextId (platform st') = nextId (platform st)
    ∧ dom (sources (platform st')) = dom (sources (platform st)).
Proof.
  destruct (interruption_flush (interruption (Some audio)) st eq_refl)
    as (st' & E & Hs & Hn & _ & _ & Hid & L).
  exists st'. split; [exact E|]. split; [|split].
  - unfold onmessage. rewrite E. reflexivity.
  - exact E.
  - repeat split; try assumption.
    apply set_eq. intros j. rewrite !elem_of_dom, L.
    destruct (decide (j ∈ sourcesRef (refs st))); [|reflexivity].
    destruct (sources (platform st) !! j); cbn.
    + split; intros _; eauto.
    + reflexivity.
Qed.

(** C4, as stated: the cursor never lags the clock, and an interruption
    resets it to the current clock time.  Five seconds into the session
    an interruption leaves the cursor at zero, below the clock. *)
Lemma interruption_resets_below_clock :
  ∃ st', onmessage_begin (interruption None) idle = Ok (Done st')
    ∧ playbackClock st' = Some 5%Q
    ∧ nextStartTimeRef (refs st') = 0%Q
    ∧ ¬ (nextStartTimeRef (refs st') == 5)%Q
    ∧ ¬ (5 <= nextStartTimeRef (refs st'))%Q.
Proof.
  destruct (interruption_flush (interruption None) idle eq_refl)
    as (st' & E & _ & Hn & Ho & Hc & _).
  exists st'. split; [exact E|]. split; [|split; [exact Hn|]].
  - unfold playbackClock. rewrite Ho, Hc. vm_compute. reflexivity.
  - rewrite Hn. split; vm_compute; [discriminate|].
    intros H. apply H. reflexivity.
Qed.

(** C4 (amended): an audio message raises the cursor to the clock it
    reads when the cursor lags; when its decode completes, its segment
    starts at the cursor as it stands then, and the cursor moves one
    duration further.  The start time is therefore neither below the
    clock read by that enqueue nor below the cursor as the message found
    it whenever the cursor was not lowered in between, in particular
    when no other event is handled between the two halves; an
    interruption resets the cursor to zero. *)
Theorem cursor_catches_up (buf : AudioBuffer) (bytes : list Z)
    (msg : LiveServerMessage) (st : State) (c : Q) :
  bytes ≠ [] →
  playbackClock st = Some c →
  interrupted msg = true →
  (∃ ctx st1,
     onmessage_begin (audioMessage bytes) st = Ok (AwaitDecode ctx bytes st1)
     ∧ (c <= nextStartTimeRef (refs st1))%Q
     ∧ (nextStartTimeRef (refs st) <= nextStartTimeRef (refs st1))%Q
     ∧ ((nextStartTimeRef (refs st1) == c)%Q
        ∨ nextStartTimeRef (refs st1) = nextStartTimeRef (refs st))
     ∧ onmessage buf (audioMessage bytes) st = Ok (onmessage_resume ctx buf st1)
     ∧ ∀ s2 buf2,
         (nextStartTimeRef (refs st1) <= nextStartTimeRef (refs s2))%Q →
         ∃ t, startTime (nextId (platform s2)) (onmessage_resume ctx buf2 s2)
              = Some t
           ∧ (c <= t)%Q ∧ (nextStartTimeRef (refs st) <= t)%Q)
  ∧ (∀ s2 ctx2 buf2,
       startTime (nextId (platform s2)) (onmessage_resume ctx2 buf2 s2)
       = Some (nextStartTimeRef (refs s2))
       ∧ nextStartTimeRef (refs (onmessage_resume ctx2 buf2 s2))
         = (nextStartTimeRef (refs s2) + duration buf2)%Q)
  ∧ (∃ st' t, onmessage buf (audioMessage bytes) st = Ok st'
       ∧ startTime (nextId (platform st)) st' = Some t
       ∧ (c <= t)%Q
       ∧ (nextStartTimeRef (refs st) <= t)%Q
       ∧ nextStartTimeRef (refs st') = (t + duration buf)%Q)
  ∧ (∃ st', onmessage_begin msg st = Ok (Done st')
       ∧ nextStartTimeRef (refs st') = 0%Q
       ∧ ∀ ctx2 buf2,
           startTime (nextId (platform st')) (onmessage_resume ctx2 buf2 st')
           = Some 0%Q).
Proof.
  intros Hb Hclk Hi.
  unfold playbackClock in Hclk.
  destruct (outputContextRef (refs st)) as [ctx|] eqn:Hctx; [|discriminate].
  destruct (contexts (platform st) !! ctx) as [cx|] eqn:Hcx; [|discriminate].
  injection Hclk as <-.
  destruct (arrival_catches_up bytes st ctx cx Hb Hctx Hcx)
    as (st1 & E1 & Hn1 & Hp1 & _).
  assert (Hc1 : (currentTime cx <= nextStartTimeRef (refs st1))%Q).
  { rewrite Hn1. destruct (Qltb _ _) eqn:Hlt.
    - apply Qle_refl.
    - apply Qltb_false. exact Hlt. }
  assert (Hk1 : (nextStartTimeRef (refs st) <= nextStartTimeRef (refs st1))%Q).
  { rewrite Hn1. destruct (Qltb _ _) eqn:Hlt.
    - apply Qlt_le_weak, Qltb_true. exact Hlt.
    - apply Qle_refl. }
  assert (Ea : onmessage buf (audioMessage bytes) st
               = Ok (onmessage_resume ctx buf st1)).
  { unfold onmessage. rewrite E1. reflexivity. }
  split; [|split; [|split]].
  - exists ctx, st1. split; [exact E1|]. split; [exact Hc1|].
    split; [exact Hk1|]. split; [|split; [exact Ea|]].
    + rewrite Hn1. destruct (Qltb _ _); [left; reflexivity|right; reflexivity].
    + intros s2 buf2 H2. eexists. split; [apply startTime_resume|].
      split; eapply Qle_trans; eassumption.
  - intros s2 ctx2 buf2. split; [apply startTime_resume|reflexivity].
  - exists (onmessage_resume ctx buf st1). eexists. split; [exact Ea|].
    rewrite <- Hp1. split; [apply startTime_resume|].
    split; [exact Hc1|]. split; [exact Hk1|reflexivity].
  - destruct (interruption_flush msg st Hi) as (st' & E & _ & Hn & _).
    exists st'. split; [exact E|]. split; [exact Hn|].
    intros ctx2 buf2. rewrite <- Hn. apply startTime_resume.
Qed.

Lemma cursor_catches_up_witness :
  (∃ st' t, onmessage {| duration := 1%Q |} (audioMessage [0; 0]) idle = Ok st'
     ∧ startTime (nextId (platform idle)) st' = Some t
     ∧ (5 <= t)%Q)
  ∧ ∃ ctx st1,
      onmessage_begin (audioMessage [0; 0]) idle = Ok (AwaitDecode ctx [0; 0] st1)
      ∧ (5 <= nextStartTimeRef (refs st1))%Q.
Proof.
  assert (Hb : [0; 0] ≠ @nil Z) by discriminate.
  destruct (cursor_catches_up {| duration := 1%Q |} [0; 0] (interruption None)
              idle 5%Q Hb eq_refl eq_refl)
    as ((ctx & st1 & E1 & Hc1 & _) & _ & (st' & t & E & Hs & Hc & _) & _).
  split.
  - exists st', t. auto.
  - exists ctx, st1. auto.
Defined.

(** A decode that was under way when an interruption arrived still
    completes: its segment joins the live set the interruption had
    emptied and starts at the reset cursor, here at 0 on a clock that
    reads 5. *)
Example decode_completes_after_interruption :
  ∃ ctx st1 st2,
    onmessage_begin (audioMessage [0; 0]) idle = Ok (AwaitDecode ctx [0; 0] st1)
    ∧ nextStartTimeRef (refs st1) = 5%Q
    ∧ onmessage_begin (interruption None) st1 = Ok (Done st2)
    ∧ playbackClock st2 = Some 5%Q
    ∧ startTime 8 (onmessage_resume ctx {| duration := 1%Q |} st2) = Some 0%Q
    ∧ elements (sourcesRef (refs (onmessage_resume ctx {| duration := 1%Q |} st2)))
      = [8%nat].
Proof.
  eexists. eexists. eexists.
  split; [vm_compute; reflexivity|]. split; [reflexivity|].
  split; [vm_compute; reflexivity|]. split; [reflexivity|].
  split; [reflexivity|]. vm_compute. reflexivity.
Qed.

(** *** Gapless scheduling *)


Lemma tick_clockRunsAt dt st c :
  clockRunsAt st c → clockRunsAt (tick dt st) (c + dt)%Q.
Proof.
  intros (ctx & Hr & Hc). exists ctx. split; [exact Hr|].
  cbn [tick with_platform platform set_contexts contexts].
  rewrite lookup_fmap, Hc. reflexivity.
Qed.








(** ** Capture *)

Lemma with_platform_same st : with_platform (λ _, platform st) st = st.
Proof. destruct st; reflexivity. Qed.

Lemma set_uplink_nil p : set_uplink (uplink p ++ []) p = p.
Proof. destruct p; cbn. rewrite app_nil_r. reflexivity. Qed.

(** One frame, by the state of the transport. *)
Lemma onaudioprocess_cases (createPcmBlob : list Q → Chunk) frame st :
  ∃ st', onaudioprocess createPcmBlob frame st = Ok st'
    ∧ ui st' = ui st ∧ refs st' = refs st
    ∧ match transport st with
      | NoSession | Failed => st' = st
      | Open session =>
          platform st'
          = set_uplink (uplink (platform st) ++ [createPcmBlob frame])
              (platform st)
      | Handshaking promise waiting =>
          platform st'
          = set_promises
              (<[promise := Pending (waiting ++ [createPcmBlob frame])]>
                 (promises (platform st)))
              (platform st)
      end.
Proof.
  unfold onaudioprocess, transport, then_send, sendRealtimeInput.
  destruct (sessionPromiseRef (refs st)) as [promise|].
  2:{ exists st. auto. }
  destruct (promises (platform st) !! promise) as [[waiting|session|]|].
  - eexists. split; [reflexivity|]. auto.
  - destruct (sessions (platform st) !! session) as [[|]|]; cbn.
    + eexists. split; [reflexivity|]. auto.
    + exists st. rewrite with_platform_same. auto.
    + exists st. rewrite with_platform_same. auto.
  - exists st. cbn. rewrite with_platform_same. auto.
  - exists st. cbn. rewrite with_platform_same. auto.
Qed.

Lemma capture_cons (createPcmBlob : list Q → Chunk) frame frames st st1 :
  onaudioprocess createPcmBlob frame st = Ok st1 →
  capture createPcmBlob (frame :: frames) st
  = capture createPcmBlob frames st1.
Proof. unfold capture. cbn [forEach]. intros ->. reflexivity. Qed.

(** The capture loop over any number of frames. *)
Lemma capture_cases (createPcmBlob : list Q → Chunk) frames :
  ∀ st, ∃ st', capture createPcmBlob frames st = Ok st'
    ∧ ui st' = ui st ∧ refs st' = refs st
    ∧ match transport st with
      | NoSession | Failed => st' = st
      | Open session =>
          platform st'
          = set_uplink (uplink (platform st) ++ (createPcmBlob <$> frames))
              (platform st)
      | Handshaking promise waiting =>
          platform st'
          = set_promises
              (<[promise := Pending (waiting ++ (createPcmBlob <$> frames))]>
                 (promises (platform st)))
              (platform st)
      end.
Proof.
  induction frames as [|frame frames IH]; intros st.
  - exists st. split; [reflexivity|]. split; [reflexivity|]. split; [reflexivity|].
    unfold transport.
    destruct (sessionPromiseRef (refs st)) as [promise|]; [|reflexivity].
    destruct (promises (platform st) !! promise) as [[waiting|session|]|] eqn:E;
      try reflexivity.
    + cbn. rewrite app_nil_r, insert_id by exact E.
      destruct (platform st); reflexivity.
    + destruct (sessions (platform st) !! session) as [[|]|]; try reflexivity.
      cbn. rewrite set_uplink_nil. reflexivity.
  - destruct (onaudioprocess_cases createPcmBlob frame st)
      as (st1 & E1 & Hu1 & Hr1 & H1).
    destruct (IH st1) as (st' & E' & Hu' & Hr' & H').
    exists st'. rewrite (capture_cons _ _ _ _ _ E1).
    split; [exact E'|]. split; [congruence|]. split; [congruence|].
    unfold transport in *. rewrite Hr1 in H'.
    destruct (sessionPromiseRef (refs st)) as [promise|]; [|congruence].
    destruct (promises (platform st) !! promise) as [[waiting|session|]|] eqn:E.
    + rewrite H1 in H'. cbn in H'. rewrite lookup_insert_eq in H'.
      rewrite H'. cbn. rewrite insert_insert_eq, <- app_assoc. reflexivity.
    + destruct (sessions (platform st) !! session) as [[|]|] eqn:Es.
      * rewrite H1 in H'. cbn in H'. rewrite E, Es in H'.
        rewrite H'. cbn. rewrite <- app_assoc. reflexivity.
      * subst st1. rewrite E, Es in H'. exact H'.
      * subst st1. rewrite E, Es in H'. exact H'.
    + subst st1. rewrite E in H'. exact H'.
    + subst st1. rewrite E in H'. exact H'.
Qed.

(** C7, as stated: a frame captured while the transport is not ready is
    dropped, not queued.  After a remote close and a new press of the
    button the handshake is under way; a frame captured then waits on the
    pending session promise and goes out once the session exists. *)
Lemma frame_waits_on_pending_promise :
  ∃ st1 st2,
    transport reconnecting = Handshaking 8 []
    ∧ onaudioprocess pcmBlob [1%Q] reconnecting = Ok st1
    ∧ promises (platform st1) !! 8%nat = Some (Pending [pcmBlob [1%Q]])
    ∧ uplink (platform st1) = []
    ∧ session_resolved 8 st1 = Ok st2
    ∧ uplink (platform st2) = [[255; 127]].
Proof.
  eexists. eexists.
  split; [reflexivity|].
  split; [vm_compute; reflexivity|].
  split; [reflexivity|].
  split; [reflexivity|].
  split; [vm_compute; reflexivity|].
  reflexivity.
Qed.

(** C7 (amended): the capture callback never throws and the loop never
    stops, whatever the transport.  With no session promise, a rejected
    one, or a session whose send fails, every frame is dropped and the
    state stays as it was: nothing is queued, nothing retried.  With an
    open session every frame goes out, in order.  While the session
    promise is pending the frames wait on it, in order. *)
Theorem capture_best_effort (createPcmBlob : list Q → Chunk)
    (frames : list (list Q)) (st : State) :
  (∀ frame, onaudioprocess createPcmBlob frame st
            = capture createPcmBlob [frame] st)
  ∧ ∃ st', capture createPcmBlob frames st = Ok st'
    ∧ ui st' = ui st ∧ refs st' = refs st
    ∧ match transport st with
      | NoSession | Failed => st' = st
      | Open session =>
          platform st'
          = set_uplink (uplink (platform st) ++ (createPcmBlob <$> frames))
              (platform st)
      | Handshaking promise waiting =>
          platform st'
          = set_promises
              (<[promise := Pending (waiting ++ (createPcmBlob <$> frames))]>
                 (promises (platform st)))
              (platform st)
      end.
Proof.
  split; [|apply capture_cases].
  intros frame. unfold capture. cbn [forEach].
  destruct (onaudioprocess createPcmBlob frame st); reflexivity.
Qed.

(** ** Live metrics *)

Lemma isOutput_true v : isOutput v = true ↔ (5 # 100 < v)%Q.
Proof.
  unfold isOutput. split.
  - apply Qltb_true.
  - intros H. unfold Qltb. apply negb_true_iff.
    destruct (Qle_bool v (5 # 100)) eqn:E; [|reflexivity].
    apply Qle_bool_iff in E. lra.
Qed.

Lemma getByteFrequencyData_full a array :
  length (bins a) = length array → getByteFrequencyData a array = bins a.
Proof.
  intros H. unfold getByteFrequencyData.
  rewrite <- H, firstn_all. rewrite H, drop_all. apply app_nil_r.
Qed.

Lemma getByteFrequencyData_prefix a array :
  (length array ≤ length (bins a))%nat →
  getByteFrequencyData a array = take (length array) (bins a).
Proof.
  intros H. unfold getByteFrequencyData.
  rewrite drop_ge by exact H. apply app_nil_r.
Qed.

(** C9: on each metrics frame the output level is the mean of the 32
    output bins over 255; if it exceeds 0.05 the visualization data is
    the output analyser's snapshot (all 256 bins), otherwise it is the
    input analyser's, and all zero if that one does not exist.  An output
    level of 0.10 selects the output source, whatever the input level. *)
Theorem active_source_selection (r : Refs) (arrays : Arrays) :
  let frame := render r arrays in
  let data := visualizerDataArray (fst frame) in
  let out := outputVol (snd frame) in
  (∀ a, outputAnalyserRef r = Some a →
     length (outputDataArray arrays) = 32%nat →
     (32 ≤ length (bins a))%nat →
     out = (inject_Z (sumBytes (take 32 (bins a))) / inject_Z 32 / 255)%Q)
  ∧ (outputAnalyserRef r = None → out = 0%Q)
  ∧ ((5 # 100 < out)%Q →
       ∃ a, outputAnalyserRef r = Some a
         ∧ data = getByteFrequencyData a (visualizerDataArray arrays)
         ∧ (length (bins a) = length (visualizerDataArray arrays) →
            data = bins a))
  ∧ (¬ (5 # 100 < out)%Q →
       match inputAnalyserRef r with
       | Some a =>
           data = getByteFrequencyData a (visualizerDataArray arrays)
           ∧ (length (bins a) = length (visualizerDataArray arrays) →
              data = bins a)
       | None => data = replicate (length (visualizerDataArray arrays)) 0
       end)
  ∧ isOutput (10 # 100) = true
  ∧ activeAnalyser (10 # 100) r = outputAnalyserRef r.
Proof.
  cbn zeta. unfold render. cbn [fst snd visualizerDataArray outputVol].
  split; [|split; [|split; [|split; [|split]]]].
  - intros a Ha Hlen Hbins. rewrite Ha. unfold level.
    rewrite getByteFrequencyData_prefix by lia.
    rewrite Hlen, length_take, Nat.min_l by lia. reflexivity.
  - intros ->. reflexivity.
  - intros Hout. apply isOutput_true in Hout. unfold activeAnalyser.
    rewrite Hout.
    destruct (outputAnalyserRef r) as [a|]; [|discriminate].
    exists a. split; [reflexivity|]. split; [reflexivity|].
    apply getByteFrequencyData_full.
  - intros Hout. unfold activeAnalyser.
    destruct (isOutput _) eqn:E; [apply isOutput_true in E; contradiction|].
    destruct (inputAnalyserRef r) as [a|].
    + split; [reflexivity|]. apply getByteFrequencyData_full.
    + apply const_fmap. reflexivity.
  - reflexivity.
  - reflexivity.
Qed.

Lemma active_source_selection_witness :
  (outputVol (snd (render speaking newArrays)) == 10 # 100)%Q
  ∧ (inputVol (snd (render speaking newArrays)) == 163 # 8160)%Q
  ∧ (5 # 100 < outputVol (snd (render speaking newArrays)))%Q
  ∧ visualizerDataArray (fst (render speaking newArrays))
    = replicate 16 26 ++ replicate 240 25.
Proof.
  split; [reflexivity|]. split; [reflexivity|].
  assert (H : (5 # 100 < outputVol (snd (render speaking newArrays)))%Q)
    by reflexivity.
  split; [exact H|].
  destruct (active_source_selection speaking newArrays)
    as (_ & _ & Hsel & _).
  destruct (Hsel H) as (a & Ha & _ & Hfull).
  injection Ha as <-. apply Hfull. reflexivity.
Defined.

(** ** PCM codec *)

Import Codec.

Lemma Qtrunc_close q : (Qabs (inject_Z (Qtrunc q) - q) < 1)%Q.
Proof.
  apply Qabs_Qlt_condition.
  destruct q as [a b]. unfold Qtrunc. cbn [Qnum Qden].
  pose proof (Z.quot_rem' a (Z.pos b)) as E.
  assert (Hr : Z.abs (Z.rem a (Z.pos b)) < Z.pos b).
  { pose proof (Z.rem_bound_abs a (Z.pos b)). lia. }
  set (n := Z.quot a (Z.pos b)) in *. set (r := Z.rem a (Z.pos b)) in *.
  unfold Qlt, Qminus, Qplus, Qopp, inject_Z. cbn [Qnum Qden].
  split; nia.
Qed.

Lemma clamp_in_range x : in_range x → clamp x = x.
Proof.
  intros [Hlo Hhi]. unfold clamp.
  destruct (Qltb x (-1)) eqn:E1; [apply Qltb_true in E1; lra|].
  destruct (Qltb 1 x) eqn:E2; [apply Qltb_true in E2; lra|].
  reflexivity.
Qed.

(** A scaled in-range sample truncates into the signed 16-bit range. *)
Lemma scaled_fits x :
  in_range x → -32767 <= Qtrunc (x * inject_Z int16_scale) <= 32767.
Proof.
  intros [Hlo Hhi]. pose proof (Qtrunc_close (x * inject_Z int16_scale)) as Hc.
  apply Qabs_Qlt_condition in Hc. destruct Hc as [Hc1 Hc2].
  set (n := Qtrunc (x * inject_Z int16_scale)) in *.
  change (inject_Z int16_scale) with 32767%Q in *.
  assert (H1 : (inject_Z n < inject_Z 32768)%Q)
    by (change (inject_Z 32768) with 32768%Q; lra).
  assert (H2 : (inject_Z (-32768) < inject_Z n)%Q)
    by (change (inject_Z (-32768)) with (-32768)%Q; lra).
  rewrite <- Zlt_Qlt in H1, H2. lia.
Qed.

Lemma toInt16_fits v : -32768 <= Qtrunc v <= 32767 → toInt16 v = Qtrunc v.
Proof.
  intros H. unfold toInt16.
  destruct (Z.leb_spec 32768 (Qtrunc v mod 65536)) as [Hge|Hlt].
  - assert (Qtrunc v < 0) by (destruct (Z.lt_ge_cases (Qtrunc v) 0); [assumption|];
      rewrite Z.mod_small in Hge by lia; lia).
    replace (Qtrunc v) with (Qtrunc v + 65536 - 1 * 65536) at 1 by lia.
    rewrite Zminus_mod, Z_mod_mult, Z.sub_0_r, Z.mod_mod by lia.
    rewrite Z.mod_small by lia. lia.
  - destruct (Z.lt_ge_cases (Qtrunc v) 0) as [Hneg|Hpos].
    + exfalso. revert Hlt.
      replace (Qtrunc v) with (Qtrunc v + 65536 - 1 * 65536) by lia.
      rewrite Zminus_mod, Z_mod_mult, Z.sub_0_r, Z.mod_mod by lia.
      rewrite Z.mod_small by lia. lia.
    + apply Z.mod_small. lia.
Qed.

Lemma int16_bytes_roundtrip n :
  -32768 <= n <= 32767 →
  ∃ lo hi, int16_bytes n = [lo; hi]
    ∧ 0 <= lo < 256 ∧ 0 <= hi < 256
    ∧ int16_of_bytes lo hi = n.
Proof.
  intros H. unfold int16_bytes, int16_of_bytes.
  set (u := n mod 65536).
  assert (Hu : 0 <= u < 65536) by (apply Z.mod_pos_bound; lia).
  exists (u mod 256), (u / 256). split; [reflexivity|].
  split; [apply Z.mod_pos_bound; lia|].
  split; [split; [apply Z.div_pos; lia | apply Z.div_lt_upper_bound; lia]|].
  assert (Hsplit : u mod 256 + 256 * (u / 256) = u)
    by (pose proof (Z.div_mod u 256); lia).
  rewrite Hsplit. subst u.
  destruct (Z.leb_spec 32768 (n mod 65536)) as [Hge|Hlt].
  - destruct (Z.lt_ge_cases n 0) as [Hneg|Hpos].
    + replace n with (n + 65536 - 1 * 65536) at 1 by lia.
      rewrite Zminus_mod, Z_mod_mult, Z.sub_0_r, Z.mod_mod by lia.
      rewrite Z.mod_small by lia. lia.
    + rewrite Z.mod_small in Hge by lia. lia.
  - destruct (Z.lt_ge_cases n 0) as [Hneg|Hpos].
    + exfalso. revert Hlt.
      replace n with (n + 65536 - 1 * 65536) by lia.
      rewrite Zminus_mod, Z_mod_mult, Z.sub_0_r, Z.mod_mod by lia.
      rewrite Z.mod_small by lia. lia.
    + apply Z.mod_small. lia.
Qed.

Lemma sample_close x :
  in_range x →
  (Qabs (Qmake (Qtrunc (x * inject_Z int16_scale)) 32767 - x) < quantum)%Q.
Proof.
  intros Hx. pose proof (Qtrunc_close (x * inject_Z int16_scale)) as Hc.
  apply Qabs_Qlt_condition in Hc. apply Qabs_Qlt_condition.
  set (n := Qtrunc (x * inject_Z int16_scale)) in *.
  change (inject_Z int16_scale) with 32767%Q in *.
  assert (E : (n # 32767 == inject_Z n * (1 # 32767))%Q).
  { unfold Qeq, Qmult, inject_Z. cbn [Qnum Qden]. lia. }
  unfold quantum. rewrite E. destruct Hc. split; lra.
Qed.

(** The bytes of a frame body and what they decode to. *)
Lemma body_roundtrip (frame : list Q) :
  Forall in_range frame →
  let bytes :=
    flat_map (λ x, int16_bytes (toInt16 (clamp x * inject_Z int16_scale)))
      frame in
  ∃ out, samples bytes = Some out
    ∧ Forall2 (λ x y, (Qabs (y - x) < quantum)%Q) frame out
    ∧ length bytes = (2 * length frame)%nat
    ∧ Forall (λ b, 0 <= b < 256) bytes.
Proof.
  induction 1 as [|x rest Hx Hrest IH]; cbn zeta.
  - exists []. repeat split; constructor.
  - cbn [flat_map]. rewrite (clamp_in_range x Hx).
    pose proof (scaled_fits x Hx) as Hfit.
    rewrite toInt16_fits by lia.
    assert (Hfit' : -32768 <= Qtrunc (x * inject_Z int16_scale) <= 32767)
      by lia.
    destruct (int16_bytes_roundtrip _ Hfit')
      as (lo & hi & Eb & Hlo & Hhi & Eback).
    rewrite Eb. destruct IH as (out & Es & Hclose & Hlen & Hbytes).
    eexists. cbn [app samples]. rewrite Es. split; [reflexivity|].
    split; [|split].
    + constructor; [|exact Hclose]. rewrite Eback. apply sample_close, Hx.
    + cbn [length]. rewrite Hlen. lia.
    + repeat (constructor; [assumption|]). exact Hbytes.
Qed.

(** C6: every non-empty frame of samples in [-1, 1] encodes to two
    bytes per sample, and decoding those bytes gives back a frame of the
    same length whose samples differ from the originals by less than one
    16-bit quantization step. *)
Theorem codec_roundtrip (frame : list Q) :
  frame ≠ [] →
  Forall in_range frame →
  ∃ bytes out, encode frame = Ok bytes
    ∧ decode bytes = Ok out
    ∧ Forall2 (λ x y, (Qabs (y - x) < quantum)%Q) frame out
    ∧ length bytes = (2 * length frame)%nat
    ∧ Forall (λ b, 0 <= b < 256) bytes.
Proof.
  intros Hne Hr. destruct (body_roundtrip frame Hr) as (out & Es & Hc & Hl & Hb).
  eexists. exists out. split.
  - unfold encode. destruct frame; [congruence|reflexivity].
  - unfold decode. rewrite Es. auto.
Qed.

Lemma codec_roundtrip_witness :
  ∃ bytes out, encode [1; -1; 1 # 3; 0]%Q = Ok bytes
    ∧ decode bytes = Ok out
    ∧ Forall2 (λ x y, (Qabs (y - x) < quantum)%Q) [1; -1; 1 # 3; 0]%Q out.
Proof.
  assert (Hne : [1; -1; 1 # 3; 0]%Q ≠ []) by discriminate.
  assert (Hr : Forall in_range [1; -1; 1 # 3; 0]%Q).
  { repeat constructor; vm_compute; discriminate. }
  destruct (codec_roundtrip _ Hne Hr) as (bytes & out & E & D & Hc & _).
  exists bytes, out. auto.
Defined.

(** * Further properties *)

Import Trace.

(** ** Delivery of waiting frames *)

Lemma send_open session (media : Chunk) p :
  sessions p !! session = Some true →
  catch (sendRealtimeInput session media p) (λ _, Ok p)
  = Ok (set_uplink (uplink p ++ [media]) p).
Proof. intros Hs. unfold sendRealtimeInput. rewrite Hs. reflexivity. Qed.

(** Sending a list of chunks through an open session appends them to
    the uplink and touches nothing else. *)
Lemma send_all_open session (chunks : list Chunk) :
  ∀ p, sessions p !! session = Some true →
    forEach chunks
      (λ media q, catch (sendRealtimeInput session media q) (λ _, Ok q)) p
    = Ok (set_uplink (uplink p ++ chunks) p).
Proof.
  induction chunks as [|c rest IH]; intros p Hs; cbn [forEach].
  - destruct p; cbn. rewrite app_nil_r. reflexivity.
  - rewrite send_open by exact Hs. cbn [mbind result_bind].
    rewrite IH by exact Hs. destruct p; cbn. rewrite <- app_assoc. reflexivity.
Qed.

(** What the completion of the handshake does to a pending promise. *)
Lemma session_resolved_pending promise waiting st :
  promises (platform st) !! promise = Some (Pending waiting) →
  session_resolved promise st
  = Ok (with_platform
          (λ p, set_uplink (uplink p ++ waiting)
                  (set_nextId (S (nextId p))
                     (set_sessions (<[nextId p := true]> (sessions p))
                        (set_promises
                           (<[promise := Fulfilled (nextId p)]> (promises p))
                           p))))
          st).
Proof.
  intros Hp. unfold session_resolved. rewrite Hp.
  rewrite send_all_open by (cbn; apply lookup_insert_eq).
  destruct st as [u r p]. reflexivity.
Qed.

Lemma session_resolved_settled promise st :
  (∀ waiting, promises (platform st) !! promise ≠ Some (Pending waiting)) →
  session_resolved promise st = Ok st.
Proof.
  intros Hp. unfold session_resolved.
  destruct (promises (platform st) !! promise) as [[w| |]|]; try reflexivity.
  exfalso. apply (Hp w). reflexivity.
Qed.

(** ** What every reachable state satisfies *)

Ltac open_consistent :=
  unfold consistent, tracked_started, refs_live, times_nonneg,
    starts_nonneg, ids_fresh in *;
  cbn [refs platform ui sourcesRef sessionPromiseRef inputContextRef
       outputContextRef streamRef inputAnalyserRef outputAnalyserRef
       animationFrameRef nextStartTimeRef contexts sources streams
       pendingFrame promises sessions uplink processors nextId
       with_refs with_platform with_ui set_nextStartTime set_sourcesRef
       set_sessionPromiseRef set_inputContextRef set_outputContextRef
       set_streamRef set_animationFrameRef set_inputAnalyserRef
       set_outputAnalyserRef set_streams set_pendingFrame set_processors
       set_contexts set_sources set_promises set_sessions set_uplink
       set_nextId] in *.

(** The invariants only read the live set, the two context refs, the
    stream ref, the cursor and the stores; identities may have been
    used up. *)
Lemma consistent_frame st st' :
  sourcesRef (refs st') = sourcesRef (refs st) →
  inputContextRef (refs st') = inputContextRef (refs st) →
  outputContextRef (refs st') = outputContextRef (refs st) →
  streamRef (refs st') = streamRef (refs st) →
  nextStartTimeRef (refs st') = nextStartTimeRef (refs st) →
  contexts (platform st') = contexts (platform st) →
  sources (platform st') = sources (platform st) →
  streams (platform st') = streams (platform st) →
  (nextId (platform st) ≤ nextId (platform st'))%nat →
  (∀ k, is_Some (promises (platform st') !! k) →
        is_Some (promises (platform st) !! k)) →
  (∀ k, is_Some (sessions (platform st') !! k) →
        is_Some (sessions (platform st) !! k)) →
  consistent st → consistent st'.
Proof.
  intros Hl Hi Ho Hm Ht Hc Hs Hst Hn Hp Hss
    (H1 & (L1 & L2 & L3) & (T1 & T2) & H5 & (F1 & F2 & F3 & F4 & F5)).
  unfold consistent, tracked_started, refs_live, times_nonneg,
    starts_nonneg, ids_fresh in *.
  rewrite Hl, Hi, Ho, Hm, Ht, Hc, Hs, Hst.
  split; [exact H1|]. split; [exact (conj L1 (conj L2 L3))|].
  split; [exact (conj T1 T2)|]. split; [exact H5|].
  split; [intros k Hk; apply F1 in Hk; lia|].
  split; [intros k Hk; apply F2 in Hk; lia|].
  split; [intros k Hk; apply F3 in Hk; lia|].
  split; intros k Hk; [apply Hp, F4 in Hk | apply Hss, F5 in Hk]; lia.
Qed.

Lemma consistent_ext st st' :
  refs st' = refs st →
  contexts (platform st') = contexts (platform st) →
  sources (platform st') = sources (platform st) →
  streams (platform st') = streams (platform st) →
  nextId (platform st') = nextId (platform st) →
  (∀ k, is_Some (promises (platform st') !! k) →
        is_Some (promises (platform st) !! k)) →
  (∀ k, is_Some (sessions (platform st') !! k) →
        is_Some (sessions (platform st) !! k)) →
  consistent st → consistent st'.
Proof.
  intros Hr Hc Hs Hm Hn Hp Hss.
  apply consistent_frame; try assumption; try (rewrite Hr; reflexivity).
  rewrite Hn. reflexivity.
Qed.

Lemma mounted_consistent : consistent mounted.
Proof.
  unfold consistent, tracked_started, refs_live, times_nonneg,
    starts_nonneg, ids_fresh. cbn.
  repeat split; try discriminate; try reflexivity;
    try (intros k [x Hx]; rewrite lookup_empty in Hx; discriminate);
    try (intros c x Hx; rewrite lookup_empty in Hx; discriminate);
    try (intros id s t Hs; rewrite lookup_empty in Hs; discriminate).
Qed.

Lemma cleanup_consistent st st' :
  cleanup st = Ok st' → consistent st → consistent st'.
Proof.
  intros E (H1 & H2 & (H4 & H4') & H5 & H6).
  destruct st as [u r p]. unfold cleanup in E. cbn [refs platform ui] in E.
  destruct (stop_each_ok (sourcesRef r) (sources p)) as (srcs & Es & L).
  rewrite Es in E. cbn [mbind result_bind] in E. injection E as <-.
  open_consistent.
  assert (Hctx : ∀ c (m : gmap nat AudioContext) k x,
             context_close c m !! k = Some x →
             ∃ y, m !! k = Some y ∧ currentTime y = currentTime x).
  { intros c m k x. rewrite context_close_lookup.
    destruct (decide (k = c)); [|eauto].
    destruct (m !! k) as [y|]; [|discriminate]. intros [= <-]. eauto. }
  split; [|split; [|split; [|split]]].
  - intros id Hid. apply not_elem_of_empty in Hid. contradiction.
  - repeat split; discriminate.
  - split; [|exact H4']. intros c x Hx.
    assert (∃ y, contexts p !! c = Some y ∧ currentTime y = currentTime x)
      as (y & Hy & <-).
    { destruct (outputContextRef r), (inputContextRef r);
        repeat (apply Hctx in Hx; destruct Hx as (? & Hx & <-)); eauto. }
    eapply H4. exact Hy.
  - intros id s t Hs Hps. rewrite L in Hs.
    destruct (decide (id ∈ sourcesRef r)).
    + destruct (sources p !! id) as [s0|]; [|discriminate].
      injection Hs as <-. exfalso. eapply silenced_not_started. exact Hps.
    + eapply H5; eassumption.
  - destruct H6 as (F1 & F2 & F3 & F4 & F5).
    split; [|split; [|split; [|split]]]; try assumption.
    + intros k [x Hx]. apply F1.
      destruct (outputContextRef r), (inputContextRef r);
        repeat (apply Hctx in Hx; destruct Hx as (? & Hx & _)); eauto.
    + intros k [x Hx]. apply F2. rewrite L in Hx.
      destruct (decide (k ∈ sourcesRef r)); [|eauto].
      destruct (sources p !! k); [eauto|discriminate].
    + intros k [x Hx]. apply F3. destruct (streamRef r) as [m|]; [|eauto].
      unfold stream_stop in Hx. destruct (streams p !! m) eqn:Em; [|eauto].
      destruct (decide (k = m)) as [->|Hne]; [eauto|].
      rewrite lookup_insert_ne in Hx by congruence. eauto.
Qed.

Lemma message_consistent msg st o :
  onmessage_begin msg st = Ok o →
  consistent st →
  consistent match o with Done st' => st' | AwaitDecode _ _ st' => st' end.
Proof.
  intros E H. unfold onmessage_begin in E.
  destruct (interrupted msg).
  - destruct (stop_each_ok (sourcesRef (refs st)) (sources (platform st)))
      as (srcs & Es & L).
    rewrite Es in E. cbn [mbind result_bind] in E. injection E as <-.
    destruct H as (H1 & H2 & (H4 & H4') & H5 & (F1 & F2 & F3 & F4 & F5)).
    destruct st as [u r p]. open_consistent.
    split; [|split; [exact H2|split; [|split]]].
    + intros id Hid. apply not_elem_of_empty in Hid. contradiction.
    + split; [exact H4|]. apply Qle_refl.
    + intros id s t Hs Hps. rewrite L in Hs.
      destruct (decide (id ∈ sourcesRef r)).
      * destruct (sources p !! id) as [s0|]; [|discriminate].
        injection Hs as <-. exfalso. eapply silenced_not_started. exact Hps.
      * eapply H5; eassumption.
    + split; [exact F1|]. split; [|auto].
      intros k [x Hx]. apply F2. rewrite L in Hx.
      destruct (decide (k ∈ sourcesRef r)); [|eauto].
      destruct (sources p !! k); [eauto|discriminate].
  - destruct (inlineData msg) as [[|b bs]|]; try (injection E as <-; exact H).
    destruct (outputContextRef (refs st)) as [ctx|]; [|injection E as <-; exact H].
    destruct (contexts (platform st) !! ctx) as [c|] eqn:Ec;
      [|injection E as <-; exact H].
    injection E as <-.
    destruct (Qltb _ _); [|exact H].
    destruct H as (H1 & H2 & (H4 & H4') & H5 & H6).
    destruct st as [u r p]. open_consistent.
    repeat (split; [assumption|]). split; [|split; assumption].
    split; [exact H4|]. eapply H4. exact Ec.
Qed.

Lemma resume_consistent ctx buf st :
  (0 <= duration buf)%Q →
  consistent st → consistent (onmessage_resume ctx buf st).
Proof.
  intros Hd (H1 & H2 & (H4 & H4') & H5 & (F1 & F2 & F3 & F4 & F5)).
  destruct st as [u r p]. unfold onmessage_resume. open_consistent.
  split; [|split; [exact H2|split; [|split]]].
  - intros id Hid. destruct (decide (id = nextId p)) as [->|Hne].
    + rewrite lookup_insert_eq. eexists. split; [reflexivity|]. discriminate.
    + rewrite lookup_insert_ne by congruence. apply H1.
      apply elem_of_union in Hid. destruct Hid as [Hid|Hid]; [|exact Hid].
      apply elem_of_singleton in Hid. congruence.
  - split; [exact H4|]. lra.
  - intros id s t. destruct (decide (id = nextId p)) as [->|Hne].
    + rewrite lookup_insert_eq. intros [= <-]. cbn. intros [= <-]. exact H4'.
    + rewrite lookup_insert_ne by congruence. apply H5.
  - split; [intros k Hk; apply F1 in Hk; lia|].
    split; [|split; [intros k Hk; apply F3 in Hk; lia|
             split; [intros k Hk; apply F4 in Hk; lia|
                     intros k Hk; apply F5 in Hk; lia]]].
    intros k. destruct (decide (k = nextId p)) as [->|Hne]; [lia|].
    rewrite lookup_insert_ne by congruence. intros Hk. apply F2 in Hk. lia.
Qed.

Lemma ended_consistent source st :
  consistent st → consistent (on_ended source st).
Proof.
  intros (H1 & H2 & H4 & H5 & H6).
  destruct st as [u r p]. unfold on_ended. open_consistent.
  split; [|auto].
  intros id Hid. apply H1. apply elem_of_difference in Hid. apply Hid.
Qed.

Lemma tick_consistent dt st :
  (0 <= dt)%Q → consistent st → consistent (tick dt st).
Proof.
  intros Hd (H1 & (L1 & L2 & L3) & (H4 & H4') & H5 & (F1 & F2 & F3 & F4 & F5)).
  destruct st as [u r p]. unfold tick. open_consistent.
  assert (Hrun : ∀ c, (∃ x, contexts p !! c = Some x ∧ ctxState x = Running) →
    ∃ x, ((λ c0, match ctxState c0 with
                 | Running => {| ctxState := Running;
                                 currentTime := (currentTime c0 + dt)%Q |}
                 | Closed => c0
                 end) <$> contexts p) !! c = Some x ∧ ctxState x = Running).
  { intros c (x & Hx & Hr). rewrite lookup_fmap, Hx. cbn. rewrite Hr.
    eexists. split; reflexivity. }
  split; [exact H1|]. split; [|split; [|split; [exact H5|]]].
  - split; [|split; [|exact L3]]; intros c Hc; apply Hrun; auto.
  - split; [|exact H4']. intros c x. rewrite lookup_fmap.
    destruct (contexts p !! c) as [y|] eqn:Ey; [|discriminate].
    cbn. pose proof (H4 c y Ey). destruct (ctxState y); intros [= <-]; cbn; lra.
  - split; [|auto]. intros k. rewrite lookup_fmap.
    destruct (contexts p !! k) eqn:Ek; [|intros [? ?]; discriminate].
    intros _. apply F1. eauto.
Qed.

Lemma ui_consistent f st : consistent st → consistent (with_ui f st).
Proof. apply consistent_ext; auto. Qed.

(** A new context runs, reads 0 and is not yet referenced. *)
Lemma newAudioContext_consistent st :
  consistent st → consistent (newAudioContext st).
Proof.
  intros (H1 & (L1 & L2 & L3) & (H4 & H4') & H5 & (F1 & F2 & F3 & F4 & F5)).
  destruct st as [u r p]. unfold newAudioContext. open_consistent.
  assert (Hkeep : ∀ c, (∃ x, contexts p !! c = Some x ∧ ctxState x = Running) →
    ∃ x, <[nextId p := {| ctxState := Running; currentTime := 0%Q |}]>
           (contexts p) !! c = Some x ∧ ctxState x = Running).
  { intros c (x & Hx & Hr). destruct (decide (c = nextId p)) as [->|Hne].
    - rewrite lookup_insert_eq. eexists. split; reflexivity.
    - rewrite lookup_insert_ne by congruence. eauto. }
  split; [exact H1|]. split; [|split; [|split; [exact H5|]]].
  - split; [|split; [|exact L3]]; intros c Hc; apply Hkeep; auto.
  - split; [|exact H4']. intros c x.
    destruct (decide (c = nextId p)) as [->|Hne].
    + rewrite lookup_insert_eq. intros [= <-]. cbn. apply Qle_refl.
    + rewrite lookup_insert_ne by congruence. apply H4.
  - split; [|split; [|split; [|split]]].
    + intros k. destruct (decide (k = nextId p)) as [->|Hne]; [lia|].
      rewrite lookup_insert_ne by congruence. intros Hk. apply F1 in Hk. lia.
    + intros k Hk. apply F2 in Hk. lia.
    + intros k Hk. apply F3 in Hk. lia.
    + intros k Hk. apply F4 in Hk. lia.
    + intros k Hk. apply F5 in Hk. lia.
Qed.

Lemma newAudioContext_running st :
  contexts (platform (newAudioContext st)) !! nextId (platform st)
  = Some {| ctxState := Running; currentTime := 0%Q |}.
Proof. apply lookup_insert_eq. Qed.

(** Storing a running context in one of the two context refs. *)
Lemma store_input_consistent c st :
  (∃ x, contexts (platform st) !! c = Some x ∧ ctxState x = Running) →
  consistent st → consistent (with_refs (set_inputContextRef (Some c)) st).
Proof.
  intros Hc (H1 & (L1 & L2 & L3) & H4 & H5 & H6).
  destruct st as [u r p]. open_consistent.
  split; [exact H1|]. split; [|auto].
  split; [|split; [exact L2|exact L3]]. intros c' [= <-]. exact Hc.
Qed.

Lemma store_output_consistent c st :
  (∃ x, contexts (platform st) !! c = Some x ∧ ctxState x = Running) →
  consistent st → consistent (with_refs (set_outputContextRef (Some c)) st).
Proof.
  intros Hc (H1 & (L1 & L2 & L3) & H4 & H5 & H6).
  destruct st as [u r p]. open_consistent.
  split; [exact H1|]. split; [|auto].
  split; [exact L1|split; [|exact L3]]. intros c' [= <-]. exact Hc.
Qed.

(** [getUserMedia] resolved: the new stream is live and stored. *)
Lemma stream_stored_consistent st :
  consistent st →
  consistent
    (with_refs (set_streamRef (Some (nextId (platform st))))
       (with_platform
          (λ p, set_nextId (S (nextId (platform st)))
                  (set_streams (<[nextId (platform st) := true]> (streams p)) p))
          st)).
Proof.
  intros (H1 & (L1 & L2 & L3) & H4 & H5 & (F1 & F2 & F3 & F4 & F5)).
  destruct st as [u r p]. open_consistent.
  split; [exact H1|]. split; [|split; [exact H4|split; [exact H5|]]].
  - split; [exact L1|split; [exact L2|]]. intros m [= <-]. apply lookup_insert_eq.
  - split; [intros k Hk; apply F1 in Hk; lia|].
    split; [intros k Hk; apply F2 in Hk; lia|].
    split; [|split; [intros k Hk; apply F4 in Hk; lia|
                     intros k Hk; apply F5 in Hk; lia]].
    intros k. destruct (decide (k = nextId p)) as [->|Hne]; [lia|].
    rewrite lookup_insert_ne by congruence. intros Hk. apply F3 in Hk. lia.
Qed.

Lemma drawVisualizer_consistent st :
  consistent st → consistent (drawVisualizer st).
Proof.
  destruct st as [u r p]. apply consistent_frame; cbn; auto.
Qed.

Lemma initializeLocalAudio_consistent env st :
  consistent st → consistent (initializeLocalAudio env st).
Proof.
  intros H. unfold initializeLocalAudio. cbv zeta.
  destruct (micGranted env); [|apply ui_consistent, ui_consistent, H].
  pose proof (stream_stored_consistent st H) as H1.
  destruct (throwsAt env NewAudioContext);
    [apply ui_consistent, ui_consistent, H1|].
  match goal with |- context [with_refs (set_inputContextRef (Some ?c))
                                (newAudioContext ?s)] =>
    assert (H2 : consistent (with_refs (set_inputContextRef (Some c))
                               (newAudioContext s)))
  end.
  { apply store_input_consistent; [|apply newAudioContext_consistent, H1].
    eexists. split; [apply newAudioContext_running|reflexivity]. }
  destruct (throwsAt env CreateAnalyser);
    [apply ui_consistent, ui_consistent, H2|].
  match goal with |- context [with_refs (set_inputAnalyserRef ?a) ?s] =>
    assert (H3 : consistent (with_refs (set_inputAnalyserRef a) s))
  end.
  { revert H2. apply consistent_frame; auto. }
  destruct (throwsAt env CreateMediaStreamSource);
    [apply ui_consistent, ui_consistent, H3|].
  apply drawVisualizer_consistent, ui_consistent, H3.
Qed.

Lemma openSession_consistent outputCtx st :
  (∃ x, contexts (platform st) !! outputCtx = Some x ∧ ctxState x = Running) →
  consistent st → consistent (openSession outputCtx st).
Proof.
  intros Hrun H. unfold openSession. cbv zeta.
  pose proof (store_output_consistent outputCtx st Hrun H) as H2.
  revert H2. generalize st. intros st1.
  intros (H1' & (L1 & L2 & L3) & (H4 & H4') & H5 & (F1 & F2 & F3 & F4 & F5)).
  destruct st1 as [u r p]. open_consistent.
  split; [exact H1'|]. split; [exact (conj L1 (conj L2 L3))|].
  split; [split; [exact H4|apply Qle_refl]|]. split; [exact H5|].
  split; [intros k Hk; apply F1 in Hk; lia|].
  split; [intros k Hk; apply F2 in Hk; lia|].
  split; [intros k Hk; apply F3 in Hk; lia|].
  split; [|intros k Hk; apply F5 in Hk; lia].
  intros k. destruct (decide (k = nextId p)) as [->|Hne]; [lia|].
  rewrite lookup_insert_ne by congruence. intros Hk. apply F4 in Hk. lia.
Qed.

Lemma establish_consistent st :
  consistent st → consistent (establish st).
Proof.
  intros H. apply openSession_consistent.
  - eexists. split; [apply newAudioContext_running|reflexivity].
  - apply newAudioContext_consistent, H.
Qed.

Lemma handshakeFailed_consistent st :
  consistent st → consistent (handshakeFailed st).
Proof. intros H. apply ui_consistent, ui_consistent, H. Qed.

Lemma toggleConnection_consistent env st st' :
  toggleConnection env st = Ok st' → consistent st → consistent st'.
Proof.
  unfold toggleConnection. intros E H.
  destruct (connected (ui st)); [eapply cleanup_consistent; eassumption|].
  destruct (apiKey env); cbn [negb] in E.
  2:{ injection E as <-. apply ui_consistent, ui_consistent, ui_consistent, H. }
  set (st1 := with_ui (setSignalQuality SEARCHING) st) in *.
  assert (H1 : consistent st1) by apply ui_consistent, H.
  set (st2 := match inputContextRef (refs st1) with
              | Some _ => st1
              | None => initializeLocalAudio env st1
              end) in *.
  assert (H2 : consistent st2).
  { subst st2. destruct (inputContextRef (refs st1));
      [exact H1|apply initializeLocalAudio_consistent, H1]. }
  destruct (inputContextRef (refs st2)) eqn:Ein.
  - destruct (resumeRejects env).
    + eapply cleanup_consistent; [exact E|]. apply handshakeFailed_consistent.
      destruct (rejectedResume env);
        [exact H2|apply newAudioContext_consistent, H2].
    + injection E as <-. apply establish_consistent, H2.
  - injection E as <-. apply ui_consistent, H2.
Qed.

Lemma toggleConnection_begin_consistent hasKey st p :
  toggleConnection_begin hasKey st = Ok p →
  consistent st → consistent (paused p).
Proof.
  unfold toggleConnection_begin. intros E H.
  destruct (connected (ui st)).
  - destruct (cleanup st) as [st1|] eqn:E1; [|discriminate].
    injection E as <-. eapply cleanup_consistent; eassumption.
  - destruct (negb hasKey).
    + injection E as <-. apply ui_consistent, ui_consistent, ui_consistent, H.
    + cbn [with_ui refs] in E.
      destruct (inputContextRef (refs st)); injection E as <-;
        apply ui_consistent, H.
Qed.

Lemma toggleConnection_microphone_consistent env st :
  consistent st → consistent (paused (toggleConnection_microphone env st)).
Proof.
  intros H. unfold toggleConnection_microphone. cbv zeta.
  pose proof (initializeLocalAudio_consistent env st H) as H1.
  destruct (inputContextRef (refs (initializeLocalAudio env st)));
    [exact H1|apply ui_consistent, H1].
Qed.

Lemma toggleConnection_inputResumed_consistent resolved st p :
  toggleConnection_inputResumed resolved st = Ok p →
  consistent st → consistent (paused p).
Proof.
  unfold toggleConnection_inputResumed. intros E H. destruct resolved.
  - injection E as <-. apply newAudioContext_consistent, H.
  - destruct (cleanup _) as [st1|] eqn:E1; [|discriminate].
    injection E as <-. eapply cleanup_consistent; [exact E1|].
    apply handshakeFailed_consistent, H.
Qed.

Lemma toggleConnection_outputResumed_consistent outputCtx resolved st st' :
  (∃ x, contexts (platform st) !! outputCtx = Some x ∧ ctxState x = Running) →
  toggleConnection_outputResumed outputCtx resolved st = Ok st' →
  consistent st → consistent st'.
Proof.
  unfold toggleConnection_outputResumed. intros Hrun E H. destruct resolved.
  - injection E as <-. apply openSession_consistent; assumption.
  - eapply cleanup_consistent; [exact E|]. apply handshakeFailed_consistent, H.
Qed.

Lemma onopen_consistent inputCtx st :
  consistent st → consistent (after (onopen inputCtx st)).
Proof.
  intros H. unfold onopen. cbv zeta.
  cbn [with_ui refs].
  destruct (streamRef (refs st)); cbn [after];
    [|apply ui_consistent, ui_consistent, H].
  revert H. destruct st as [u r p]. apply consistent_ext; cbn; auto.
Qed.

Lemma is_Some_insert_existing {V} (m : gmap nat V) i v k :
  is_Some (m !! i) → is_Some (<[i := v]> m !! k) → is_Some (m !! k).
Proof.
  intros Hi. destruct (decide (k = i)) as [->|Hne]; [auto|].
  rewrite lookup_insert_ne by congruence. auto.
Qed.

Lemma onaudioprocess_consistent (createPcmBlob : list Q → Chunk) frame st st' :
  onaudioprocess createPcmBlob frame st = Ok st' →
  consistent st → consistent st'.
Proof.
  unfold onaudioprocess, then_send, sendRealtimeInput. intros E.
  destruct (sessionPromiseRef (refs st)) as [promise|]; [|injection E as <-; auto].
  destruct (promises (platform st) !! promise) as [[w|s|]|] eqn:Ep;
    cbn [mbind result_bind catch] in E.
  - injection E as <-. destruct st as [u r p].
    apply consistent_ext; cbn; auto.
    intros k. apply is_Some_insert_existing. cbn in Ep. rewrite Ep. eauto.
  - destruct (sessions (platform st) !! s) as [[|]|];
      cbn [mbind result_bind catch] in E; injection E as <-;
      destruct st as [u r p]; apply consistent_ext; cbn; auto.
  - injection E as <-. destruct st as [u r p]. apply consistent_ext; cbn; auto.
  - injection E as <-. destruct st as [u r p]. apply consistent_ext; cbn; auto.
Qed.

Lemma session_resolved_consistent promise st st' :
  session_resolved promise st = Ok st' → consistent st → consistent st'.
Proof.
  intros E H.
  destruct (promises (platform st) !! promise) as [[w|s|]|] eqn:Ep.
  2,3,4: rewrite (session_resolved_settled promise st) in E
           by (intros w'; rewrite Ep; discriminate);
         injection E as <-; exact H.
  rewrite (session_resolved_pending _ _ _ Ep) in E. injection E as <-.
  destruct H as (H1 & H2 & H4 & H5 & (F1 & F2 & F3 & F4 & F5)).
  destruct st as [u r p]. open_consistent.
  repeat (split; [assumption|]).
  split; [intros k Hk; apply F1 in Hk; lia|].
  split; [intros k Hk; apply F2 in Hk; lia|].
  split; [intros k Hk; apply F3 in Hk; lia|].
  split.
  - intros k Hk. eapply is_Some_insert_existing in Hk; [|rewrite Ep; eauto].
    apply F4 in Hk. lia.
  - intros k. destruct (decide (k = nextId p)) as [->|Hne]; [lia|].
    rewrite lookup_insert_ne by congruence. intros Hk. apply F5 in Hk. lia.
Qed.

Lemma session_rejected_consistent promise st :
  consistent st → consistent (session_rejected promise st).
Proof.
  unfold session_rejected.
  destruct (promises (platform st) !! promise) as [[w|s|]|] eqn:Ep; auto.
  destruct st as [u r p]. apply consistent_ext; cbn; auto.
  intros k. apply is_Some_insert_existing. cbn in Ep. rewrite Ep. eauto.
Qed.

(** [toggleConnection] lets no exception out: whatever is thrown inside
    its [try] is caught, and [cleanup] does not throw. *)
Lemma toggleConnection_returns env st :
  ∃ st', toggleConnection env st = Ok st'.
Proof.
  unfold toggleConnection.
  destruct (connected (ui st));
    [destruct (cleanup_releases st) as (st' & E & _); eauto|].
  destruct (negb (apiKey env)); [eauto|].
  match goal with |- context [match inputContextRef (refs ?s) with
                              | Some _ => _ | None => _ end] =>
    destruct (inputContextRef (refs s)); [|eauto]
  end.
  destruct (resumeRejects env); [|eauto].
  match goal with |- ∃ st', cleanup ?c = Ok st' =>
    destruct (cleanup_releases c) as (st' & E & _); eauto
  end.
Qed.

Section Reachable.

Variable createPcmBlob : list Q → Chunk.

Lemma step_consistent e st st' :
  plausible e → step createPcmBlob e st = Ok st' →
  consistent st → consistent st'.
Proof.
  destruct e; cbn [step plausible]; intros Hp E H;
    try (injection E as <-).
  - eapply toggleConnection_consistent; eassumption.
  - destruct (toggleConnection_begin hasKey st) as [p|] eqn:Ep; [|discriminate].
    injection E as <-. eapply toggleConnection_begin_consistent; eassumption.
  - apply toggleConnection_microphone_consistent, H.
  - destruct (toggleConnection_inputResumed resolved st) as [p|] eqn:Ep;
      [|discriminate].
    injection E as <-.
    eapply toggleConnection_inputResumed_consistent; eassumption.
  - destruct (contexts (platform st) !! outputCtx) as [[[] t]|] eqn:Ec;
      try (injection E as <-; exact H).
    eapply toggleConnection_outputResumed_consistent; [|exact E|exact H].
    eexists. split; [exact Ec|reflexivity].
  - eapply cleanup_consistent; eassumption.
  - apply onopen_consistent, H.
  - apply ui_consistent, ui_consistent, H.
  - apply ui_consistent, ui_consistent, H.
  - destruct (onmessage_begin msg st) as [o|] eqn:Eo; [|discriminate].
    pose proof (message_consistent _ _ _ Eo H) as Ho.
    cbn [mbind result_bind] in E. destruct o; injection E as <-; exact Ho.
  - apply resume_consistent; assumption.
  - exact H.
  - apply ended_consistent, H.
  - apply tick_consistent; assumption.
  - destruct (capturing st); [|injection E as <-; exact H].
    eapply onaudioprocess_consistent; eassumption.
  - eapply session_resolved_consistent; eassumption.
  - apply session_rejected_consistent, H.
  - destruct (sessions (platform st) !! session) eqn:Es; injection E as <-; [|exact H].
    revert H. destruct st as [u r p]. apply consistent_ext; cbn; auto.
    intros k. apply is_Some_insert_existing. cbn in Es. rewrite Es. eauto.
Qed.

(** Every event leaves a state. *)
Lemma step_total e st : ∃ st', step createPcmBlob e st = Ok st'.
Proof.
  destruct e; cbn [step]; eauto.
  - apply toggleConnection_returns.
  - unfold toggleConnection_begin. destruct (connected (ui st)).
    + destruct (cleanup_releases st) as (st' & E & _). rewrite E. cbn. eauto.
    + destruct (negb hasKey); [cbn; eauto|].
      cbn [with_ui refs]. destruct (inputContextRef (refs st)); cbn; eauto.
  - unfold toggleConnection_inputResumed. destruct resolved; [cbn; eauto|].
    destruct (cleanup_releases (handshakeFailed st)) as (st' & E & _).
    rewrite E. cbn. eauto.
  - destruct (contexts (platform st) !! outputCtx) as [[[] t]|]; eauto.
    unfold toggleConnection_outputResumed. destruct resolved; [eauto|].
    destruct (cleanup_releases (handshakeFailed st)) as (st' & E & _). eauto.
  - destruct (cleanup_releases st) as (st' & E & _); eauto.
  - unfold onmessage_begin. destruct (interrupted msg).
    + destruct (stop_each_ok (sourcesRef (refs st)) (sources (platform st)))
        as (srcs & Es & _).
      rewrite Es. cbn. eauto.
    + destruct (inlineData msg) as [[|b bs]|]; cbn; eauto.
      destruct (outputContextRef (refs st)); cbn; eauto.
      destruct (contexts (platform st) !! n); cbn; eauto.
  - destruct (capturing st); [|eauto].
    destruct (onaudioprocess_cases createPcmBlob inputData st) as (st' & E & _).
    eauto.
  - destruct (promises (platform st) !! promise) as [[w|s|]|] eqn:Ep.
    + rewrite (session_resolved_pending _ _ _ Ep). eauto.
    + rewrite (session_resolved_settled promise st)
        by (intros w'; rewrite Ep; discriminate).
      eauto.
    + rewrite (session_resolved_settled promise st)
        by (intros w'; rewrite Ep; discriminate).
      eauto.
    + rewrite (session_resolved_settled promise st)
        by (intros w'; rewrite Ep; discriminate).
      eauto.
  - destruct (sessions (platform st) !! session); eauto.
Qed.

(** Every plausible sequence of events runs to the end, and from a
    consistent state it ends in a consistent one. *)
Lemma run_consistent events :
  ∀ st, Forall plausible events → consistent st →
    ∃ st', run createPcmBlob events st = Ok st' ∧ consistent st'.
Proof.
  induction events as [|e rest IH]; intros st Hp H.
  - exists st. split; [reflexivity|exact H].
  - apply Forall_cons in Hp. destruct Hp as [He Hrest].
    destruct (step_total e st) as (st1 & E1).
    destruct (IH st1 Hrest (step_consistent e st st1 He E1 H)) as (st' & E' & H').
    exists st'. split; [|exact H'].
    unfold run in *. cbn [forEach]. rewrite E1. exact E'.
Qed.

End Reachable.

(** ** The schedule of a run of segments *)

(** A run of audio messages does what [schedule] computes: node
    [nextId + i] starts at the [i]-th start time, the cursor ends at the
    final one, the new nodes join the live set and hold their buffers. *)
Lemma enqueue_all_schedule arrivals :
  ∀ st c,
    Forall (λ a, payload a ≠ []) arrivals →
    clockRunsAt st c →
    ∃ st', enqueue_all arrivals st = Ok st'
      ∧ (∀ i a, arrivals !! i = Some a →
           ∃ t s, fst (schedule (nextStartTimeRef (refs st)) c arrivals) !! i
                  = Some t
             ∧ sources (platform st') !! (nextId (platform st) + i)%nat = Some s
             ∧ buffer s = decoded a ∧ playState s = Started t)
      ∧ nextStartTimeRef (refs st')
        = snd (schedule (nextStartTimeRef (refs st)) c arrivals)
      ∧ sourcesRef (refs st')
        = list_to_set (seq (nextId (platform st)) (length arrivals))
          ∪ sourcesRef (refs st)
      ∧ nextId (platform st')
        = (nextId (platform st) + length arrivals)%nat
      ∧ (∀ j, (j < nextId (platform st))%nat →
           sources (platform st') !! j = sources (platform st) !! j).
Proof.
  induction arrivals as [|a rest IH]; intros st c Hp Hrun.
  - exists st. cbn. split; [reflexivity|]. split.
    { intros i a Hi. rewrite lookup_nil in Hi. discriminate. }
    split; [reflexivity|]. split; [|split; [lia|reflexivity]].
    apply set_eq. intros x. rewrite elem_of_union, elem_of_empty. tauto.
  - apply Forall_cons in Hp. destruct Hp as [Hpa Hp].
    destruct (tick_clockRunsAt (delay a) st c Hrun) as (ctx & Hr & Hc).
    destruct (enqueue_step (decoded a) (payload a) (tick (delay a) st) ctx _
                Hpa Hr Hc)
      as (st1 & E1 & Hn1 & Hl1 & Ho1 & Hcs1 & Hid1 & s1 & Hs1 & Hb1 & Hp1).
    cbn [currentTime] in Hn1, Hp1.
    change (nextStartTimeRef (refs (tick (delay a) st)))
      with (nextStartTimeRef (refs st)) in Hn1, Hp1.
    change (nextId (platform (tick (delay a) st)))
      with (nextId (platform st)) in Hl1, Hid1, Hs1.
    change (sourcesRef (refs (tick (delay a) st)))
      with (sourcesRef (refs st)) in Hl1.
    change (sources (platform (tick (delay a) st)))
      with (sources (platform st)) in Hs1.
    assert (Hrun1 : clockRunsAt st1 (c + delay a)%Q).
    { exists ctx. split; [exact Ho1|]. rewrite Hcs1. exact Hc. }
    destruct (IH st1 (c + delay a)%Q Hp Hrun1)
      as (st' & E' & Hstarts & Hend & Hlive & Hid & Hold).
    exists st'. split; [cbn [enqueue_all]; rewrite E1; exact E'|].
    cbn [schedule fst snd]. rewrite Hn1 in Hstarts, Hend.
    split; [|split; [exact Hend|split; [|split]]].
    + intros i x Hi. destruct i as [|i].
      * injection Hi as <-. eexists. exists s1. split; [reflexivity|].
        split; [|split; [exact Hb1|exact Hp1]].
        rewrite Nat.add_0_r, Hold by lia. rewrite Hs1. apply lookup_insert_eq.
      * destruct (Hstarts i x Hi) as (t & s & Ht & Hsrc & Hbs & Hps).
        exists t, s. split; [exact Ht|]. split; [|split; [exact Hbs|exact Hps]].
        rewrite Hid1 in Hsrc.
        replace (nextId (platform st) + S i)%nat
          with (S (nextId (platform st)) + i)%nat by lia.
        exact Hsrc.
    + rewrite Hlive, Hl1, Hid1. cbn [length seq list_to_set].
      apply set_eq. intros x. rewrite !elem_of_union. tauto.
    + rewrite Hid, Hid1. cbn [length]. lia.
    + intros j Hj. rewrite Hold by lia. rewrite Hs1.
      apply lookup_insert_ne. lia.
Qed.

Lemma delays_nil : Qsum (delays []) = 0%Q.
Proof. reflexivity. Qed.

Lemma delays_cons a rest :
  Qsum (delays (a :: rest)) = (delay a + Qsum (delays rest))%Q.
Proof. reflexivity. Qed.

(** Consecutive start times of [schedule]: the later one is the end of
    the earlier segment, raised to the clock of the later arrival. *)
Lemma schedule_consecutive arrivals :
  ∀ cursor c i a b,
    arrivals !! i = Some a → arrivals !! S i = Some b →
    ∃ t u now,
      fst (schedule cursor c arrivals) !! i = Some t
      ∧ fst (schedule cursor c arrivals) !! S i = Some u
      ∧ (now == arrivalClock c arrivals (S i))%Q
      ∧ u = if Qltb (t + duration (decoded a)) now
            then now else (t + duration (decoded a))%Q.
Proof.
  induction arrivals as [|x rest IH]; intros cursor c i a b Ha Hb.
  - rewrite lookup_nil in Ha. discriminate.
  - destruct i as [|i].
    + cbn in Ha. injection Ha as ->.
      destruct rest as [|y rest']; [discriminate|].
      cbn in Hb. injection Hb as ->. cbn [schedule fst snd].
      eexists. eexists. exists (c + delay a + delay b)%Q.
      split; [reflexivity|]. split; [reflexivity|]. split; [|reflexivity].
      unfold arrivalClock.
      change (take 2 (a :: b :: rest')) with [a; b].
      rewrite !delays_cons, delays_nil. ring.
    + cbn in Ha, Hb.
      destruct (IH ((if Qltb cursor (c + delay x)
                     then (c + delay x)%Q else cursor)
                    + duration (decoded x))%Q (c + delay x)%Q i a b Ha Hb)
        as (t & u & now & Ht & Hu & Hnow & Heq).
      exists t, u, now. cbn [schedule fst snd].
      split; [exact Ht|]. split; [exact Hu|]. split; [|exact Heq].
      rewrite Hnow. unfold arrivalClock.
      rewrite (firstn_cons (S (S i)) x rest), delays_cons. ring.
Qed.

Lemma startTime_lookup st id s t :
  sources (platform st) !! id = Some s →
  playState s = Started t →
  startTime id st = Some t.
Proof. unfold startTime. intros -> ->. reflexivity. Qed.

(** X1: in a run of audio messages with nothing else in between, a
    segment never starts before the previous one has ended, nor before
    the clock time of its own arrival, and it starts at exactly one of
    the two: there is a gap only when it arrived after the previous
    segment's end. *)
Theorem consecutive_segments (arrivals : list Arrival) (st : State) (c : Q)
    (i : nat) (a b : Arrival) :
  Forall (λ a, payload a ≠ []) arrivals →
  clockRunsAt st c →
  arrivals !! i = Some a →
  arrivals !! S i = Some b →
  ∃ st' t u, enqueue_all arrivals st = Ok st'
    ∧ startTime (nextId (platform st) + i) st' = Some t
    ∧ startTime (nextId (platform st) + S i) st' = Some u
    ∧ (t + duration (decoded a) <= u)%Q
    ∧ (arrivalClock c arrivals (S i) <= u)%Q
    ∧ ((u == t + duration (decoded a))%Q
       ∨ (u == arrivalClock c arrivals (S i))%Q).
Proof.
  intros Hp Hrun Ha Hb.
  destruct (enqueue_all_schedule arrivals st c Hp Hrun)
    as (st' & E & Hstarts & _).
  destruct (schedule_consecutive arrivals (nextStartTimeRef (refs st)) c i a b
              Ha Hb) as (t & u & now & Ht & Hu & Hnow & Heq).
  destruct (Hstarts i a Ha) as (t' & sa & Ht' & Hsa & _ & Hpa).
  destruct (Hstarts (S i) b Hb) as (u' & sb & Hu' & Hsb & _ & Hpb).
  rewrite Ht in Ht'. injection Ht' as <-.
  rewrite Hu in Hu'. injection Hu' as <-.
  exists st', t, u. split; [exact E|].
  split; [eapply startTime_lookup; eassumption|].
  split; [eapply startTime_lookup; eassumption|].
  rewrite <- Hnow. subst u.
  destruct (Qltb (t + duration (decoded a)) now) eqn:Hlt.
  - apply Qltb_true in Hlt. split; [lra|]. split; [lra|]. right. reflexivity.
  - apply Qltb_false in Hlt. split; [lra|]. split; [lra|]. left. reflexivity.
Qed.

Lemma consecutive_segments_witness :
  ∃ st' t u, enqueue_all three_segments active = Ok st'
    ∧ startTime 8 st' = Some t
    ∧ startTime 9 st' = Some u
    ∧ (t + (1 # 2) <= u)%Q.
Proof.
  assert (Hp : Forall (λ a, payload a ≠ []) three_segments).
  { repeat constructor; discriminate. }
  assert (Hrun : clockRunsAt active 0%Q).
  { exists 4%nat. split; reflexivity. }
  destruct (consecutive_segments three_segments active 0%Q 1 _ _ Hp Hrun
              eq_refl eq_refl) as (st' & t & u & E & Ht & Hu & Hle & _).
  exists st', t, u. auto.
Defined.

(** X2: every segment of a run is tracked.  After the run the live set
    is the one before plus one node per message, each node holding the
    buffer decoded for its message, and no other node was touched. *)
Theorem every_segment_is_tracked (arrivals : list Arrival) (st : State)
    (c : Q) :
  Forall (λ a, payload a ≠ []) arrivals →
  clockRunsAt st c →
  ∃ st', enqueue_all arrivals st = Ok st'
    ∧ sourcesRef (refs st')
      = list_to_set (seq (nextId (platform st)) (length arrivals))
        ∪ sourcesRef (refs st)
    ∧ (∀ i a, arrivals !! i = Some a →
         ∃ s, sources (platform st') !! (nextId (platform st) + i)%nat = Some s
           ∧ buffer s = decoded a)
    ∧ (∀ j, (j < nextId (platform st))%nat →
         sources (platform st') !! j = sources (platform st) !! j).
Proof.
  intros Hp Hrun.
  destruct (enqueue_all_schedule arrivals st c Hp Hrun)
    as (st' & E & Hstarts & _ & Hlive & _ & Hold).
  exists st'. split; [exact E|]. split; [exact Hlive|]. split; [|exact Hold].
  intros i a Ha. destruct (Hstarts i a Ha) as (t & s & _ & Hs & Hb & _).
  exists s. split; [exact Hs|exact Hb].
Qed.

Lemma every_segment_is_tracked_witness :
  ∃ st', enqueue_all three_segments active = Ok st'
    ∧ sourcesRef (refs st')
      = list_to_set [7; 8; 9]%nat ∪ sourcesRef (refs active).
Proof.
  assert (Hp : Forall (λ a, payload a ≠ []) three_segments).
  { repeat constructor; discriminate. }
  assert (Hrun : clockRunsAt active 0%Q).
  { exists 4%nat. split; reflexivity. }
  destruct (every_segment_is_tracked three_segments active 0%Q Hp Hrun)
    as (st' & E & Hlive & _).
  exists st'. split; [exact E|exact Hlive].
Defined.

(** X3: a message without the interrupted flag has no effect at all
    when there is no output context, or when it carries no audio or an
    empty payload. *)
Theorem message_without_effect (buf : AudioBuffer) (msg : LiveServerMessage)
    (st : State) :
  interrupted msg = false →
  outputContextRef (refs st) = None
  ∨ inlineData msg = None ∨ inlineData msg = Some [] →
  onmessage_begin msg st = Ok (Done st) ∧ onmessage buf msg st = Ok st.
Proof.
  intros Hi Hcase.
  assert (E : onmessage_begin msg st = Ok (Done st)).
  { unfold onmessage_begin. rewrite Hi.
    destruct Hcase as [Hc|[Hd|Hd]].
    - rewrite Hc. destruct (inlineData msg) as [[|b bs]|]; reflexivity.
    - rewrite Hd. reflexivity.
    - rewrite Hd. reflexivity. }
  split; [exact E|]. unfold onmessage. rewrite E. reflexivity.
Qed.

Lemma message_without_effect_witness :
  onmessage {| duration := 1%Q |} (audioMessage [0; 0]) mounted = Ok mounted
  ∧ onmessage {| duration := 1%Q |} (audioMessage []) active = Ok active.
Proof.
  split.
  - apply (message_without_effect _ (audioMessage [0; 0]) mounted eq_refl).
    left. reflexivity.
  - apply (message_without_effect _ (audioMessage []) active eq_refl).
    right. right. reflexivity.
Defined.

(** ** States reached from the mounted component *)

Lemma sample_trace_plausible : Forall plausible sample_trace.
Proof. repeat constructor; cbn; try exact I; vm_compute; discriminate. Qed.

Lemma plausible_take n events :
  Forall plausible events → Forall plausible (take n events).
Proof. apply Forall_take. Qed.

Lemma reached_consistent (createPcmBlob : list Q → Chunk) events st :
  Forall plausible events →
  run createPcmBlob events mounted = Ok st → consistent st.
Proof.
  intros Hp E.
  destruct (run_consistent createPcmBlob events mounted Hp mounted_consistent)
    as (st' & E' & H').
  rewrite E in E'. injection E' as <-. exact H'.
Qed.

(** X5: in every state reached from the mounted component each tracked
    node has been started, so [stop()] succeeds on it, and an
    interruption leaves every tracked node stopped. *)
Theorem tracked_nodes_stop (createPcmBlob : list Q → Chunk)
    (events : list Event) (st : State) (msg : LiveServerMessage) :
  Forall plausible events →
  run createPcmBlob events mounted = Ok st →
  interrupted msg = true →
  (∀ id, id ∈ sourcesRef (refs st) →
     ∃ srcs, source_stop id (sources (platform st)) = Ok srcs)
  ∧ ∃ st', onmessage_begin msg st = Ok (Done st')
      ∧ ∀ id, id ∈ sourcesRef (refs st) →
          ∃ s, sources (platform st') !! id = Some s
            ∧ playState s = Stopped.
Proof.
  intros Hp E Hi.
  destruct (reached_consistent _ _ _ Hp E) as (Ht & _).
  split.
  - intros id Hid. destruct (Ht id Hid) as (s & Hs & Hps).
    unfold source_stop. rewrite Hs.
    destruct (playState s) eqn:Eps; [exfalso; auto|eauto..].
  - destruct (interruption_flush msg st Hi) as (st' & E' & _ & _ & _ & _ & _ & L).
    exists st'. split; [exact E'|]. intros id Hid.
    destruct (Ht id Hid) as (s & Hs & Hps).
    rewrite L, decide_True, Hs by exact Hid. eexists. split; [reflexivity|].
    destruct s as [b []]; [exfalso; apply Hps; reflexivity|reflexivity..].
Qed.

Lemma tracked_nodes_stop_witness :
  ∃ st st', run pcmBlob (take 9 sample_trace) mounted = Ok st
    ∧ elements (sourcesRef (refs st)) = [8; 7]%nat
    ∧ onmessage_begin (interruption None) st = Ok (Done st')
    ∧ ∀ id, id ∈ sourcesRef (refs st) →
        ∃ s, sources (platform st') !! id = Some s ∧ playState s = Stopped.
Proof.
  eexists. 
  assert (E : run pcmBlob (take 9 sample_trace) mounted
              = Ok (settled (run pcmBlob (take 9 sample_trace) mounted)))
    by (vm_compute; reflexivity).
  destruct (tracked_nodes_stop pcmBlob (take 9 sample_trace) _ (interruption None)
              (plausible_take 9 _ sample_trace_plausible) E eq_refl)
    as (_ & st' & E' & Hs).
  exists st'. split; [exact E|]. split; [vm_compute; reflexivity|].
  split; [exact E'|exact Hs].
Defined.

(** X6: in every state reached from the mounted component a context
    ref points to a running context and the stream ref to a stream whose
    tracks are live; so the context whose clock an audio message reads,
    and which it keeps for the node it will create, is running when the
    message arrives. *)
Theorem refs_point_to_live_objects (createPcmBlob : list Q → Chunk)
    (events : list Event) (st : State) :
  Forall plausible events →
  run createPcmBlob events mounted = Ok st →
  (∀ c, inputContextRef (refs st) = Some c →
     ∃ x, contexts (platform st) !! c = Some x ∧ ctxState x = Running)
  ∧ (∀ c, outputContextRef (refs st) = Some c →
       ∃ x, contexts (platform st) !! c = Some x ∧ ctxState x = Running)
  ∧ (∀ m, streamRef (refs st) = Some m →
       streams (platform st) !! m = Some true)
  ∧ (∀ msg ctx bytes st1,
       onmessage_begin msg st = Ok (AwaitDecode ctx bytes st1) →
       ∃ x, contexts (platform st) !! ctx = Some x ∧ ctxState x = Running).
Proof.
  intros Hp E.
  destruct (reached_consistent _ _ _ Hp E) as (_ & (L1 & L2 & L3) & _).
  split; [exact L1|]. split; [exact L2|]. split; [exact L3|].
  intros msg ctx bytes st1. unfold onmessage_begin.
  destruct (interrupted msg).
  { destruct (stop_each _ _); discriminate. }
  destruct (inlineData msg) as [[|b bs]|]; try discriminate.
  destruct (outputContextRef (refs st)) as [c|] eqn:Ec; [|discriminate].
  destruct (contexts (platform st) !! c) as [x|] eqn:Ex; [|discriminate].
  intros [= <- _ _]. exact (L2 c eq_refl).
Qed.

Lemma refs_point_to_live_objects_witness :
  ∃ st, run pcmBlob (take 15 sample_trace) mounted = Ok st
    ∧ outputContextRef (refs st) = Some 9%nat
    ∧ ∃ x, contexts (platform st) !! 9%nat = Some x ∧ ctxState x = Running.
Proof.
  eexists.
  assert (E : run pcmBlob (take 15 sample_trace) mounted
              = Ok (settled (run pcmBlob (take 15 sample_trace) mounted)))
    by (vm_compute; reflexivity).
  destruct (refs_point_to_live_objects pcmBlob (take 15 sample_trace) _
              (plausible_take 15 _ sample_trace_plausible) E)
    as (_ & Hout & _).
  split; [exact E|]. split; [reflexivity|]. apply Hout. reflexivity.
Defined.

(** The refs [refs_in_order] reads. *)
Lemma refs_in_order_ext st st' :
  inputAnalyserRef (refs st') = inputAnalyserRef (refs st) →
  inputContextRef (refs st') = inputContextRef (refs st) →
  streamRef (refs st') = streamRef (refs st) →
  outputContextRef (refs st') = outputContextRef (refs st) →
  outputAnalyserRef (refs st') = outputAnalyserRef (refs st) →
  sessionPromiseRef (refs st') = sessionPromiseRef (refs st) →
  refs_in_order st → refs_in_order st'.
Proof.
  unfold refs_in_order. intros -> -> -> -> -> ->. exact id.
Qed.

Lemma cleanup_in_order st st' : cleanup st = Ok st' → refs_in_order st'.
Proof.
  intros E. destruct (cleanup_releases st) as (st2 & E2 & R & _).
  rewrite E in E2. injection E2 as <-.
  destruct R as (_ & _ & R3 & R4 & R5 & R6 & R7 & R8 & _).
  unfold refs_in_order. rewrite R3, R4, R5, R7, R8. tauto.
Qed.

Lemma initializeLocalAudio_in_order env st :
  refs_in_order st → refs_in_order (initializeLocalAudio env st).
Proof.
  unfold initializeLocalAudio. cbv zeta. destruct st as [u r p].
  unfold refs_in_order. cbn [refs]. intros (A & B & C & D).
  destruct (micGranted env); [|cbn; tauto].
  destruct (throwsAt env NewAudioContext).
  { cbn. repeat split; try tauto. discriminate. }
  destruct (throwsAt env CreateAnalyser);
    [|destruct (throwsAt env CreateMediaStreamSource)];
    cbn; repeat split; try tauto; discriminate.
Qed.

Lemma openSession_in_order outputCtx st :
  refs_in_order st → refs_in_order (openSession outputCtx st).
Proof.
  unfold openSession. cbv zeta. destruct st as [u r p].
  unfold refs_in_order. cbn. intros (A & B & C & D).
  repeat split; try tauto; discriminate.
Qed.

Lemma establish_in_order st : refs_in_order st → refs_in_order (establish st).
Proof. intros H. apply openSession_in_order. exact H. Qed.

Lemma toggleConnection_in_order env st st' :
  toggleConnection env st = Ok st' → refs_in_order st → refs_in_order st'.
Proof.
  unfold toggleConnection. intros E H.
  destruct (connected (ui st)); [eapply cleanup_in_order; exact E|].
  destruct (negb (apiKey env)); [injection E as <-; exact H|].
  set (st1 := with_ui (setSignalQuality SEARCHING) st) in *.
  set (st2 := match inputContextRef (refs st1) with
              | Some _ => st1
              | None => initializeLocalAudio env st1
              end) in *.
  assert (H2 : refs_in_order st2).
  { subst st2. destruct (inputContextRef (refs st1));
      [exact H|apply initializeLocalAudio_in_order, H]. }
  destruct (inputContextRef (refs st2)).
  - destruct (resumeRejects env); [eapply cleanup_in_order; exact E|].
    injection E as <-. apply establish_in_order, H2.
  - injection E as <-. exact H2.
Qed.

Lemma step_in_order (createPcmBlob : list Q → Chunk) e st st' :
  step createPcmBlob e st = Ok st' → refs_in_order st → refs_in_order st'.
Proof.
  destruct e; cbn [step]; intros E; try (injection E as <-); try exact id.
  - eapply toggleConnection_in_order; exact E.
  - unfold toggleConnection_begin in E. destruct (connected (ui st)).
    + destruct (cleanup st) as [st1|] eqn:E1; [|discriminate].
      injection E as <-. intros _. eapply cleanup_in_order; exact E1.
    + destruct (negb hasKey); [injection E as <-; exact id|].
      cbn [with_ui refs] in E.
      destruct (inputContextRef (refs st)); injection E as <-; exact id.
  - intros H. unfold toggleConnection_microphone. cbv zeta.
    pose proof (initializeLocalAudio_in_order env st H) as H1.
    destruct (inputContextRef (refs (initializeLocalAudio env st))); exact H1.
  - unfold toggleConnection_inputResumed in E. destruct resolved.
    + injection E as <-. exact id.
    + destruct (cleanup _) as [st1|] eqn:E1; [|discriminate].
      injection E as <-. intros _. eapply cleanup_in_order; exact E1.
  - destruct (contexts (platform st) !! outputCtx) as [[[] t]|];
      try (injection E as <-; exact id).
    unfold toggleConnection_outputResumed in E. destruct resolved.
    + injection E as <-. apply openSession_in_order.
    + intros _. eapply cleanup_in_order; exact E.
  - intros _. eapply cleanup_in_order; exact E.
  - unfold onopen. cbv zeta. cbn [with_ui refs].
    destruct (streamRef (refs st)); exact id.
  - unfold onmessage_begin in E. destruct (interrupted msg).
    + destruct (stop_each _ _); [|discriminate]. injection E as <-. exact id.
    + destruct (inlineData msg) as [[|b bs]|]; try (injection E as <-; exact id).
      destruct (outputContextRef (refs st)); [|injection E as <-; exact id].
      destruct (contexts (platform st) !! n); [|injection E as <-; exact id].
      injection E as <-. destruct (Qltb _ _); exact id.
  - destruct (capturing st); [|injection E as <-; exact id].
    destruct (onaudioprocess_cases createPcmBlob inputData st)
      as (st2 & E2 & _ & Hr & _).
    rewrite E in E2. injection E2 as <-.
    unfold refs_in_order. rewrite Hr. exact id.
  - unfold session_resolved in E.
    destruct (promises (platform st) !! promise) as [[w|s|]|];
      try (injection E as <-; exact id).
    destruct (forEach _ _ _); [|discriminate]. injection E as <-. exact id.
  - unfold session_rejected.
    destruct (promises (platform st) !! promise) as [[w|s|]|]; exact id.
  - destruct (sessions (platform st) !! session); injection E as <-; exact id.
Qed.

Lemma run_in_order (createPcmBlob : list Q → Chunk) events :
  ∀ st st', run createPcmBlob events st = Ok st' →
    refs_in_order st → refs_in_order st'.
Proof.
  induction events as [|e rest IH]; intros st st' E H.
  - injection E as <-. exact H.
  - unfold run in E. cbn [forEach] in E.
    destruct (step createPcmBlob e st) as [st1|] eqn:E1; [|discriminate].
    cbn [mbind result_bind] in E.
    eapply IH; [exact E|]. eapply step_in_order; eassumption.
Qed.

(** X7: in every state reached from the mounted component the refs are
    set in the order the objects are made: an input analyser only with
    an input context, an input context only with a stream, the output
    analyser exactly with the output context, and a session promise only
    with an output context.  The converse fails on the capture side:
    when the input context cannot be made once the microphone was
    granted, the stream ref stays set, its track live, with no input
    context. *)
Theorem refs_set_in_order (createPcmBlob : list Q → Chunk)
    (events : list Event) (st : State) :
  run createPcmBlob events mounted = Ok st →
  ((inputAnalyserRef (refs st) ≠ None → inputContextRef (refs st) ≠ None)
   ∧ (inputContextRef (refs st) ≠ None → streamRef (refs st) ≠ None)
   ∧ (outputContextRef (refs st) = None ↔ outputAnalyserRef (refs st) = None)
   ∧ (sessionPromiseRef (refs st) ≠ None → outputContextRef (refs st) ≠ None))
  ∧ ∃ st1, run createPcmBlob [Press no_input_context] mounted = Ok st1
      ∧ streamRef (refs st1) = Some 1%nat
      ∧ streams (platform st1) !! 1%nat = Some true
      ∧ inputContextRef (refs st1) = None.
Proof.
  intros E. split.
  - apply (run_in_order createPcmBlob events mounted st E).
    unfold refs_in_order. cbn. tauto.
  - eexists. split; [reflexivity|]. split; [reflexivity|].
    split; reflexivity.
Qed.

Lemma refs_set_in_order_witness :
  ∃ st, run pcmBlob sample_trace mounted = Ok st
    ∧ (sessionPromiseRef (refs st) ≠ None → outputContextRef (refs st) ≠ None).
Proof.
  eexists.
  assert (E : run pcmBlob sample_trace mounted
              = Ok (settled (run pcmBlob sample_trace mounted)))
    by (vm_compute; reflexivity).
  destruct (refs_set_in_order pcmBlob sample_trace _ E)
    as ((_ & _ & _ & H) & _).
  split; [exact E|exact H].
Defined.

(** X8: as long as the clock does not run backwards and no decoded
    buffer has a negative duration, the cursor is never negative and no
    node is ever started at a negative time. *)
Theorem start_times_nonnegative (createPcmBlob : list Q → Chunk)
    (events : list Event) (st : State) :
  Forall plausible events →
  run createPcmBlob events mounted = Ok st →
  (0 <= nextStartTimeRef (refs st))%Q
  ∧ ∀ id t, startTime id st = Some t → (0 <= t)%Q.
Proof.
  intros Hp E.
  destruct (reached_consistent _ _ _ Hp E) as (_ & _ & (_ & Hc) & Hs & _).
  split; [exact Hc|]. intros id t. unfold startTime.
  destruct (sources (platform st) !! id) as [s|] eqn:Es; [|discriminate].
  destruct (playState s) eqn:Eps; try discriminate.
  intros [= <-]. eapply Hs; eassumption.
Qed.

Lemma start_times_nonnegative_witness :
  ∃ st, run pcmBlob (take 9 sample_trace) mounted = Ok st
    ∧ (0 <= nextStartTimeRef (refs st))%Q.
Proof.
  eexists.
  assert (E : run pcmBlob (take 9 sample_trace) mounted
              = Ok (settled (run pcmBlob (take 9 sample_trace) mounted)))
    by (vm_compute; reflexivity).
  destruct (start_times_nonnegative pcmBlob (take 9 sample_trace) _
              (plausible_take 9 _ sample_trace_plausible) E) as (H & _).
  split; [exact E|exact H].
Defined.

(** X9: a segment that plays to its end leaves the live set as it was
    before the segment was enqueued.  In every state reached from the
    mounted component, handling an audio message and then the ['ended']
    event of the node it created gives back the live set. *)
Theorem ended_restores_live_set (createPcmBlob : list Q → Chunk)
    (events : list Event) (st : State) (buf : AudioBuffer) (bytes : list Z) :
  Forall plausible events →
  run createPcmBlob events mounted = Ok st →
  ∃ st', onmessage buf (audioMessage bytes) st = Ok st'
    ∧ sourcesRef (refs (on_ended (nextId (platform st)) st'))
      = sourcesRef (refs st).
Proof.
  intros Hp E.
  destruct (reached_consistent _ _ _ Hp E) as (Ht & _ & _ & _ & (_ & F2 & _)).
  assert (Hfresh : nextId (platform st) ∉ sourcesRef (refs st)).
  { intros Hin. destruct (Ht _ Hin) as (s & Hs & _).
    assert (nextId (platform st) < nextId (platform st))%nat by (apply F2; eauto).
    lia. }
  unfold onmessage, onmessage_begin. cbn [interrupted inlineData audioMessage].
  assert (Hsame : sourcesRef (refs (on_ended (nextId (platform st)) st))
                  = sourcesRef (refs st)).
  { cbn. apply set_eq. intros x. rewrite elem_of_difference, elem_of_singleton.
    split; [tauto|]. intros Hx. split; [exact Hx|]. intros ->. contradiction. }
  destruct bytes as [|b bs]; [exists st; split; [reflexivity|exact Hsame]|].
  destruct (outputContextRef (refs st)) as [ctx|];
    [|exists st; split; [reflexivity|exact Hsame]].
  destruct (contexts (platform st) !! ctx) as [c|];
    [|exists st; split; [reflexivity|exact Hsame]].
  eexists. split; [reflexivity|].
  destruct (Qltb _ _); cbn; apply set_eq; intros x;
    rewrite elem_of_difference, elem_of_union, elem_of_singleton;
    (split; [tauto|]); intros Hx; (split; [tauto|]); intros ->; contradiction.
Qed.

Lemma ended_restores_live_set_witness :
  ∃ st st', run pcmBlob (take 9 sample_trace) mounted = Ok st
    ∧ onmessage {| duration := 1%Q |} (audioMessage [0; 0]) st = Ok st'
    ∧ sourcesRef (refs (on_ended 9 st')) = sourcesRef (refs st).
Proof.
  eexists.
  assert (E : run pcmBlob (take 9 sample_trace) mounted
              = Ok (settled (run pcmBlob (take 9 sample_trace) mounted)))
    by (vm_compute; reflexivity).
  destruct (ended_restores_live_set pcmBlob (take 9 sample_trace) _
              {| duration := 1%Q |} [0; 0]
              (plausible_take 9 _ sample_trace_plausible) E) as (st' & E' & H).
  exists st'. split; [exact E|]. split; [exact E'|exact H].
Defined.

(** ** A decode that completes late *)

(** X23: a decode that completes after an interruption or a teardown is
    still scheduled.  After an interruption its node starts at the reset
    cursor, 0, and is the only member of the live set.  After a teardown
    its node is made by the output context that the teardown closed,
    starts at the cursor the teardown left in place, and is again the
    only member of the live set. *)
Theorem late_decode_is_scheduled (msg : LiveServerMessage) (st : State)
    (ctx : nat) (x : AudioContext) (buf : AudioBuffer) :
  interrupted msg = true →
  outputContextRef (refs st) = Some ctx →
  contexts (platform st) !! ctx = Some x →
  (∃ st1, onmessage_begin msg st = Ok (Done st1)
     ∧ startTime (nextId (platform st)) (onmessage_resume ctx buf st1)
       = Some 0%Q
     ∧ sourcesRef (refs (onmessage_resume ctx buf st1))
       = {[nextId (platform st)]})
  ∧ (∃ st1, cleanup st = Ok st1
       ∧ (∃ s, sources (platform (onmessage_resume ctx buf st1))
               !! nextId (platform st) = Some s
            ∧ context s = ctx
            ∧ playState s = Started (nextStartTimeRef (refs st)))
       ∧ (∃ y, contexts (platform (onmessage_resume ctx buf st1)) !! ctx
               = Some y
            ∧ ctxState y = Closed)
       ∧ sourcesRef (refs (onmessage_resume ctx buf st1))
         = {[nextId (platform st)]}).
Proof.
  intros Hi Hctx Hx. split.
  - destruct (interruption_flush msg st Hi)
      as (st1 & E & Hl & Hn & _ & _ & Hid & _).
    exists st1. split; [exact E|]. split.
    + rewrite <- Hid, <- Hn. apply startTime_resume.
    + cbn [onmessage_resume with_refs refs set_sourcesRef sourcesRef].
      rewrite Hl, Hid. apply union_empty_r_L.
  - destruct (cleanup_releases st)
      as (st1 & E & (_ & Hl & _ & _ & _ & _ & _ & _ & _ & Hclosed & _) & Hn & _).
    assert (Hid : nextId (platform st1) = nextId (platform st)).
    { unfold cleanup in E.
      destruct (stop_each _ _); [|discriminate]. injection E as <-. reflexivity. }
    exists st1. split; [exact E|]. split; [|split].
    + destruct (resume_schedules ctx buf st1) as (s & Hs & _ & Hp & Hc).
      exists s. rewrite Hs, Hid, lookup_insert_eq, <- Hn.
      split; [reflexivity|]. split; [exact Hc|exact Hp].
    + assert (Hy : ∃ y, contexts (platform st1) !! ctx = Some y).
      { unfold cleanup in E.
        destruct (stop_each _ _); [|discriminate]. injection E as <-.
        cbn [platform contexts]. rewrite Hctx.
        destruct (inputContextRef (refs st)) as [i|];
          rewrite ?context_close_lookup;
          repeat (destruct (decide _));
          rewrite ?context_close_lookup;
          repeat (destruct (decide _));
          rewrite ?Hx; cbn; eauto. }
      destruct Hy as (y & Hy). exists y. split; [exact Hy|].
      eapply Hclosed; [right; exact Hctx|exact Hy].
    + cbn [onmessage_resume with_refs refs set_sourcesRef sourcesRef].
      rewrite Hl, Hid. apply union_empty_r_L.
Qed.

Lemma late_decode_is_scheduled_witness :
  ∃ st1, cleanup idle = Ok st1
    ∧ ∃ y, contexts (platform (onmessage_resume 4 {| duration := 1%Q |} st1))
           !! 4%nat = Some y
        ∧ ctxState y = Closed.
Proof.
  destruct (late_decode_is_scheduled (interruption None) idle 4
              {| ctxState := Running; currentTime := 5%Q |}
              {| duration := 1%Q |} eq_refl eq_refl eq_refl)
    as (_ & st1 & E & _ & Hy & _).
  exists st1. split; [exact E|exact Hy].
Defined.

(** ** A session that opens late *)

(** X24: a session that opens after a teardown finds no stream.  Its
    [onopen] marks the panel connected and then throws a [TypeError]
    before any script processor is wired: the refs stay null, nothing
    will be captured for that session, and the next press of the button
    runs the teardown again instead of connecting. *)
Theorem open_after_teardown (st st1 : State) (inputCtx : nat) (env : Env) :
  cleanup st = Ok st1 →
  ∃ st2, onopen inputCtx st1 = Throws TypeError st2
    ∧ connected (ui st2) = true
    ∧ refs st2 = refs st1
    ∧ streamRef (refs st2) = None
    ∧ sessionPromiseRef (refs st2) = None
    ∧ platform st2 = platform st1
    ∧ processors (platform st2) = processors (platform st)
    ∧ toggleConnection env st2 = cleanup st2.
Proof.
  intros E. destruct (cleanup_releases st) as (st' & E' & R & _).
  rewrite E in E'. injection E' as <-.
  destruct R as (_ & _ & R3 & _ & _ & R6 & _).
  unfold onopen. cbv zeta. cbn [with_ui refs]. rewrite R6.
  eexists. split; [reflexivity|]. split; [reflexivity|].
  split; [reflexivity|]. split; [exact R6|]. split; [exact R3|].
  split; [reflexivity|]. split; [|reflexivity].
  unfold cleanup in E. destruct (stop_each _ _); [|discriminate].
  injection E as <-. reflexivity.
Qed.

Lemma open_after_teardown_witness :
  ∃ st1 st2, cleanup connecting = Ok st1
    ∧ onopen 2 st1 = Throws TypeError st2
    ∧ connected (ui st2) = true
    ∧ streamRef (refs st2) = None.
Proof.
  assert (E : cleanup connecting = Ok (settled (cleanup connecting)))
    by (vm_compute; reflexivity).
  destruct (open_after_teardown connecting _ 2 granted E)
    as (st2 & Ho & Hc & _ & Hs & _).
  exists (settled (cleanup connecting)), st2. auto.
Defined.

(** ** Capture during and after the handshake *)

Lemma transport_handshaking st promise waiting :
  transport st = Handshaking promise waiting →
  sessionPromiseRef (refs st) = Some promise
  ∧ promises (platform st) !! promise = Some (Pending waiting).
Proof.
  unfold transport.
  destruct (sessionPromiseRef (refs st)) as [p|]; [|discriminate].
  destruct (promises (platform st) !! p) as [[w|s|]|] eqn:Ep; try discriminate.
  - intros [= <- <-]. auto.
  - destruct (sessions (platform st) !! s) as [[|]|]; discriminate.
Qed.

Lemma transport_open st session :
  transport st = Open session →
  ∃ promise, sessionPromiseRef (refs st) = Some promise
    ∧ promises (platform st) !! promise = Some (Fulfilled session)
    ∧ sessions (platform st) !! session = Some true.
Proof.
  unfold transport.
  destruct (sessionPromiseRef (refs st)) as [p|]; [|discriminate].
  destruct (promises (platform st) !! p) as [[w|s|]|] eqn:Ep; try discriminate.
  destruct (sessions (platform st) !! s) as [[|]|] eqn:Es; try discriminate.
  intros [= <-]. eauto.
Qed.

Lemma capture_failed (createPcmBlob : list Q → Chunk) frames st :
  transport st = Failed → capture createPcmBlob frames st = Ok st.
Proof.
  intros Ht. destruct (capture_cases createPcmBlob frames st)
    as (st' & E & _ & _ & H).
  rewrite Ht in H. subst st'. exact E.
Qed.

(** X10: frames captured while the handshake is under way are all
    delivered, in capture order and after the frames that already
    waited, when the handshake completes; until then nothing is sent. *)
Theorem handshake_frames_delivered (createPcmBlob : list Q → Chunk)
    (frames : list (list Q)) (st : State) (promise : nat)
    (waiting : list Chunk) :
  transport st = Handshaking promise waiting →
  ∃ st1 st2, capture createPcmBlob frames st = Ok st1
    ∧ uplink (platform st1) = uplink (platform st)
    ∧ session_resolved promise st1 = Ok st2
    ∧ uplink (platform st2)
      = uplink (platform st) ++ waiting ++ (createPcmBlob <$> frames)
    ∧ transport st2 = Open (nextId (platform st)).
Proof.
  intros Ht. destruct (transport_handshaking _ _ _ Ht) as (Hr & Hp).
  destruct (capture_cases createPcmBlob frames st)
    as (st1 & E1 & _ & Hr1 & H1).
  rewrite Ht in H1. exists st1.
  assert (Hp1 : promises (platform st1) !! promise
                = Some (Pending (waiting ++ (createPcmBlob <$> frames)))).
  { rewrite H1. cbn. apply lookup_insert_eq. }
  eexists. split; [exact E1|]. split; [rewrite H1; reflexivity|].
  split; [apply session_resolved_pending; exact Hp1|].
  destruct st1 as [u1 r1 p1]. cbn [refs platform] in *. subst r1 p1.
  split; [reflexivity|].
  unfold transport. cbn. rewrite Hr, lookup_insert_eq, lookup_insert_eq.
  reflexivity.
Qed.

Lemma handshake_frames_delivered_witness :
  ∃ st1 st2, capture pcmBlob [[1%Q]; [0%Q]] reconnecting = Ok st1
    ∧ session_resolved 8 st1 = Ok st2
    ∧ uplink (platform st2)
      = uplink (platform reconnecting) ++ [] ++ [pcmBlob [1%Q]; pcmBlob [0%Q]].
Proof.
  destruct (handshake_frames_delivered pcmBlob [[1%Q]; [0%Q]] reconnecting 8 []
              eq_refl) as (st1 & st2 & E1 & _ & E2 & Hu & _).
  exists st1, st2. auto.
Defined.

(** X11: when the handshake fails, the frames that waited on the
    promise are never sent, every later frame is dropped with the state
    unchanged, and a late completion of that promise changes nothing. *)
Theorem rejected_handshake_discards (createPcmBlob : list Q → Chunk)
    (frames : list (list Q)) (st : State) (promise : nat)
    (waiting : list Chunk) :
  transport st = Handshaking promise waiting →
  let st1 := session_rejected promise st in
  transport st1 = Failed
  ∧ uplink (platform st1) = uplink (platform st)
  ∧ capture createPcmBlob frames st1 = Ok st1
  ∧ session_resolved promise st1 = Ok st1.
Proof.
  intros Ht. destruct (transport_handshaking _ _ _ Ht) as (Hr & Hp).
  cbn zeta. unfold session_rejected. rewrite Hp.
  assert (Hf : transport
                 (with_platform
                    (λ p, set_promises (<[promise := Rejected]> (promises p)) p)
                    st) = Failed).
  { unfold transport. cbn. rewrite Hr, lookup_insert_eq. reflexivity. }
  split; [exact Hf|]. split; [reflexivity|].
  split; [apply capture_failed, Hf|].
  apply session_resolved_settled. intros w. cbn.
  rewrite lookup_insert_eq. discriminate.
Qed.

Lemma rejected_handshake_discards_witness :
  transport (session_rejected 8 reconnecting) = Failed
  ∧ capture pcmBlob [[1%Q]] (session_rejected 8 reconnecting)
    = Ok (session_rejected 8 reconnecting).
Proof.
  destruct (rejected_handshake_discards pcmBlob [[1%Q]] reconnecting 8 []
              eq_refl) as (H1 & _ & H2 & _).
  split; [exact H1|exact H2].
Defined.

(** X12: once the socket of the open session has closed, every
    captured frame is dropped: nothing is sent, nothing is queued, the
    state stays as it was. *)
Theorem closed_socket_drops_frames (createPcmBlob : list Q → Chunk)
    (frames : list (list Q)) (st : State) (session : nat) :
  transport st = Open session →
  transport (socket_closed session st) = Failed
  ∧ capture createPcmBlob frames (socket_closed session st)
    = Ok (socket_closed session st).
Proof.
  intros Ht. destruct (transport_open _ _ Ht) as (promise & Hr & Hp & Hs).
  assert (Hf : transport (socket_closed session st) = Failed).
  { unfold transport, socket_closed. cbn. rewrite Hr, Hp, lookup_insert_eq.
    reflexivity. }
  split; [exact Hf|apply capture_failed, Hf].
Qed.

Lemma closed_socket_drops_frames_witness :
  transport active = Open 6
  ∧ capture pcmBlob [[1%Q]; [0%Q]] (socket_closed 6 active)
    = Ok (socket_closed 6 active).
Proof.
  split; [reflexivity|].
  apply (closed_socket_drops_frames pcmBlob _ active 6 eq_refl).
Defined.

(** ** Connection attempts *)

(** What [cleanup] leaves alone and what it leaves alive. *)
Lemma cleanup_frame st st' :
  cleanup st = Ok st' →
  (∀ c, inputContextRef (refs st) ≠ Some c →
        outputContextRef (refs st) ≠ Some c →
        contexts (platform st') !! c = contexts (platform st) !! c)
  ∧ (∀ c x, contexts (platform st') !! c = Some x → ctxState x = Running →
       contexts (platform st) !! c = Some x
       ∧ inputContextRef (refs st) ≠ Some c
       ∧ outputContextRef (refs st) ≠ Some c)
  ∧ (∀ m, streams (platform st') !! m = Some true →
       streams (platform st) !! m = Some true
       ∧ streamRef (refs st) ≠ Some m)
  ∧ promises (platform st') = promises (platform st).
Proof.
  unfold cleanup. intros E.
  destruct (stop_each_ok (sourcesRef (refs st)) (sources (platform st)))
    as (srcs & Es & _).
  rewrite Es in E. cbn [mbind result_bind] in E. injection E as <-.
  cbn [platform contexts streams promises].
  assert (Hlook : ∀ c,
    match outputContextRef (refs st) with
    | Some c0 =>
        context_close c0
          match inputContextRef (refs st) with
          | Some c1 => context_close c1 (contexts (platform st))
          | None => contexts (platform st)
          end
    | None =>
        match inputContextRef (refs st) with
        | Some c1 => context_close c1 (contexts (platform st))
        | None => contexts (platform st)
        end
    end !! c
    = if decide (inputContextRef (refs st) = Some c
                 ∨ outputContextRef (refs st) = Some c)
      then (λ x, {| ctxState := Closed; currentTime := currentTime x |})
             <$> contexts (platform st) !! c
      else contexts (platform st) !! c).
  { intros c.
    destruct (outputContextRef (refs st)) as [o|],
             (inputContextRef (refs st)) as [i|];
      rewrite ?context_close_lookup.
    - destruct (decide (c = o)) as [Ho|Ho], (decide (c = i)) as [Hi|Hi].
      + rewrite decide_True by (left; congruence).
        destruct (contexts (platform st) !! c); reflexivity.
      + rewrite decide_True by (right; congruence). reflexivity.
      + rewrite decide_True by (left; congruence). reflexivity.
      + rewrite decide_False by (intros [?|?]; congruence). reflexivity.
    - destruct (decide (c = o)) as [Ho|Ho].
      + rewrite decide_True by (right; congruence). reflexivity.
      + rewrite decide_False by (intros [?|?]; congruence). reflexivity.
    - destruct (decide (c = i)) as [Hi|Hi].
      + rewrite decide_True by (left; congruence). reflexivity.
      + rewrite decide_False by (intros [?|?]; congruence). reflexivity.
    - rewrite decide_False by (intros [?|?]; congruence). reflexivity. }
  split; [|split; [|split; [|reflexivity]]].
  - intros c Hi Ho. rewrite Hlook, decide_False by tauto. reflexivity.
  - intros c x. rewrite Hlook.
    destruct (decide _) as [H|H].
    + destruct (contexts (platform st) !! c); [|discriminate].
      intros [= <-]. discriminate.
    + intros Hc _. tauto.
  - intros m. destruct (streamRef (refs st)) as [s|]; [|intros H; split; [exact H|discriminate]].
    unfold stream_stop. destruct (decide (m = s)) as [->|Hne].
    + destruct (streams (platform st) !! s) eqn:Es'.
      * rewrite lookup_insert_eq. discriminate.
      * rewrite Es'. discriminate.
    + destruct (streams (platform st) !! s);
        [rewrite lookup_insert_ne by congruence|];
        intros H; (split; [exact H|congruence]).
Qed.

(** X14: an attempt that cannot start acquires nothing.  Without an API
    key, or when the microphone is refused and no local audio exists yet,
    pressing the button on a disconnected panel leaves every ref and
    every platform object as it was and ends with the signal offline. *)
Theorem attempt_that_cannot_start (env : Env) (st : State) :
  connected (ui st) = false →
  apiKey env = false
  ∨ (inputContextRef (refs st) = None ∧ micGranted env = false) →
  ∃ st', toggleConnection env st = Ok st'
    ∧ refs st' = refs st
    ∧ platform st' = platform st
    ∧ connected (ui st') = false
    ∧ signalQuality (ui st') = OFFLINE.
Proof.
  intros Hc Hcase. unfold toggleConnection. rewrite Hc.
  destruct (apiKey env) eqn:Ek; cbn [negb].
  2:{ eexists. split; [reflexivity|]. repeat split. }
  destruct Hcase as [|[Hin Hmic]]; [discriminate|].
  cbn [with_ui refs]. rewrite Hin. unfold initializeLocalAudio. rewrite Hmic.
  cbv zeta. cbn [with_ui refs]. rewrite Hin.
  eexists. split; [reflexivity|]. repeat split.
Qed.

Lemma attempt_that_cannot_start_witness :
  ∃ st', toggleConnection
           {| apiKey := true; micGranted := false; setupThrows := None;
              resumeRejects := false; rejectedResume := InputResume |}
           mounted = Ok st'
    ∧ refs st' = refs mounted ∧ platform st' = platform mounted.
Proof.
  destruct (attempt_that_cannot_start
              {| apiKey := true; micGranted := false; setupThrows := None;
                 resumeRejects := false; rejectedResume := InputResume |}
              mounted eq_refl (or_intror (conj eq_refl eq_refl)))
    as (st' & E & Hr & Hp & _).
  exists st'. auto.
Defined.

(** [toggleConnection] is its four parts run one after the other. *)
Lemma toggleConnection_parts_agree env st :
  toggleConnection env st = toggleConnection_parts env st.
Proof.
  assert (Htail : ∀ s,
    (if resumeRejects env
     then cleanup (handshakeFailed
                     match rejectedResume env with
                     | InputResume => s
                     | OutputResume => newAudioContext s
                     end)
     else Ok (establish s))
    = (toggleConnection_inputResumed
         match rejectedResume env with
         | InputResume => negb (resumeRejects env)
         | OutputResume => true
         end s
       ≫= λ p, match p with
               | AwaitOutputResume outputCtx st0 =>
                   toggleConnection_outputResumed outputCtx
                     (negb (resumeRejects env)) st0
               | _ => Ok (paused p)
               end)).
  { intros s. unfold toggleConnection_inputResumed, toggleConnection_outputResumed.
    destruct (resumeRejects env), (rejectedResume env); cbn; try reflexivity.
    destruct (cleanup (handshakeFailed s)); reflexivity. }
  unfold toggleConnection, toggleConnection_parts, toggleConnection_begin.
  destruct (connected (ui st)).
  { destruct (cleanup st); reflexivity. }
  destruct (negb (apiKey env)); [reflexivity|].
  cbv zeta.
  destruct (inputContextRef (refs (with_ui (setSignalQuality SEARCHING) st)))
    as [i|] eqn:Ei.
  - cbn [mbind result_bind]. rewrite Ei. apply Htail.
  - cbn [mbind result_bind]. unfold toggleConnection_microphone. cbv zeta.
    destruct (inputContextRef
                (refs (initializeLocalAudio env
                         (with_ui (setSignalQuality SEARCHING) st))));
      [apply Htail|reflexivity].
Qed.

(** What [initializeLocalAudio] may have changed: the objects it makes
    are new, and each is stored in its ref at once. *)
Lemma initializeLocalAudio_frame env st :
  (nextId (platform st) ≤ nextId (platform (initializeLocalAudio env st)))%nat
  ∧ outputContextRef (refs (initializeLocalAudio env st))
    = outputContextRef (refs st)
  ∧ promises (platform (initializeLocalAudio env st)) = promises (platform st)
  ∧ (∀ c x, contexts (platform (initializeLocalAudio env st)) !! c = Some x →
       contexts (platform st) !! c = Some x
       ∨ inputContextRef (refs (initializeLocalAudio env st)) = Some c)
  ∧ (∀ m, streams (platform (initializeLocalAudio env st)) !! m = Some true →
       streams (platform st) !! m = Some true
       ∨ streamRef (refs (initializeLocalAudio env st)) = Some m)
  ∧ (∀ c, inputContextRef (refs (initializeLocalAudio env st)) = Some c →
       inputContextRef (refs st) = Some c
       ∨ (c < nextId (platform (initializeLocalAudio env st)))%nat).
Proof.
  assert (Hins : ∀ {V} (m : gmap nat V) i v k y,
            <[i := v]> m !! k = Some y → m !! k = Some y ∨ k = i).
  { intros V m i v k y. destruct (decide (k = i)) as [->|Hne]; [auto|].
    rewrite lookup_insert_ne by congruence. auto. }
  unfold initializeLocalAudio. cbv zeta. destruct st as [u r p].
  destruct (micGranted env).
  2:{ cbn. repeat split; auto. }
  destruct (throwsAt env NewAudioContext).
  { cbn. split; [lia|]. repeat split; auto.
    intros m Hm. apply Hins in Hm. destruct Hm as [Hm| ->]; auto. }
  destruct (throwsAt env CreateAnalyser);
    [|destruct (throwsAt env CreateMediaStreamSource)];
    cbn; (split; [lia|]); (split; [reflexivity|]); (split; [reflexivity|]);
    (split; [|split]).
  all: try (intros c x Hx; apply Hins in Hx; destruct Hx as [Hx| ->]; auto).
  all: try (intros m Hm; apply Hins in Hm; destruct Hm as [Hm| ->]; auto).
  all: intros c [= <-]; right; lia.
Qed.

Lemma initializeLocalAudio_input env st :
  micGranted env = true →
  setupThrows env ≠ Some NewAudioContext →
  inputContextRef (refs (initializeLocalAudio env st))
  = Some (S (nextId (platform st))).
Proof.
  intros Hmic Hset. unfold initializeLocalAudio. cbv zeta. rewrite Hmic.
  assert (Hno : throwsAt env NewAudioContext = false).
  { unfold throwsAt. destruct (setupThrows env) as [[]|]; congruence. }
  rewrite Hno.
  destruct (throwsAt env CreateAnalyser);
    [|destruct (throwsAt env CreateMediaStreamSource)]; reflexivity.
Qed.

(** X15: an attempt whose [resume()] is rejected ends in the [catch]:
    the panel is disconnected with every ref null and the live set
    empty, a stream live afterwards was live before, and no promise was
    created.  When [inputCtx.resume()] is the one rejected, a context
    running afterwards was running before.  When [outputCtx.resume()]
    is, the output context made just before it is not yet in its ref and
    [cleanup] does not close it: it is left running, the only new
    running context. *)
Theorem failed_attempt_holds_nothing (env : Env) (st : State) :
  connected (ui st) = false →
  apiKey env = true →
  resumeRejects env = true →
  inputContextRef (refs st) ≠ None
  ∨ (micGranted env = true ∧ setupThrows env ≠ Some NewAudioContext) →
  (∀ c, inputContextRef (refs st) = Some c → (c < nextId (platform st))%nat) →
  (∀ c, outputContextRef (refs st) = Some c → (c < nextId (platform st))%nat) →
  ∃ st', toggleConnection env st = Ok st'
    ∧ ui st' = {| connected := false; micActive := false;
                  signalQuality := OFFLINE |}
    ∧ sourcesRef (refs st') = ∅
    ∧ sessionPromiseRef (refs st') = None
    ∧ inputContextRef (refs st') = None
    ∧ outputContextRef (refs st') = None
    ∧ streamRef (refs st') = None
    ∧ (∀ m, streams (platform st') !! m = Some true →
         streams (platform st) !! m = Some true)
    ∧ promises (platform st') = promises (platform st)
    ∧ match rejectedResume env with
      | InputResume =>
          ∀ c x, contexts (platform st') !! c = Some x → ctxState x = Running →
            contexts (platform st) !! c = Some x
      | OutputResume =>
          ∃ leaked, (nextId (platform st) ≤ leaked)%nat
            ∧ contexts (platform st') !! leaked
              = Some {| ctxState := Running; currentTime := 0%Q |}
            ∧ ∀ c x, c ≠ leaked →
                contexts (platform st') !! c = Some x → ctxState x = Running →
                contexts (platform st) !! c = Some x
      end.
Proof.
  intros Hc Hk Hrej Hcase Hfi Hfo. unfold toggleConnection. rewrite Hc, Hk.
  cbn [negb].
  set (st0 := with_ui (setSignalQuality SEARCHING) st).
  set (st1 := match inputContextRef (refs st0) with
              | Some _ => st0
              | None => initializeLocalAudio env st0
              end).
  assert (F : (nextId (platform st) ≤ nextId (platform st1))%nat
    ∧ outputContextRef (refs st1) = outputContextRef (refs st)
    ∧ promises (platform st1) = promises (platform st)
    ∧ (∀ c x, contexts (platform st1) !! c = Some x →
         contexts (platform st) !! c = Some x
         ∨ inputContextRef (refs st1) = Some c)
    ∧ (∀ m, streams (platform st1) !! m = Some true →
         streams (platform st) !! m = Some true
         ∨ streamRef (refs st1) = Some m)
    ∧ (∀ c, inputContextRef (refs st1) = Some c →
         (c < nextId (platform st1))%nat)).
  { subst st1. destruct (inputContextRef (refs st0)) as [i|] eqn:Ei.
    - split; [reflexivity|]. split; [reflexivity|]. split; [reflexivity|].
      split; [auto|]. split; [auto|].
      intros c Hci. apply Hfi. exact Hci.
    - destruct (initializeLocalAudio_frame env st0)
        as (A & B & C & D & E & G).
      split; [exact A|]. split; [exact B|]. split; [exact C|].
      split; [exact D|]. split; [exact E|].
      intros c Hci. destruct (G c Hci) as [Hold|Hnew]; [congruence|exact Hnew]. }
  destruct F as (Fn & Fo & Fp & Fc & Fs & Fi).
  destruct (inputContextRef (refs st1)) as [i|] eqn:Ei1.
  2:{ exfalso. subst st1. destruct Hcase as [Hin|[Hmic Hset]].
      - destruct (inputContextRef (refs st0)) eqn:Ei0; [congruence|].
        apply Hin. exact Ei0.
      - destruct (inputContextRef (refs st0)) eqn:Ei0; [congruence|].
        rewrite initializeLocalAudio_input in Ei1 by assumption. discriminate. }
  rewrite Hrej.
  match goal with |- ∃ st', cleanup ?m = Ok st' ∧ _ => set (mid := m) end.
  destruct (cleanup_releases mid)
    as (st' & E & (R1 & R2 & R3 & R4 & R5 & R6 & _) & _).
  destruct (cleanup_frame mid st' E) as (Hkeep & Hctx & Hstr & Hp).
  exists st'. repeat (split; [assumption|]).
  assert (Hrefs : inputContextRef (refs mid) = Some i
                  ∧ outputContextRef (refs mid) = outputContextRef (refs st)
                  ∧ streamRef (refs mid) = streamRef (refs st1)
                  ∧ streams (platform mid) = streams (platform st1)
                  ∧ promises (platform mid) = promises (platform st)).
  { subst mid. unfold handshakeFailed.
    destruct (rejectedResume env); cbn [with_ui refs platform
      newAudioContext with_platform set_nextId set_contexts streams promises];
      rewrite ?Ei1, ?Fo, ?Fp; repeat split. }
  destruct Hrefs as (Mi & Mo & Ms & Mst & Mp).
  split; [|split; [rewrite Hp; exact Mp|]].
  - intros m Hm. destruct (Hstr m Hm) as (Hmid & Hno).
    rewrite Mst in Hmid. rewrite Ms in Hno.
    destruct (Fs m Hmid) as [Hold|Hnew]; [exact Hold|contradiction].
  - destruct (rejectedResume env) eqn:Ew.
    + intros c x Hx Hrun. destruct (Hctx c x Hx Hrun) as (Hmid & Hni & _).
      subst mid. unfold handshakeFailed in Hmid.
      cbn [with_ui platform] in Hmid. rewrite Mi in Hni.
      destruct (Fc c x Hmid) as [Hold|Hnew]; [exact Hold|].
      contradiction.
    + exists (nextId (platform st1)). split; [exact Fn|]. split.
      * rewrite Hkeep.
        -- subst mid. unfold handshakeFailed. cbn [with_ui platform].
           apply newAudioContext_running.
        -- rewrite Mi. intros [= ->]. specialize (Fi _ eq_refl). lia.
        -- rewrite Mo. intros Ho. apply Hfo in Ho. lia.
      * intros c x Hne Hx Hrun. destruct (Hctx c x Hx Hrun) as (Hmid & Hni & _).
        subst mid. unfold handshakeFailed in Hmid.
        cbn [with_ui platform] in Hmid.
        unfold newAudioContext in Hmid.
        cbn [with_platform platform set_nextId set_contexts contexts] in Hmid.
        rewrite lookup_insert_ne in Hmid by congruence.
        rewrite Mi in Hni.
        destruct (Fc c x Hmid) as [Hold|Hnew]; [exact Hold|].
        contradiction.
Qed.

Lemma failed_attempt_holds_nothing_witness :
  ∃ st', toggleConnection
           {| apiKey := true; micGranted := true; setupThrows := None;
              resumeRejects := true; rejectedResume := OutputResume |}
           mounted = Ok st'
    ∧ inputContextRef (refs st') = None
    ∧ outputContextRef (refs st') = None
    ∧ ∃ leaked, (1 ≤ leaked)%nat
        ∧ contexts (platform st') !! leaked
          = Some {| ctxState := Running; currentTime := 0%Q |}.
Proof.
  assert (H0 : ∀ c : nat, @None nat = Some c → (c < 1)%nat) by discriminate.
  assert (Hs : @None SetupStep ≠ Some NewAudioContext) by discriminate.
  destruct (failed_attempt_holds_nothing
              {| apiKey := true; micGranted := true; setupThrows := None;
                 resumeRejects := true; rejectedResume := OutputResume |}
              mounted eq_refl eq_refl eq_refl (or_intror (conj eq_refl Hs))
              H0 H0)
    as (st' & E & _ & _ & _ & Hi & Ho & _ & _ & _ & leaked & Hl & Hx & _).
  exists st'. split; [exact E|]. split; [exact Hi|]. split; [exact Ho|].
  exists leaked. split; [exact Hl|exact Hx].
Defined.

(** X16: a reconnect after a remote close leaks the old output
    context.  When the panel is disconnected but still holds its
    contexts, the next attempt reuses the input context and the stream,
    stores a new output context over the old ref without closing the old
    one, and the teardown that follows does not close it either. *)
Theorem reconnect_leaks_output_context (env : Env) (st : State)
    (input old : nat) (x : AudioContext) :
  connected (ui st) = false →
  apiKey env = true →
  resumeRejects env = false →
  inputContextRef (refs st) = Some input →
  outputContextRef (refs st) = Some old →
  contexts (platform st) !! old = Some x →
  ctxState x = Running →
  old ≠ input →
  old ≠ nextId (platform st) →
  ∃ st1 st2, toggleConnection env st = Ok st1
    ∧ inputContextRef (refs st1) = Some input
    ∧ streamRef (refs st1) = streamRef (refs st)
    ∧ streams (platform st1) = streams (platform st)
    ∧ outputContextRef (refs st1) = Some (nextId (platform st))
    ∧ contexts (platform st1) !! old = Some x
    ∧ cleanup st1 = Ok st2
    ∧ contexts (platform st2) !! old = Some x.
Proof.
  intros Hc Hk Hrej Hin Hout Hx Hrun Hne Hfresh.
  unfold toggleConnection. rewrite Hc, Hk. cbn [negb with_ui refs].
  rewrite Hin. cbn [with_ui refs]. rewrite Hin, Hrej.
  set (st1 := establish (with_ui (setSignalQuality SEARCHING) st)).
  assert (Hx1 : contexts (platform st1) !! old = Some x).
  { subst st1. cbn. rewrite lookup_insert_ne by congruence. exact Hx. }
  assert (Hi1 : inputContextRef (refs st1) = Some input) by exact Hin.
  assert (Ho1 : outputContextRef (refs st1) = Some (nextId (platform st)))
    by reflexivity.
  destruct (cleanup_releases st1) as (st2 & E2 & _).
  destruct (cleanup_frame st1 st2 E2) as (Hkeep & _).
  exists st1, st2. split; [reflexivity|]. split; [exact Hi1|].
  split; [reflexivity|]. split; [reflexivity|]. split; [exact Ho1|].
  split; [exact Hx1|]. split; [exact E2|].
  rewrite Hkeep; [exact Hx1| |]; rewrite ?Hi1, ?Ho1; congruence.
Qed.

Lemma reconnect_leaks_output_context_witness :
  ∃ st1 st2, toggleConnection granted remote_closed = Ok st1
    ∧ outputContextRef (refs st1) = Some 7%nat
    ∧ cleanup st1 = Ok st2
    ∧ contexts (platform st2) !! 4%nat
      = Some {| ctxState := Running; currentTime := 0%Q |}.
Proof.
  assert (H1 : (4 ≠ 2)%nat) by discriminate.
  assert (H2 : (4 ≠ nextId (platform remote_closed))%nat) by discriminate.
  destruct (reconnect_leaks_output_context granted remote_closed 2 4
              {| ctxState := Running; currentTime := 0%Q |}
              eq_refl eq_refl eq_refl eq_refl eq_refl eq_refl eq_refl H1 H2)
    as (st1 & st2 & E & _ & _ & _ & Ho & _ & E2 & Hx).
  exists st1, st2. auto.
Defined.

(** ** Metering *)

Import Visualizer.

Lemma getByteFrequencyData_length a array :
  length (getByteFrequencyData a array) = length array.
Proof.
  unfold getByteFrequencyData.
  rewrite length_app, length_take, length_drop. lia.
Qed.

Lemma getByteFrequencyData_bytes a array :
  byte_data (bins a) → byte_data array →
  byte_data (getByteFrequencyData a array).
Proof.
  intros Ha Harr. unfold getByteFrequencyData, byte_data.
  apply Forall_app. split; [apply Forall_take, Ha|apply Forall_drop, Harr].
Qed.

Lemma sumBytes_bounds array :
  byte_data array → 0 <= sumBytes array <= 255 * Z.of_nat (length array).
Proof.
  induction 1 as [|b rest Hb Hrest IH]; cbn [sumBytes foldr length].
  - lia.
  - fold (sumBytes rest). lia.
Qed.

(** A sum of [n] bytes, divided by [n] and by 255, lies in [0, 1]. *)
Lemma mean_within_unit (s n : Z) :
  0 < n → 0 <= s <= 255 * n →
  (0 <= inject_Z s / inject_Z n / 255 ∧ inject_Z s / inject_Z n / 255 <= 1)%Q.
Proof.
  intros Hn Hs.
  assert (Hn' : (0 < inject_Z n)%Q) by (rewrite <- (Zlt_Qlt 0); exact Hn).
  assert (H0 : (0 <= inject_Z s)%Q) by (rewrite <- (Zle_Qle 0); lia).
  assert (H1 : (inject_Z s <= 255 * inject_Z n)%Q).
  { change 255%Q with (inject_Z 255). rewrite <- inject_Z_mult, <- Zle_Qle. lia. }
  split.
  - apply Qle_shift_div_l; [reflexivity|].
    apply Qle_shift_div_l; [exact Hn'|]. lra.
  - apply Qle_shift_div_r; [reflexivity|].
    apply Qle_shift_div_r; [exact Hn'|]. lra.
Qed.

Lemma level_within_unit array :
  byte_data array → (0 < length array)%nat →
  (0 <= level array ∧ level array <= 1)%Q.
Proof.
  intros Hb Hlen. unfold level.
  apply mean_within_unit; [lia|apply sumBytes_bounds, Hb].
Qed.

Lemma render_visualizer_length (r : Refs) (arrays : Arrays) :
  length (visualizerDataArray (fst (render r arrays)))
  = length (visualizerDataArray arrays).
Proof.
  unfold render. cbn [fst visualizerDataArray].
  destruct (activeAnalyser _ r);
    [apply getByteFrequencyData_length|apply length_fmap].
Qed.

(** X18: with analysers that report bytes and the arrays
    [drawVisualizer] allocates (32, 32 and 256 bytes), every level of a
    frame lies between 0 and 1, each meter is between 0 and 100 percent
    wide and its opacity between 0.3 and 1. *)
Theorem levels_within_unit (r : Refs) (arrays : Arrays) :
  (∀ a, inputAnalyserRef r = Some a → byte_data (bins a)) →
  (∀ a, outputAnalyserRef r = Some a → byte_data (bins a)) →
  byte_data (inputDataArray arrays) →
  byte_data (outputDataArray arrays) →
  byte_data (visualizerDataArray arrays) →
  length (inputDataArray arrays) = 32%nat →
  length (outputDataArray arrays) = 32%nat →
  length (visualizerDataArray arrays) = 256%nat →
  let m := snd (render r arrays) in
  Forall (λ v, (0 <= v ∧ v <= 1)%Q)
    [inputVol m; outputVol m; bassVol m; totalVol m]
  ∧ Forall (λ v, (0 <= meterWidth v ∧ meterWidth v <= 100)%Q
                 ∧ ((3 # 10) <= meterOpacity v ∧ meterOpacity v <= 1)%Q)
      [inputVol m; outputVol m].
Proof.
  intros Hin Hout Bi Bo Bv Li Lo Lv. cbn zeta.
  assert (Hvis : byte_data (visualizerDataArray (fst (render r arrays)))).
  { unfold render. cbn [fst visualizerDataArray].
    unfold activeAnalyser. destruct (isOutput _).
    - destruct (outputAnalyserRef r) as [a|] eqn:Ea.
      + apply getByteFrequencyData_bytes; auto.
      + apply Forall_fmap, Forall_forall. intros; cbn; lia.
    - destruct (inputAnalyserRef r) as [a|] eqn:Ea.
      + apply getByteFrequencyData_bytes; auto.
      + apply Forall_fmap, Forall_forall. intros; cbn; lia. }
  pose proof (render_visualizer_length r arrays) as Lvis.
  rewrite Lv in Lvis.
  assert (Vin : (0 <= inputVol (snd (render r arrays))
                 ∧ inputVol (snd (render r arrays)) <= 1)%Q).
  { unfold render. cbn [snd inputVol].
    destruct (inputAnalyserRef r) as [a|] eqn:Ea; [|split; [apply Qle_refl|discriminate]].
    apply level_within_unit.
    - apply getByteFrequencyData_bytes; auto.
    - rewrite getByteFrequencyData_length. lia. }
  assert (Vout : (0 <= outputVol (snd (render r arrays))
                  ∧ outputVol (snd (render r arrays)) <= 1)%Q).
  { unfold render. cbn [snd outputVol].
    destruct (outputAnalyserRef r) as [a|] eqn:Ea; [|split; [apply Qle_refl|discriminate]].
    apply level_within_unit.
    - apply getByteFrequencyData_bytes; auto.
    - rewrite getByteFrequencyData_length. lia. }
  assert (Vtot : (0 <= totalVol (snd (render r arrays))
                  ∧ totalVol (snd (render r arrays)) <= 1)%Q).
  { change (totalVol (snd (render r arrays)))
      with (level (visualizerDataArray (fst (render r arrays)))).
    apply level_within_unit; [exact Hvis|lia]. }
  assert (Vbass : (0 <= bassVol (snd (render r arrays))
                   ∧ bassVol (snd (render r arrays)) <= 1)%Q).
  { change (bassVol (snd (render r arrays)))
      with (inject_Z (sumBytes (take 30 (visualizerDataArray (fst (render r arrays)))))
            / inject_Z (Z.of_nat 30) / 255)%Q.
    apply mean_within_unit; [lia|].
    pose proof (sumBytes_bounds (take 30 (visualizerDataArray (fst (render r arrays))))
                  (Forall_take _ _ _ Hvis)) as Hs.
    rewrite length_take, Lvis in Hs.
    change (30 `min` 256)%nat with 30%nat in Hs. lia. }
  assert (Hmeter : ∀ v, (0 <= v ∧ v <= 1)%Q →
            (0 <= meterWidth v ∧ meterWidth v <= 100)%Q
            ∧ ((3 # 10) <= meterOpacity v ∧ meterOpacity v <= 1)%Q).
  { intros v [Hv0 Hv1]. unfold meterWidth, meterOpacity. split; [|split; lra].
    destruct (Qltb (v * 150) 100) eqn:E.
    - apply Qltb_true in E. split; lra.
    - split; [discriminate|apply Qle_refl]. }
  split.
  - repeat constructor; tauto.
  - repeat constructor; apply Hmeter; assumption.
Qed.

Lemma levels_within_unit_witness :
  Forall (λ v, (0 <= v ∧ v <= 1)%Q)
    [inputVol (snd (render speaking newArrays));
     outputVol (snd (render speaking newArrays));
     bassVol (snd (render speaking newArrays));
     totalVol (snd (render speaking newArrays))].
Proof.
  assert (Hi : ∀ a, inputAnalyserRef speaking = Some a → byte_data (bins a)).
  { intros a [= <-]. apply (bool_decide_unpack _). vm_compute. exact I. }
  assert (Ho : ∀ a, outputAnalyserRef speaking = Some a → byte_data (bins a)).
  { intros a [= <-]. apply (bool_decide_unpack _). vm_compute. exact I. }
  assert (Hz : ∀ n, byte_data (replicate n 0)).
  { intros n. apply Forall_replicate. lia. }
  apply (levels_within_unit speaking newArrays Hi Ho (Hz 32%nat) (Hz 32%nat)
           (Hz 256%nat) eq_refl eq_refl eq_refl).
Defined.

(** X19: the 0.05 threshold in bytes.  With the 32-byte output array,
    the output path is selected exactly when the first 32 output bins
    sum to more than 408, that is from 409 on; without an output
    analyser it is never selected. *)
Theorem output_threshold_in_bytes (r : Refs) (arrays : Arrays) :
  length (outputDataArray arrays) = 32%nat →
  (∀ a, outputAnalyserRef r = Some a → (32 ≤ length (bins a))%nat) →
  let out := outputVol (snd (render r arrays)) in
  match outputAnalyserRef r with
  | Some a => isOutput out = true ↔ 408 < sumBytes (take 32 (bins a))
  | None => isOutput out = false
  end.
Proof.
  intros Hlen Hbins. cbn zeta. unfold render. cbn [snd outputVol].
  destruct (outputAnalyserRef r) as [a|] eqn:Ea; [|reflexivity].
  rewrite isOutput_true. unfold level.
  rewrite getByteFrequencyData_prefix by (rewrite Hlen; auto).
  rewrite Hlen, length_take, Nat.min_l by auto.
  set (s := sumBytes (take 32 (bins a))).
  change (inject_Z (Z.of_nat 32)) with 32%Q.
  unfold Qlt, Qdiv, Qmult, Qinv, inject_Z. cbn. lia.
Qed.

Lemma output_threshold_in_bytes_witness :
  isOutput (outputVol (snd (render speaking newArrays))) = true
  ↔ 408 < sumBytes (take 32 (replicate 16 26 ++ replicate 240 25)).
Proof.
  assert (Hb : ∀ a, outputAnalyserRef speaking = Some a →
                    (32 ≤ length (bins a))%nat).
  { intros a [= <-]. cbn. lia. }
  exact (output_threshold_in_bytes speaking newArrays eq_refl Hb).
Defined.

(** X20: the frequency ring reads the lower half of the spectrum, in
    order.  For each of the 180 bars the bin index is non-negative and
    below half the array's length, and it does not decrease from one bar
    to the next. *)
Theorem ring_reads_lower_half (i j : Z) (len : nat) :
  0 <= i → i <= j → j < bars → (0 < len)%nat →
  0 <= dataIndex i len
  ∧ 2 * dataIndex i len < Z.of_nat len
  ∧ dataIndex i len <= dataIndex j len.
Proof.
  intros Hi Hij Hj Hlen. unfold dataIndex.
  set (L := inject_Z (Z.of_nat len)).
  assert (HL : (0 < L)%Q) by (subst L; rewrite <- (Zlt_Qlt 0); lia).
  assert (Hi' : (0 <= inject_Z i)%Q) by (rewrite <- (Zle_Qle 0); exact Hi).
  assert (Hij' : (inject_Z i <= inject_Z j)%Q) by (rewrite <- Zle_Qle; exact Hij).
  assert (Hj' : (inject_Z j < 180)%Q).
  { change 180%Q with (inject_Z 180). rewrite <- Zlt_Qlt. exact Hj. }
  assert (Eq : ∀ k, (inject_Z k / inject_Z bars * (L / 2)
                     == inject_Z k * L * (1 # 360))%Q).
  { intros k. unfold Qdiv. change (/ inject_Z bars)%Q with (1 # 180)%Q.
    change (/ 2)%Q with (1 # 2)%Q. ring. }
  assert (Hx0 : (0 <= inject_Z i / inject_Z bars * (L / 2))%Q).
  { rewrite Eq. apply Qmult_le_0_compat; [|discriminate].
    apply Qmult_le_0_compat; [exact Hi'|apply Qlt_le_weak, HL]. }
  assert (Hmono : (inject_Z i / inject_Z bars * (L / 2)
                   <= inject_Z j / inject_Z bars * (L / 2))%Q).
  { rewrite !Eq. apply Qmult_le_compat_r; [|discriminate].
    apply Qmult_le_compat_r; [exact Hij'|apply Qlt_le_weak, HL]. }
  assert (Hup : (inject_Z i / inject_Z bars * (L / 2) < L * (1 # 2))%Q).
  { rewrite Eq.
    assert (H180 : (inject_Z i * L < 180 * L)%Q).
    { apply Qmult_lt_compat_r; [exact HL|].
      eapply Qle_lt_trans; [exact Hij'|exact Hj']. }
    lra. }
  split; [|split].
  - apply Qfloor_resp_le in Hx0. exact Hx0.
  - pose proof (Qfloor_le (inject_Z i / inject_Z bars * (L / 2))) as Hle.
    set (f := Qfloor (inject_Z i / inject_Z bars * (L / 2))%Q) in *.
    assert (Hf : (inject_Z (2 * f) < L)%Q).
    { rewrite inject_Z_mult. change (inject_Z 2) with 2%Q. lra. }
    subst L. rewrite <- Zlt_Qlt in Hf. exact Hf.
  - apply Qfloor_resp_le. exact Hmono.
Qed.

Lemma ring_reads_lower_half_witness :
  0 <= dataIndex 90 256
  ∧ 2 * dataIndex 90 256 < 256
  ∧ dataIndex 90 256 <= dataIndex 179 256.
Proof.
  assert (H0 : 0 <= 90) by lia.
  assert (H1 : 90 <= 179) by lia.
  assert (H2 : 179 < bars) by reflexivity.
  assert (H3 : (0 < 256)%nat) by lia.
  exact (ring_reads_lower_half 90 179 256 H0 H1 H2 H3).
Defined.

(** ** Signal bars *)

(** X21: what the signal indicator shows.  Unless the panel is
    searching, the lit bars are the first [activeBars] of the four and
    the others are dim; while searching all four pulse.  While connected
    the simulated signal lights at least two bars, never fewer for a
    larger draw; when not connected all four are dim. *)
Theorem signal_bars_follow_signal :
  (∀ q, animate q = false →
     signalBars q
     = replicate (activeBars q) Lit ++ replicate (4 - activeBars q) Dim)
  ∧ signalBars SEARCHING = replicate 4 Pulsing
  ∧ (∀ rand, (2 ≤ activeBars (simulatedSignal true rand))%nat
             ∧ animate (simulatedSignal true rand) = false)
  ∧ (∀ r1 r2, (r1 <= r2)%Q →
       (activeBars (simulatedSignal true r1)
        ≤ activeBars (simulatedSignal true r2))%nat)
  ∧ (∀ rand, signalBars (simulatedSignal false rand) = replicate 4 Dim).
Proof.
  split; [|split; [|split; [|split]]].
  - intros [] H; try discriminate; reflexivity.
  - reflexivity.
  - intros rand. unfold simulatedSignal.
    destruct (Qltb (7 # 10) rand), (Qltb (2 # 10) rand); cbn; split;
      try reflexivity; lia.
  - intros r1 r2 Hle. unfold simulatedSignal.
    destruct (Qltb (7 # 10) r1) eqn:E1, (Qltb (7 # 10) r2) eqn:E2,
             (Qltb (2 # 10) r1) eqn:E3, (Qltb (2 # 10) r2) eqn:E4;
      cbn; try lia;
      repeat match goal with
             | H : Qltb _ _ = true |- _ => apply Qltb_true in H
             | H : Qltb _ _ = false |- _ => apply Qltb_false in H
             end; lra.
  - intros rand. reflexivity.
Qed.

Lemma signal_bars_follow_signal_witness :
  signalBars (simulatedSignal true (1 # 2)) = [Lit; Lit; Lit; Dim]
  ∧ (activeBars (simulatedSignal true (1 # 10))
     ≤ activeBars (simulatedSignal true (9 # 10)))%nat.
Proof.
  destruct signal_bars_follow_signal as (Hbars & _ & _ & Hmono & _).
  split.
  - rewrite (Hbars (simulatedSignal true (1 # 2)) eq_refl). reflexivity.
  - apply Hmono. vm_compute. discriminate.
Defined.

(** ** The application log *)

Section LogProperties.

Context {LogEntry : Type}.

Lemma addLog_length (e : LogEntry) prev :
  length (App.addLog LogEntry e prev) = S (min 49 (length prev)).
Proof.
  unfold App.addLog. rewrite length_app, length_drop. cbn [length]. lia.
Qed.

Lemma addLog_last_fifty (e : LogEntry) prev :
  (length prev ≤ 50)%nat →
  App.addLog LogEntry e prev
  = drop (length (prev ++ [e]) - 50) (prev ++ [e]).
Proof.
  intros H. unfold App.addLog. rewrite length_app. cbn [length].
  replace (length prev + 1 - 50)%nat with (length prev - 49)%nat by lia.
  rewrite drop_app_le by lia. reflexivity.
Qed.

(** X22: the log keeps the newest fifty entries, oldest first.  From a
    log of at most fifty entries, any series of [addLog] calls leaves
    the last fifty of the old entries followed by the new ones, in the
    order of the calls; the log never grows beyond fifty. *)
Theorem log_keeps_last_fifty (entries prev : list LogEntry) :
  (length prev ≤ 50)%nat →
  App.addLogs LogEntry entries prev
  = drop (length (prev ++ entries) - 50) (prev ++ entries)
  ∧ (length (App.addLogs LogEntry entries prev) ≤ 50)%nat.
Proof.
  revert prev. induction entries as [|e rest IH]; intros prev Hlen.
  - cbn. rewrite app_nil_r.
    replace (length prev - 50)%nat with 0%nat by lia.
    split; [reflexivity|exact Hlen].
  - assert (Hl : (length (App.addLog LogEntry e prev) ≤ 50)%nat)
      by (rewrite addLog_length; lia).
    destruct (IH (App.addLog LogEntry e prev) Hl) as (Heq & Hle).
    change (App.addLogs LogEntry (e :: rest) prev)
      with (App.addLogs LogEntry rest (App.addLog LogEntry e prev)).
    split; [|exact Hle]. rewrite Heq, (addLog_last_fifty e prev Hlen).
    replace (prev ++ e :: rest) with ((prev ++ [e]) ++ rest)
      by (rewrite <- app_assoc; reflexivity).
    set (l := prev ++ [e]).
    assert (Hll : length l = S (length prev))
      by (subst l; rewrite length_app; cbn [length]; lia).
    destruct (decide (length l ≤ 50)%nat) as [Hs|Hs].
    + replace (length l - 50)%nat with 0%nat by lia.
      rewrite drop_0. reflexivity.
    + replace (length l - 50)%nat with 1%nat by lia.
      rewrite <- (drop_app_le l rest 1) by lia.
      rewrite drop_drop. f_equal.
      rewrite length_drop, length_app. lia.
Qed.

End LogProperties.

Lemma log_keeps_last_fifty_witness :
  App.addLogs nat (seq 0 60) [] = seq 10 50.
Proof.
  assert (H : (length (@nil nat) ≤ 50)%nat) by (cbn; lia).
  destruct (log_keeps_last_fifty (seq 0 60) [] H) as (Heq & _).
  rewrite Heq. reflexivity.
Defined.
